(** * leaders-commit-ranking: the commit sampling and scoring pipeline

    A shallow embedding of [main.go] (the Gemini-scored ranking program):
    the sampler, the diff packager, the evaluator-response parser, the
    per-repository loop of [main] and the final stable sort; then the
    prompt, the listing of the repositories and the two programs that only
    count commits (the bar-chart program of [main.go] and the table
    program of [unnamed/part_000]).  The properties the specification
    states come first, further properties of the code after them.

    Conventions.
    - Go [string] is a byte sequence: [list ascii].
    - Go [int] is [Z]; slice lengths and slice indices are [nat].  The
      arithmetic on [int] in the modelled code ([i+1], [currentLines++],
      [commitCount += len(commits)], [totalCommits += commitCount]) is
      bounded by slice lengths and by the number of commits listed during
      the run, so no wrap-around is reachable and none is written out.
    - Go [float64] is the primitive binary64 [float]; every operation
      rounds to binary64 (no fused multiply-add).
    - An index out of range is a run-time panic: indexed reads return
      [option] and [None] stands for the panic.
    - The collaborators (GitHub API, crypto/rand, Gemini) are explicit
      inputs: the responses they give to the calls the code makes. *)

From Stdlib Require Import ZArith Floats Ascii String DecimalString.
From stdpp Require Import base list strings sorting.

(* Decimal literals such as [0.2] denote the nearest binary64 value, as
   Go's conversion of an untyped constant to [float64] does. *)
Set Warnings "-inexact-float,-register-all".
Open Scope Z_scope.

(** ** Byte strings *)

Abbreviation str := (list ascii).

Definition bytes (s : string) : str := list_ascii_of_string s.

Definition nl : ascii := "010"%char.
Definition dquote : ascii := "034"%char.
Definition backslash : ascii := "092"%char.

Definition byte_of_Z (z : Z) : ascii := ascii_of_N (Z.to_N z).
Definition Z_of_byte (c : ascii) : Z := Z.of_N (N_of_ascii c).

(** The functions of Go's [strings] package the program calls, written
    from their documented behaviour. *)
Module strings.
(** [strings.HasPrefix]: [len(s) >= len(prefix) && s[:len(prefix)] == prefix]. *)
Definition HasPrefix (s prefix : str) : bool :=
  (length prefix <=? length s)%nat
  && bool_decide (take (length prefix) s = prefix).

(** [strings.HasSuffix]:
    [len(s) >= len(suffix) && s[len(s)-len(suffix):] == suffix]. *)
Definition HasSuffix (s suffix : str) : bool :=
  (length suffix <=? length s)%nat
  && bool_decide (drop (length s - length suffix) s = suffix).

(** [strings.TrimSuffix]. *)
Definition TrimSuffix (s suffix : str) : str :=
  if HasSuffix s suffix then take (length s - length suffix) s else s.

(** [strings.Index]: the byte index of the first occurrence of [substr]. *)
Fixpoint Index (s substr : str) : option nat :=
  if HasPrefix s substr then Some O
  else match s with
       | [] => None
       | _ :: s' => S <$> Index s' substr
       end.

(** [strings.Contains]. *)
Definition Contains (s substr : str) : bool :=
  bool_decide (is_Some (Index s substr)).

(** The width in bytes of the white space character (Unicode
    [White_Space], in UTF-8) that [s] starts with, 0 when it starts with
    none: what [unicode.IsSpace] accepts. *)
Definition spaceWidth (s : str) : nat :=
  match Z_of_byte <$> s with
  | 9 :: _ | 10 :: _ | 11 :: _ | 12 :: _ | 13 :: _ | 32 :: _ => 1%nat
  | 194 :: 133 :: _ | 194 :: 160 :: _ => 2%nat
  | 225 :: 154 :: 128 :: _ => 3%nat
  | 226 :: 128 :: b :: _ =>
      if (128 <=? b) && (b <=? 138) || (b =? 168) || (b =? 169) || (b =? 175)
      then 3%nat else O
  | 226 :: 129 :: 159 :: _ => 3%nat
  | 227 :: 128 :: 128 :: _ => 3%nat
  | _ => O
  end.

(** The same for the white space character [s] ends with. *)
Definition spaceWidthRight (s : str) : nat :=
  match Z_of_byte <$> reverse s with
  | 9 :: _ | 10 :: _ | 11 :: _ | 12 :: _ | 13 :: _ | 32 :: _ => 1%nat
  | 133 :: 194 :: _ | 160 :: 194 :: _ => 2%nat
  | 128 :: 154 :: 225 :: _ => 3%nat
  | b :: 128 :: 226 :: _ =>
      if (128 <=? b) && (b <=? 138) || (b =? 168) || (b =? 169) || (b =? 175)
      then 3%nat else O
  | 159 :: 129 :: 226 :: _ => 3%nat
  | 128 :: 128 :: 227 :: _ => 3%nat
  | _ => O
  end.

Fixpoint trimLeft (fuel : nat) (s : str) : str :=
  match fuel with
  | O => s
  | S fuel =>
      match spaceWidth s with
      | O => s
      | w => trimLeft fuel (drop w s)
      end
  end.

Fixpoint trimRight (fuel : nat) (s : str) : str :=
  match fuel with
  | O => s
  | S fuel =>
      match spaceWidthRight s with
      | O => s
      | w => trimRight fuel (take (length s - w) s)
      end
  end.

(** [strings.TrimSpace]: leading and trailing white space removed. *)
Definition TrimSpace (s : str) : str :=
  let s := trimLeft (length s) s in trimRight (length s) s.

(** [strings.Split(s, sep)] for a one-byte separator: the pieces between
    the separators, one more than there are separators. *)
Fixpoint Split (s : str) (sep : ascii) : list str :=
  match s with
  | [] => [[]]
  | c :: s' =>
      if decide (c = sep) then [] :: Split s' sep
      else match Split s' sep with
           | piece :: pieces => (c :: piece) :: pieces
           | [] => [[c]]
           end
  end.

(** [strings.IndexAny(s, chars)] for ASCII [chars]: the byte index of the
    first byte of [s] that is one of them.  (A byte of a multi-byte or
    malformed sequence is no ASCII character.) *)
Fixpoint IndexAny (s chars : str) : option nat :=
  match s with
  | [] => None
  | c :: s' =>
      if bool_decide (c ∈ chars) then Some O else S <$> IndexAny s' chars
  end.
End strings.

(** ** [encoding/json]

    The decoder of Go's standard library, written from its documented
    behaviour: the text is checked to be one JSON value (RFC 8259, at most
    10000 containers deep), then stored into the destination. *)
Module json.
Inductive value :=
| Null
| Bool (b : bool)
| Number (literal : str)
| String (s : str)
| Array (elems : list value)
| Object (members : list (str * value)).

Definition isSpace (c : ascii) : bool :=
  let z := Z_of_byte c in (z =? 32) || (z =? 9) || (z =? 13) || (z =? 10).

Fixpoint skipSpace (s : str) : str :=
  match s with
  | c :: s' => if isSpace c then skipSpace s' else s
  | [] => []
  end.

Definition isDigit (c : ascii) : bool :=
  let z := Z_of_byte c in (48 <=? z) && (z <=? 57).

Fixpoint spanDigits (s : str) : str * str :=
  match s with
  | c :: s' =>
      if isDigit c then let '(ds, rest) := spanDigits s' in (c :: ds, rest)
      else ([], s)
  | [] => ([], [])
  end.

(** A number literal at the start of [s], and what follows it. *)
Definition scanNumber (s : str) : option (str * str) :=
  let '(sign, s) :=
    match s with
    | c :: r => if decide (c = "-"%char) then ([c], r) else ([], s)
    | [] => ([], s)
    end in
  '(int, s) ←
    match s with
    | c :: r =>
        if decide (c = "0"%char) then Some ([c], r)
        else if isDigit c then Some (spanDigits s)
        else None
    | [] => None
    end;
  '(frac, s) ←
    match s with
    | c :: r =>
        if decide (c = "."%char) then
          let '(ds, rest) := spanDigits r in
          if bool_decide (ds = []) then None else Some (c :: ds, rest)
        else Some ([], s)
    | [] => Some ([], s)
    end;
  '(exp, s) ←
    match s with
    | c :: r =>
        if bool_decide (c = "e"%char ∨ c = "E"%char) then
          let '(esign, r) :=
            match r with
            | c' :: r' =>
                if bool_decide (c' = "+"%char ∨ c' = "-"%char)
                then ([c'], r') else ([], r)
            | [] => ([], r)
            end in
          let '(ds, rest) := spanDigits r in
          if bool_decide (ds = []) then None
          else Some (c :: esign ++ ds, rest)
        else Some ([], s)
    | [] => Some ([], s)
    end;
  Some (sign ++ int ++ frac ++ exp, s).

Definition hexVal (c : ascii) : option Z :=
  let z := Z_of_byte c in
  if (48 <=? z) && (z <=? 57) then Some (z - 48)
  else if (97 <=? z) && (z <=? 102) then Some (z - 87)
  else if (65 <=? z) && (z <=? 70) then Some (z - 55)
  else None.

(** The code unit of the escape that [s] starts with: a backslash, [u]
    and four hexadecimal digits. *)
Definition getu4 (s : str) : option Z :=
  match s with
  | b :: u :: h1 :: h2 :: h3 :: h4 :: _ =>
      if bool_decide (b = backslash ∧ u = "u"%char) then
        a ← hexVal h1; b ← hexVal h2; c ← hexVal h3; d ← hexVal h4;
        Some (((a * 16 + b) * 16 + c) * 16 + d)
      else None
  | _ => None
  end.

(** [utf8.EncodeRune] for a code point below 0x110000. *)
Definition encodeRune (r : Z) : str :=
  if r <? 128 then [byte_of_Z r]
  else if r <? 2048 then
    [byte_of_Z (192 + r / 64); byte_of_Z (128 + r mod 64)]
  else if r <? 65536 then
    [byte_of_Z (224 + r / 4096); byte_of_Z (128 + (r / 64) mod 64);
     byte_of_Z (128 + r mod 64)]
  else
    [byte_of_Z (240 + r / 262144); byte_of_Z (128 + (r / 4096) mod 64);
     byte_of_Z (128 + (r / 64) mod 64); byte_of_Z (128 + r mod 64)].

Definition simpleEscape (c : ascii) : option ascii :=
  if decide (c = dquote) then Some dquote
  else if decide (c = backslash) then Some backslash
  else if decide (c = "/"%char) then Some "/"%char
  else if decide (c = "b"%char) then Some "008"%char
  else if decide (c = "f"%char) then Some "012"%char
  else if decide (c = "n"%char) then Some "010"%char
  else if decide (c = "r"%char) then Some "013"%char
  else if decide (c = "t"%char) then Some "009"%char
  else None.

(** A string literal after its opening quote: the unquoted content and
    what follows the closing quote.  Bytes above 0x7F are kept as they
    are (Go replaces ill-formed UTF-8 by U+FFFD when it unquotes;
    neither form is or folds to an ASCII field name). *)
Fixpoint scanString (fuel : nat) (s : str) : option (str * str) :=
  match fuel with
  | O => None
  | S fuel =>
      match s with
      | [] => None
      | c :: r =>
          if decide (c = dquote) then Some ([], r)
          else if decide (c = backslash) then
            match r with
            | [] => None
            | e :: r' =>
                if decide (e = "u"%char) then
                  rr ← getu4 s;
                  let r6 := drop 6 s in
                  if (55296 <=? rr) && (rr <? 57344) then
                    match getu4 r6 with
                    | Some rr1 =>
                        if (rr <? 56320) && (56320 <=? rr1) && (rr1 <? 57344)
                        then
                          '(t, rest) ← scanString fuel (drop 6 r6);
                          Some (encodeRune ((rr - 55296) * 1024
                                            + (rr1 - 56320) + 65536) ++ t,
                                rest)
                        else
                          '(t, rest) ← scanString fuel r6;
                          Some (encodeRune 65533 ++ t, rest)
                    | None =>
                        '(t, rest) ← scanString fuel r6;
                        Some (encodeRune 65533 ++ t, rest)
                    end
                  else
                    '(t, rest) ← scanString fuel r6;
                    Some (encodeRune rr ++ t, rest)
                else
                  b ← simpleEscape e;
                  '(t, rest) ← scanString fuel r';
                  Some (b :: t, rest)
            end
          else if Z_of_byte c <? 32 then None
          else
            '(t, rest) ← scanString fuel r;
            Some (c :: t, rest)
      end
  end.

Definition maxNestingDepth : Z := 10000.

(** One value at the start of [s] (no leading space), inside [depth]
    containers; the elements of an array from its first value on; the
    members of an object from its first key on.  Every call consumes a
    byte before the fuel drops by two, so twice the length of the text
    is fuel enough. *)
Fixpoint parseValue (fuel : nat) (depth : Z) (s : str)
  : option (value * str) :=
  match fuel with
  | O => None
  | S fuel =>
      match s with
      | [] => None
      | c :: r =>
          if decide (c = "{"%char) then
            if maxNestingDepth <=? depth then None
            else
              match skipSpace r with
              | c' :: r' =>
                  if decide (c' = "}"%char) then Some (Object [], r')
                  else
                    '(ms, rest) ← parseMembers fuel (depth + 1) (c' :: r');
                    Some (Object ms, rest)
              | [] => None
              end
          else if decide (c = "["%char) then
            if maxNestingDepth <=? depth then None
            else
              match skipSpace r with
              | c' :: r' =>
                  if decide (c' = "]"%char) then Some (Array [], r')
                  else
                    '(vs, rest) ← parseElements fuel (depth + 1) (c' :: r');
                    Some (Array vs, rest)
              | [] => None
              end
          else if decide (c = dquote) then
            '(t, rest) ← scanString (length s) r;
            Some (String t, rest)
          else if strings.HasPrefix s (bytes "true") then
            Some (Bool true, drop 4 s)
          else if strings.HasPrefix s (bytes "false") then
            Some (Bool false, drop 5 s)
          else if strings.HasPrefix s (bytes "null") then
            Some (Null, drop 4 s)
          else
            '(lit, rest) ← scanNumber s;
            Some (Number lit, rest)
      end
  end
with parseElements (fuel : nat) (depth : Z) (s : str)
  : option (list value * str) :=
  match fuel with
  | O => None
  | S fuel =>
      '(v, rest) ← parseValue fuel depth s;
      match skipSpace rest with
      | c :: r =>
          if decide (c = "]"%char) then Some ([v], r)
          else if decide (c = ","%char) then
            '(vs, rest') ← parseElements fuel depth (skipSpace r);
            Some (v :: vs, rest')
          else None
      | [] => None
      end
  end
with parseMembers (fuel : nat) (depth : Z) (s : str)
  : option (list (str * value) * str) :=
  match fuel with
  | O => None
  | S fuel =>
      match s with
      | q :: r =>
          if decide (q = dquote) then
            '(key, rest) ← scanString (length s) r;
            match skipSpace rest with
            | c :: r1 =>
                if decide (c = ":"%char) then
                  '(v, rest1) ← parseValue fuel depth (skipSpace r1);
                  match skipSpace rest1 with
                  | c' :: r2 =>
                      if decide (c' = "}"%char) then Some ([(key, v)], r2)
                      else if decide (c' = ","%char) then
                        '(ms, rest2) ← parseMembers fuel depth (skipSpace r2);
                        Some ((key, v) :: ms, rest2)
                      else None
                  | [] => None
                  end
                else None
            | [] => None
            end
          else None
      | [] => None
      end
  end.

(** The whole text as one JSON value, [None] when it is not valid. *)
Definition parse (data : str) : option value :=
  '(v, rest) ← parseValue (2 * length data + 2) 0 (skipSpace data);
  if bool_decide (skipSpace rest = []) then Some v else None.

(** The folded form of an object key that field names are compared
    under: ASCII letters in upper case, and the two characters outside
    ASCII that fold to ASCII letters (U+017F to S, U+212A to K). *)
Fixpoint foldName (s : str) : str :=
  match s with
  | [] => []
  | c :: r =>
      let z := Z_of_byte c in
      if (97 <=? z) && (z <=? 122) then byte_of_Z (z - 32) :: foldName r
      else
        match r with
        | c2 :: r2 =>
            if (z =? 197) && (Z_of_byte c2 =? 191) then "S"%char :: foldName r2
            else
              match r2 with
              | c3 :: r3 =>
                  if (z =? 226) && (Z_of_byte c2 =? 132)
                     && (Z_of_byte c3 =? 170)
                  then "K"%char :: foldName r3
                  else c :: foldName r
              | [] => c :: foldName r
              end
        | [] => [c]
        end
  end.

Definition digitsValue (ds : str) : Z :=
  fold_left (λ acc c, acc * 10 + (Z_of_byte c - 48)) ds 0.

(** [strconv.ParseInt(literal, 10, 64)] on a JSON number literal. *)
Definition ParseInt64 (literal : str) : option Z :=
  let '(neg, ds) :=
    match literal with
    | c :: r => if decide (c = "-"%char) then (true, r) else (false, literal)
    | [] => (false, literal)
    end in
  if negb (bool_decide (ds = [])) && forallb isDigit ds then
    let n := if neg then - digitsValue ds else digitsValue ds in
    if (- 2 ^ 63 <=? n) && (n <? 2 ^ 63) then Some n else None
  else None.

(** Storing a value into an [int] field that holds [old]: [null] leaves
    the field, an integer literal in range sets it, anything else is an
    [UnmarshalTypeError] ([None]). *)
Definition storeInt (v : value) (old : Z) : option Z :=
  match v with
  | Null => Some old
  | Number literal => ParseInt64 literal
  | _ => None
  end.
End json.

(** ** Data model ([main.go], lines 23-45) *)

Record CommitInfo := {
  SHA : str;
  Message : str;
  Diff : str
}.

Record GeminiScore := {
  TechnicalSophistication : Z;
  MessageAppropriateness : Z
}.

Record RepoScore := {
  Name : str;
  CommitCount : Z;
  TechnicalScore : Z;
  MessageScore : Z;
  OverallScore : float;
  AnalyzedCommitsCount : Z;
  SampledCommits : list CommitInfo
}.

(** [const] block, lines 472-480. *)
Definition numRandomCommitsToAnalyze : Z := 5.
Definition diffLinesLimit : Z := 100.
Definition commitCountWeight : float := 0.2%float.
Definition technicalScoreWeight : float := 0.4%float.
Definition messageScoreWeight : float := 0.4%float.
Definition maxCommitCountForNorm : Z := 1000.

(** ** Step 3 of [GetRepositoryCommitAnalysisData]: the sampler
    (lines 376-400) *)

Section Sampler.
(** [rand.Int(rand.Reader, max)]: the value drawn when the bound is
    [max].  The shuffle calls it once for each bound [i+1], so a
    function of the bound describes every possible run. *)
Variable randInt : Z → Z.

(** [indices[i], indices[j] = indices[j], indices[i]]: both operands
    are read, then position [i] and position [j] are written. *)
Definition swap (indices : list nat) (i j : nat) : option (list nat) :=
  xi ← indices !! i;
  xj ← indices !! j;
  Some (<[j := xi]> (<[i := xj]> indices)).

(** [for i := len(indices) - 1; i > 0; i-- { ... }], entered with the
    current value of [i]. *)
Fixpoint shuffle (i : nat) (indices : list nat) : option (list nat) :=
  match i with
  | O => Some indices
  | S i' =>
      let j := randInt (Z.of_nat i + 1) in
      if j <? 0 then None
      else
        indices' ← swap indices i (Z.to_nat j);
        shuffle i' indices'
  end.

Definition numToSelect (allCommitSHAs : list str) (n : Z) : Z :=
  if Z.of_nat (length allCommitSHAs) <? n
  then Z.of_nat (length allCommitSHAs) else n.

(** The indices the sampler selects: the first [numToSelect] entries of
    the shuffled index array. *)
Definition selectedIndices (allCommitSHAs : list str) (n : Z)
  : option (list nat) :=
  indices ← shuffle (length allCommitSHAs - 1) (seq 0 (length allCommitSHAs));
  mapM (λ i, indices !! i) (seq 0 (Z.to_nat (numToSelect allCommitSHAs n))).

(** [finalSelectedSHAs]. *)
Definition selectSHAs (allCommitSHAs : list str) (n : Z)
  : option (list str) :=
  idx ← selectedIndices allCommitSHAs n;
  mapM (λ i, allCommitSHAs !! i) idx.
End Sampler.

(** ** [float64] *)

(** The conversion [float64(n)] of an [int]: the nearest binary64 value. *)
Definition float64_of_int (n : Z) : float :=
  if n =? - 2 ^ 63 then (- Z.ldexp 1 63)%float
  else if n <? 0 then (- of_uint63 (Uint63.of_Z (- n)))%float
  else of_uint63 (Uint63.of_Z n).

(** ** [sort.SliceStable]

    Go's stable sort: insertion sort (on blocks of 20 elements, merged
    in place for longer slices).  The insertion sort is written out; for
    a [less] that is a strict weak ordering every stable sort gives the
    same slice. *)
Module sort.
Section SliceStable.
Context {A : Type}.
Variable less : A → A → bool.

(** [for j := i; j > a && less(data[j], data[j-1]); j-- { swap }]:
    the new element moves left past every element it is less than.
    The sorted prefix is held last element first. *)
Fixpoint insert (x : A) (sortedRev : list A) : list A :=
  match sortedRev with
  | [] => [x]
  | y :: sortedRev' =>
      if less x y then y :: insert x sortedRev' else x :: sortedRev
  end.

Definition SliceStable (data : list A) : list A :=
  reverse (fold_left (λ sortedRev x, insert x sortedRev) data []).
End SliceStable.
End sort.

(** ** The GitHub collaborator *)

(** [github.CommitFile]: [GetPatch] gives the empty string for a nil patch. *)
Record CommitFile := { Patch : option str }.

Definition GetPatch (f : CommitFile) : str := default [] (Patch f).

(** [github.Commit], of which the program reads [Message]. *)
Record GitCommit := { GitMessage : option str }.

(** [github.RepositoryCommit], of which the program reads [SHA],
    [Commit.Message] and [Files]. *)
Record RepositoryCommit := {
  CommitSHA : option str;
  Commit : option GitCommit;
  Files : list CommitFile
}.

(** The responses of [Repositories.ListCommits] to the successive page
    requests of one pagination loop: a page whose [resp.NextPage] is 0, a
    page whose [resp.NextPage] is not 0 together with what the request for
    that page is answered, or an error ([err != nil]) with the status code
    of [resp] when [resp != nil]. *)
Inductive CommitListing :=
| LastPage (commits : list RepositoryCommit)
| MorePages (commits : list RepositoryCommit) (next : CommitListing)
| ListError (statusCode : option Z) (err : str).

(** [countAllCommits] (lines 298-318): the loop entered with the current
    [commitCount]; the result is the pair [(int, error)], the error being
    its message. *)
Fixpoint countAllCommits_from (owner repoName : str) (commitCount : Z)
    (listing : CommitListing) : Z * option str :=
  match listing with
  | ListError statusCode err =>
      if bool_decide (statusCode = Some 409) then (0, None)
      else (0, Some (bytes "failed to list commits for " ++ owner ++ bytes "/"
                     ++ repoName ++ bytes " during full count: " ++ err))
  | LastPage commits => (commitCount + Z.of_nat (length commits), None)
  | MorePages commits next =>
      countAllCommits_from owner repoName
        (commitCount + Z.of_nat (length commits)) next
  end.

Definition countAllCommits (owner repoName : str) (listing : CommitListing)
  : Z * option str :=
  countAllCommits_from owner repoName 0 listing.

(** The non-nil SHAs of one page (lines 356-360). *)
Definition pageSHAs (commitsPage : list RepositoryCommit) : list str :=
  omap CommitSHA commitsPage.

(** Step 2 of [GetRepositoryCommitAnalysisData] (lines 344-369): the loop
    entered with the current [allCommitSHAs]; [None] is the early return
    on a listing error. *)
Fixpoint listCommitSHAs_from (totalCommits n : Z) (allCommitSHAs : list str)
    (listing : CommitListing) : option (list str) :=
  match listing with
  | ListError _ _ => None
  | LastPage commitsPage => Some (allCommitSHAs ++ pageSHAs commitsPage)
  | MorePages commitsPage next =>
      let allCommitSHAs := allCommitSHAs ++ pageSHAs commitsPage in
      if totalCommits <=? Z.of_nat (length allCommitSHAs) then Some allCommitSHAs
      else if (500 <? Z.of_nat (length allCommitSHAs)) && (n <=? 10)
           then Some allCommitSHAs
           else listCommitSHAs_from totalCommits n allCommitSHAs next
  end.

(** ** Step 4 of [GetRepositoryCommitAnalysisData]: the diff packager
    (lines 416-447) *)

Definition truncationMarker : str :=
  nl :: bytes "... (diff truncated due to line limit)" ++ [nl].
Definition fileSeparator : str := bytes "---" ++ [nl].
Definition patchSeparator : str := nl :: bytes "---" ++ [nl].

(** The loop over [patchLines] (lines 423-431), entered with the builder's
    content and [currentLines]; the boolean tells that the loop left by
    [goto EndDiffProcessing]. *)
Fixpoint writePatchLines (diffLinesLimit : Z) (patchLines : list str)
    (diffSnippet : str) (currentLines : Z) : str * Z * bool :=
  match patchLines with
  | [] => (diffSnippet, currentLines, false)
  | line :: patchLines =>
      if diffLinesLimit <=? currentLines
      then (diffSnippet ++ truncationMarker, currentLines, true)
      else writePatchLines diffLinesLimit patchLines
             (diffSnippet ++ line ++ [nl]) (currentLines + 1)
  end.

(** The loop over [commit.Files] (lines 419-440); the result is the
    builder's content at [EndDiffProcessing]. *)
Fixpoint writeFiles (diffLinesLimit : Z) (files : list CommitFile)
    (diffSnippet : str) (currentLines : Z) : str :=
  match files with
  | [] => diffSnippet
  | file :: files =>
      if bool_decide (GetPatch file = []) then
        writeFiles diffLinesLimit files diffSnippet currentLines
      else if 0 <? diffLinesLimit then
        let '(diffSnippet, currentLines, truncated) :=
          writePatchLines diffLinesLimit (strings.Split (GetPatch file) nl)
            diffSnippet currentLines in
        if truncated then diffSnippet
        else
          let diffSnippet :=
            if currentLines <? diffLinesLimit
            then diffSnippet ++ fileSeparator else diffSnippet in
          writeFiles diffLinesLimit files diffSnippet currentLines
      else
        writeFiles diffLinesLimit files
          (diffSnippet ++ GetPatch file ++ patchSeparator) currentLines
  end.

(** The [Diff] field of the packaged commit (line 447). *)
Definition packageDiff (diffLinesLimit : Z) (files : list CommitFile) : str :=
  strings.TrimSuffix (writeFiles diffLinesLimit files [] 0) patchSeparator.

(** The body of the loop over the selected SHAs once the detail is fetched
    (lines 411-448). *)
Definition packageCommit (diffLinesLimit : Z) (sha : str)
    (commit : RepositoryCommit) : CommitInfo :=
  {| SHA := sha;
     Message := default [] (Commit commit ≫= GitMessage);
     Diff := packageDiff diffLinesLimit (Files commit) |}.

(** ** [GetRepositoryCommitAnalysisData] (lines 323-452) *)

(** What the GitHub API and the random source answer while one repository
    is analysed. *)
Record GitHubWorld := {
  (** [ListCommits] during [countAllCommits] *)
  countListing : CommitListing;
  (** [ListCommits] during the SHA enumeration *)
  shaListing : CommitListing;
  (** [rand.Int] by bound *)
  randInt : Z → Z;
  (** [Repositories.GetCommit]: the answer to the [i]-th request (from 0),
      which asks for [sha]; [None] is [getErr != nil]. *)
  GetCommit : nat → str → option RepositoryCommit
}.

(** Step 4 (lines 403-449): a failed fetch is logged and skipped. *)
Definition fetchDetails (w : GitHubWorld) (diffLinesLimit : Z)
    (finalSelectedSHAs : list str) : list CommitInfo :=
  omap (λ '(i, sha), packageCommit diffLinesLimit sha <$> GetCommit w i sha)
       (imap pair finalSelectedSHAs).

(** The error test of lines 329-338: [true] when the error of
    [countAllCommits] is passed over and the function goes on with
    [totalCommits]. *)
Definition countErrorIgnored (owner repoName : str) (totalCommits : Z)
    (err : str) : bool :=
  (bool_decide
     (err = bytes "failed to list commits for " ++ owner ++ bytes "/" ++ repoName
            ++ bytes " during full count: GET https://api.github.com/repos/"
            ++ owner ++ bytes "/" ++ repoName
            ++ bytes "/commits?per_page=100: 409  []")
   && (totalCommits =? 0))
  || ((totalCommits =? 0) && strings.Contains err (bytes "409")).

(** The three results [(totalCommits, analyzedCommits, err)]; the outer
    [option] is [None] when the run panics on an index out of range. *)
Definition GetRepositoryCommitAnalysisData (w : GitHubWorld)
    (owner repoName : str) (numRandomCommitsToAnalyze diffLinesLimit : Z)
  : option (Z * list CommitInfo * option str) :=
  let '(totalCommits, err) := countAllCommits owner repoName (countListing w) in
  let failed :=
    match err with
    | Some e =>
        if countErrorIgnored owner repoName totalCommits e then None
        else Some (bytes "error counting all commits for " ++ owner
                   ++ bytes "/" ++ repoName ++ bytes ": " ++ e)
    | None => None
    end in
  match failed with
  | Some e => Some (0, [], Some e)
  | None =>
      if totalCommits =? 0 then Some (0, [], None)
      else
        match listCommitSHAs_from totalCommits numRandomCommitsToAnalyze []
                (shaListing w) with
        | None => Some (totalCommits, [], None)
        | Some allCommitSHAs =>
            if bool_decide (length allCommitSHAs = O)
            then Some (totalCommits, [], None)
            else
              finalSelectedSHAs ←
                selectSHAs (randInt w) allCommitSHAs numRandomCommitsToAnalyze;
              Some (totalCommits,
                    fetchDetails w diffLinesLimit finalSelectedSHAs, None)
        end
  end.

(** ** The Gemini collaborator and [AnalyzeCommitsWithGemini]
    (lines 126-229) *)

(** [genai.Part]: a [genai.Text] or a part of another type. *)
Inductive Part := Text (text : str) | OtherPart.

Record Content := { Parts : list Part }.
Record Candidate := { CandidateContent : option Content }.
Record GenerateContentResponse := { Candidates : list Candidate }.

Inductive EvalError :=
| GenerateContentFailed   (* line 186 *)
| EmptyResponse           (* line 190 *)
| UnexpectedPartType      (* line 197 *)
| NoJSONFound             (* line 218 *)
| InvalidJSON.            (* line 225 *)

Inductive result (A : Type) :=
| Ok (a : A)
| Err (e : EvalError).
Arguments Ok {A} a.
Arguments Err {A} e.

(** [json.Unmarshal(data, &score)] for a zero [GeminiScore]: the members
    of an object are stored in order into the field whose [json] name is
    the key (exactly, or else under folding); other keys are skipped;
    fields without a member keep their zero.  [None] is a non-nil error. *)
Inductive ScoreField := FTechnical | FMessage.

Definition fieldByName (key : str) : option ScoreField :=
  if bool_decide (key = bytes "technical_sophistication") then Some FTechnical
  else if bool_decide (key = bytes "message_appropriateness") then Some FMessage
  else if bool_decide (json.foldName key
                       = json.foldName (bytes "technical_sophistication"))
  then Some FTechnical
  else if bool_decide (json.foldName key
                       = json.foldName (bytes "message_appropriateness"))
  then Some FMessage
  else None.

(** The members stored one after the other; the boolean is [false] once an
    [UnmarshalTypeError] was saved. *)
Fixpoint storeMembers (members : list (str * json.value))
    (score : GeminiScore) (ok : bool) : GeminiScore * bool :=
  match members with
  | [] => (score, ok)
  | (key, v) :: members =>
      match fieldByName key with
      | None => storeMembers members score ok
      | Some FTechnical =>
          match json.storeInt v (TechnicalSophistication score) with
          | Some n =>
              storeMembers members
                {| TechnicalSophistication := n;
                   MessageAppropriateness := MessageAppropriateness score |} ok
          | None => storeMembers members score false
          end
      | Some FMessage =>
          match json.storeInt v (MessageAppropriateness score) with
          | Some n =>
              storeMembers members
                {| TechnicalSophistication := TechnicalSophistication score;
                   MessageAppropriateness := n |} ok
          | None => storeMembers members score false
          end
      end
  end.

Definition zeroScore : GeminiScore :=
  {| TechnicalSophistication := 0; MessageAppropriateness := 0 |}.

Definition storeScore (v : json.value) : option GeminiScore :=
  match v with
  | json.Null => Some zeroScore
  | json.Object members =>
      let '(score, ok) := storeMembers members zeroScore true in
      if ok then Some score else None
  | _ => None
  end.

Definition Unmarshal_GeminiScore (data : str) : option GeminiScore :=
  json.parse data ≫= storeScore.

(** The first capture of the regular expression of line 203,
    [(?s)```json\n(.*?)\n```], at its leftmost match: the text between
    the first opening fence and the first closing fence after it. *)
Definition fenceOpen : str := bytes "```json" ++ [nl].
Definition fenceClose : str := nl :: bytes "```".

Definition findFencedJSON (jsonResponse : str) : option str :=
  i ← strings.Index jsonResponse fenceOpen;
  let rest := drop (i + length fenceOpen) jsonResponse in
  j ← strings.Index rest fenceClose;
  Some (take j rest).

(** The regular expression of line 212,
    [(?s)\s*\{\s*("technical_sophistication"|"message_appropriateness")[\s\S]*?\}\s*]:
    its match anchored at the start of [s], and its leftmost match. *)
Definition isRegexpSpace (c : ascii) : bool :=
  let z := Z_of_byte c in
  (z =? 9) || (z =? 10) || (z =? 12) || (z =? 13) || (z =? 32).

Fixpoint skipRegexpSpace (s : str) : str :=
  match s with
  | c :: s' => if isRegexpSpace c then skipRegexpSpace s' else s
  | [] => []
  end.

Definition keyTechnical : str :=
  dquote :: bytes "technical_sophistication" ++ [dquote].
Definition keyMessage : str :=
  dquote :: bytes "message_appropriateness" ++ [dquote].

Definition matchBareJSONAt (s : str) : option str :=
  match skipRegexpSpace s with
  | c :: r =>
      if decide (c = "{"%char) then
        let r := skipRegexpSpace r in
        key ← (if strings.HasPrefix r keyTechnical then Some keyTechnical
               else if strings.HasPrefix r keyMessage then Some keyMessage
               else None);
        let r := drop (length key) r in
        j ← strings.Index r (bytes "}");
        let r := skipRegexpSpace (drop (S j) r) in
        Some (take (length s - length r) s)
      else None
  | [] => None
  end.

Fixpoint findBareJSON (s : str) : option str :=
  match matchBareJSONAt s with
  | Some m => Some m
  | None =>
      match s with
      | [] => None
      | _ :: s' => findBareJSON s'
      end
  end.

(** Lines 202-220: [extractedJSON], or [None] when neither expression
    matches. *)
Definition extractJSON (jsonResponse : str) : option str :=
  match findFencedJSON jsonResponse with
  | Some m => Some (strings.TrimSpace m)
  | None => strings.TrimSpace <$> findBareJSON jsonResponse
  end.

(** Lines 189-228: from the response of [GenerateContent] to the score. *)
Definition parseResponse (resp : GenerateContentResponse)
  : result GeminiScore :=
  match Candidates resp with
  | [] => Err EmptyResponse
  | candidate :: _ =>
      match CandidateContent candidate with
      | None => Err EmptyResponse
      | Some content =>
          match Parts content with
          | [] => Err EmptyResponse
          | OtherPart :: _ => Err UnexpectedPartType
          | Text jsonResponse :: _ =>
              match extractJSON jsonResponse with
              | None => Err NoJSONFound
              | Some extractedJSON =>
                  match Unmarshal_GeminiScore extractedJSON with
                  | None => Err InvalidJSON
                  | Some score => Ok score
                  end
              end
          end
      end
  end.

(** A call of [gc.client.GenerateContent]; the prompt is a function of the
    three arguments of [AnalyzeCommitsWithGemini]. *)
Inductive Event :=
| GenerateContent (repoName : str) (totalCommitCount : Z)
    (sampledCommits : list CommitInfo).

(** [gemini] is what [GenerateContent] answers when it is called, [None]
    being [err != nil].  The result comes with the calls made. *)
Definition AnalyzeCommitsWithGemini (gemini : option GenerateContentResponse)
    (repoName : str) (totalCommitCount : Z) (sampledCommits : list CommitInfo)
  : list Event * result GeminiScore :=
  if totalCommitCount =? 0 then ([], Ok zeroScore)
  else if bool_decide (length sampledCommits = O) then
    ([], Ok {| TechnicalSophistication := 1; MessageAppropriateness := 0 |})
  else
    ([GenerateContent repoName totalCommitCount sampledCommits],
     match gemini with
     | None => Err GenerateContentFailed
     | Some resp => parseResponse resp
     end).

(** ** [main] (lines 482-594) *)

(** One repository of the organization: its name ([repo.GetName()], empty
    for a nil name) and what the collaborators answer while it is
    processed. *)
Record Repository := {
  RepoName : str;
  github : GitHubWorld;
  gemini : option GenerateContentResponse
}.

(** Lines 548-558. *)
Definition commitScore (totalRepoCommits : Z) : float :=
  let normalizedCommitCount := float64_of_int totalRepoCommits in
  let normalizedCommitCount :=
    if (float64_of_int maxCommitCountForNorm <? normalizedCommitCount)%float
    then float64_of_int maxCommitCountForNorm
    else normalizedCommitCount in
  (normalizedCommitCount / float64_of_int maxCommitCountForNorm * 10)%float.

Definition overallScore (totalRepoCommits : Z) (geminiEval : GeminiScore)
  : float :=
  (commitScore totalRepoCommits * commitCountWeight
   + float64_of_int (TechnicalSophistication geminiEval) * technicalScoreWeight
   + float64_of_int (MessageAppropriateness geminiEval) * messageScoreWeight)%float.

(** The zero [RepoScore] with a name and a commit count, as the composite
    literal of line 522 builds it. *)
Definition emptyScore (repoName : str) (commitCount : Z) : RepoScore :=
  {| Name := repoName; CommitCount := commitCount; TechnicalScore := 0;
     MessageScore := 0; OverallScore := 0%float; AnalyzedCommitsCount := 0;
     SampledCommits := [] |}.

(** The body of the loop over the repositories (lines 511-571): what is
    appended to [repoScores] ([None] for a repository that is skipped,
    having no name) and the evaluator calls made.  The outer [option] is
    [None] when the run panics. *)
Definition processRepo (organization : str) (repo : Repository)
  : option (option RepoScore * list Event) :=
  let repoName := RepoName repo in
  if bool_decide (repoName = []) then Some (None, [])
  else
    '(totalRepoCommits, sampledCommits, err) ←
      GetRepositoryCommitAnalysisData (github repo) organization repoName
        numRandomCommitsToAnalyze diffLinesLimit;
    match err with
    | Some _ => Some (Some (emptyScore repoName (-1)), [])
    | None =>
        if totalRepoCommits =? 0 then Some (Some (emptyScore repoName 0), [])
        else
          let '(calls, geminiEval) :=
            AnalyzeCommitsWithGemini (gemini repo) repoName totalRepoCommits
              sampledCommits in
          match geminiEval with
          | Err _ =>
              Some (Some {| Name := repoName;
                            CommitCount := totalRepoCommits;
                            TechnicalScore := 0;
                            MessageScore := 0;
                            OverallScore := 0%float;
                            AnalyzedCommitsCount :=
                              Z.of_nat (length sampledCommits);
                            SampledCommits := sampledCommits |},
                    calls)
          | Ok geminiEval =>
              Some (Some {| Name := repoName;
                            CommitCount := totalRepoCommits;
                            TechnicalScore :=
                              TechnicalSophistication geminiEval;
                            MessageScore := MessageAppropriateness geminiEval;
                            OverallScore :=
                              overallScore totalRepoCommits geminiEval;
                            AnalyzedCommitsCount :=
                              Z.of_nat (length sampledCommits);
                            SampledCommits := sampledCommits |},
                    calls)
          end
    end.

(** The loop: [repoScores] in the order of the enumeration, and every
    evaluator call of the run. *)
Fixpoint processRepos (organization : str) (repos : list Repository)
  : option (list RepoScore * list Event) :=
  match repos with
  | [] => Some ([], [])
  | repo :: repos =>
      '(score, calls) ← processRepo organization repo;
      '(repoScores, calls') ← processRepos organization repos;
      Some (match score with
            | Some rs => rs :: repoScores
            | None => repoScores
            end, calls ++ calls')
  end.

(** The comparison handed to [sort.SliceStable] (lines 574-576). *)
Definition byOverallScoreDesc (a b : RepoScore) : bool :=
  (OverallScore b <? OverallScore a)%float.

(** [main] after the repositories are listed: the ranking it prints. *)
Definition main (organization : str) (repos : list Repository)
  : option (list RepoScore * list Event) :=
  '(repoScores, calls) ← processRepos organization repos;
  Some (sort.SliceStable byOverallScoreDesc repoScores, calls).

(** ** The prompt of [AnalyzeCommitsWithGemini] (lines 137-176) *)

(** The verb [%d] of [fmt] for an [int]: the decimal digits, after a minus
    sign for a negative number.  The verb [%s] writes the bytes of its
    string as they are. *)
Definition formatInt (n : Z) : str :=
  bytes (NilZero.string_of_int (Z.to_int n)).

(** What one round of the loop of lines 142-146 writes, for the commit at
    index [i]. *)
Definition sampledCommitSection (i : nat) (sc : CommitInfo) : str :=
  nl :: bytes "--- Sampled Commit " ++ formatInt (Z.of_nat i + 1)
  ++ bytes " ---" ++ [nl]
  ++ bytes "Commit Message:" ++ [nl] ++ Message sc ++ [nl; nl]
  ++ bytes "Commit Diff (first 100 lines or less):" ++ [nl] ++ Diff sc ++ [nl].

(** [analysisContent.String()] (lines 137-146). *)
Definition analysisContent (repoName : str) (totalCommitCount : Z)
    (sampledCommits : list CommitInfo) : str :=
  bytes "Repository: " ++ repoName ++ [nl]
  ++ bytes "Total Commits in Repository: " ++ formatInt totalCommitCount
  ++ [nl; nl]
  ++ bytes "Analyzing " ++ formatInt (Z.of_nat (length sampledCommits))
  ++ bytes " randomly sampled commits:" ++ [nl]
  ++ concat (imap sampledCommitSection sampledCommits).

(** [prompt] (lines 148-176): the raw string literal with its three verbs
    filled in. *)
Definition prompt (repoName : str) (totalCommitCount : Z)
    (sampledCommits : list CommitInfo) : str :=
    bytes "
You are an expert code reviewer. Analyze the provided commit data for the repository named '"
    ++ repoName
    ++ bytes "'.
The data includes the total number of commits in the repository and a sample of "
    ++ formatInt (Z.of_nat (length sampledCommits))
    ++ bytes " individual commits, each with its commit message and a snippet of its diff (up to the first 100 lines).

Based ONLY on the provided information for these sampled commits, evaluate the following:

1.  **Technical Sophistication (1-10 points):**
    From the diff snippets of the sampled commits, assess the complexity of the changes, the use of advanced techniques or technologies, and the ingenuity in problem-solving.
    A score of 1 means very simple changes (e.g., typo fixes, minor documentation updates).
    A score of 10 means highly complex changes involving significant architectural work, advanced algorithms, or novel technology applications.
    If diffs are empty or uninformative, assign a low score.

2.  **Commit Message Appropriateness (1-10 points):**
    For each sampled commit, evaluate how well its commit message aligns with its corresponding diff snippet.
    Does the message accurately and concisely describe what was changed in the diff?
    A score of 1 means the message is irrelevant, misleading, or completely uninformative regarding the diff.
    A score of 10 means the message perfectly and clearly describes the changes shown in the diff.
    Consider the average appropriateness across all sampled commits.

Please provide your evaluation STRICTLY in the following JSON format, with no other text before or after the JSON block:
{
  "
    ++ keyTechnical
    ++ bytes ": <integer_score_1_to_10_for_overall_repo_based_on_samples>,
  "
    ++ keyMessage
    ++ bytes ": <integer_score_1_to_10_for_average_message_quality_based_on_samples>
}

Analysis Data:
"
    ++ analysisContent repoName totalCommitCount sampledCommits
    ++ bytes "
".

(** The text handed to [GenerateContent] by a call (line 184). *)
Definition promptOf (call : Event) : str :=
  match call with
  | GenerateContent repoName totalCommitCount sampledCommits =>
      prompt repoName totalCommitCount sampledCommits
  end.

(** ** [GetOrganizationRepos] (lines 232-250) *)

(** The responses of [Repositories.ListByOrg] to the successive page
    requests: as [CommitListing], for repositories; [R] is what the run
    sees of a [*github.Repository]. *)
Inductive RepoListing (R : Type) :=
| LastRepoPage (repos : list R)
| MoreRepoPages (repos : list R) (next : RepoListing R)
| RepoListError (err : str).
Arguments LastRepoPage {R} repos.
Arguments MoreRepoPages {R} repos next.
Arguments RepoListError {R} err.

(** The loop entered with the current [allRepos]; the result is the pair
    [([]*github.Repository, error)], a nil slice being the empty list. *)
Fixpoint GetOrganizationRepos_from {R} (orgName : str) (allRepos : list R)
    (listing : RepoListing R) : list R * option str :=
  match listing with
  | RepoListError err =>
      ([], Some (bytes "failed to list repositories for organization "
                 ++ orgName ++ bytes ": " ++ err))
  | LastRepoPage repos => (allRepos ++ repos, None)
  | MoreRepoPages repos next =>
      GetOrganizationRepos_from orgName (allRepos ++ repos) next
  end.

Definition GetOrganizationRepos {R} (orgName : str) (listing : RepoListing R)
  : list R * option str :=
  GetOrganizationRepos_from orgName [] listing.

(** ** [GetRepositoryCommitCount] (lines 261-296) *)

(** What [ListCommits] answers to the request for one commit per page
    (line 267): the commits with [resp.LastPage], or an error with the
    status code of [resp] when [resp != nil]. *)
Inductive FirstCommitPage :=
| FirstPage (commits : list RepositoryCommit) (respLastPage : Z)
| FirstPageError (statusCode : option Z) (err : str).

(** [listing] is what [ListCommits] answers during [countAllCommits]. *)
Definition GetRepositoryCommitCount (owner repoName : str)
    (first : FirstCommitPage) (listing : CommitListing) : Z * option str :=
  match first with
  | FirstPageError statusCode err =>
      if bool_decide (statusCode = Some 409) then (0, None)
      else (0, Some (bytes "failed to list commits for " ++ owner ++ bytes "/"
                     ++ repoName ++ bytes ": " ++ err))
  | FirstPage commits respLastPage =>
      if bool_decide (length commits = O) then (0, None)
      else if 0 <? respLastPage then countAllCommits owner repoName listing
      else countAllCommits owner repoName listing
  end.

(** One repository of the organization for the two programs that only
    count commits: its name and what [ListCommits] answers. *)
Record CountedRepository := {
  GetName : str;
  firstCommitPage : FirstCommitPage;
  commitListing : CommitListing
}.

(** ** The bar-chart program ([main.go], lines 612-958) *)

Module chart.
Record RepoCommitCount := {
  Name : str;
  CommitCount : Z
}.

(** The loop over the repositories (lines 809-829), entered with the
    current [repoCommits] and [maxCommitsValue]. *)
Fixpoint countRepos (organization : str) (repos : list CountedRepository)
    (repoCommits : list RepoCommitCount) (maxCommitsValue : Z)
  : list RepoCommitCount * Z :=
  match repos with
  | [] => (repoCommits, maxCommitsValue)
  | repo :: repos =>
      let repoName := GetName repo in
      if bool_decide (repoName = []) then
        countRepos organization repos repoCommits maxCommitsValue
      else
        match GetRepositoryCommitCount organization repoName
                (firstCommitPage repo) (commitListing repo) with
        | (_, Some _) =>
            countRepos organization repos
              (repoCommits ++ [ {| Name := repoName; CommitCount := -1 |} ])
              maxCommitsValue
        | (commitCount, None) =>
            countRepos organization repos
              (repoCommits
               ++ [ {| Name := repoName; CommitCount := commitCount |} ])
              (if maxCommitsValue <? commitCount then commitCount
               else maxCommitsValue)
        end
  end.

(** The comparison handed to [sort.Slice] (lines 832-841). *)
Definition less (a b : RepoCommitCount) : bool :=
  if CommitCount a =? -1 then false
  else if CommitCount b =? -1 then true
  else CommitCount b <? CommitCount a.

(** Lines 869-879: the label of a bar. *)
Definition displayName (name : str) : str :=
  match strings.IndexAny name (bytes "-_") with
  | Some idx =>
      if (idx + 1 <? length name)%nat then drop (idx + 1) name else name
  | None => name
  end.

(** The loop of lines 861-880, entered with the current [plotValues] and
    [labels]. *)
Fixpoint plotData (repoCommits : list RepoCommitCount)
    (plotValues : list float) (labels : list str) : list float * list str :=
  match repoCommits with
  | [] => (plotValues, labels)
  | rc :: repoCommits =>
      if CommitCount rc <? 0 then plotData repoCommits plotValues labels
      else
        plotData repoCommits
          (plotValues ++ [float64_of_int (CommitCount rc)])
          (labels ++ [displayName (Name rc)])
  end.

(** [vg.Inch]: 72 points. *)
Definition Inch : float := 72%float.

(** Lines 905-911. *)
Definition plotWidth (labels : list str) : float :=
  let plotWidth :=
    (float64_of_int (Z.of_nat (length labels)) * 1.5 * Inch)%float in
  let plotWidth :=
    if (plotWidth <? 6 * Inch)%float then (6 * Inch)%float else plotWidth in
  if (20 * Inch <? plotWidth)%float then (20 * Inch)%float else plotWidth.

(** The loop of lines 943-948, entered with the current
    [totalOrgCommits] and [validRepoCount]. *)
Fixpoint totals (repoCommits : list RepoCommitCount)
    (totalOrgCommits validRepoCount : Z) : Z * Z :=
  match repoCommits with
  | [] => (totalOrgCommits, validRepoCount)
  | rc :: repoCommits =>
      if CommitCount rc =? -1
      then totals repoCommits totalOrgCommits validRepoCount
      else totals repoCommits (totalOrgCommits + CommitCount rc)
             (validRepoCount + 1)
  end.

(** What is handed to the plotting library (lines 883-914). *)
Record BarChart := {
  plotValues : list float;
  labels : list str;
  width : float;
  height : float
}.

(** The branch taken at lines 844-923. *)
Inductive ChartResult :=
| ChartSaved (bars : BarChart)
| NoValidData          (* line 919 *)
| NoCommitsToChart.    (* line 922 *)

(** What the run prints after the chart: the rows of the table (the
    count, or nothing where [ERROR] is printed) and the figures of the
    last lines. *)
Record Report := {
  ranking : list RepoCommitCount;
  chartResult : ChartResult;
  tableRows : list (str * option Z);
  totalOrgCommits : Z;
  validRepoCount : Z;
  avgCommits : option float
}.

Inductive Outcome :=
| NoRepositories         (* line 801 *)
| Fatal                  (* lines 885 and 915 *)
| Finished (report : Report).

Section main.
(** [sort.Slice] with [less]: the slice it leaves.  The sort is not
    stable; its contract is that the slice is a permutation of the one
    given, in which no element is [less] than an earlier one. *)
Variable Slice : list RepoCommitCount → list RepoCommitCount.
(** Whether [plotter.NewBarChart] or [p.Save] returns an error. *)
Variable plotFails : bool.

(** [main] after the repositories are listed (lines 799-958). *)
Definition main (organization : str) (repos : list CountedRepository)
  : Outcome :=
  if bool_decide (length repos = O) then NoRepositories
  else
    let '(repoCommits, maxCommitsValue) :=
      countRepos organization repos [] 0 in
    let repoCommits := Slice repoCommits in
    let chartResult :=
      if (0 <? length repoCommits)%nat && (0 <? maxCommitsValue) then
        let '(plotValues, labels) := plotData repoCommits [] [] in
        if (0 <? length plotValues)%nat then
          if plotFails then None
          else Some (ChartSaved {| plotValues := plotValues;
                                   labels := labels;
                                   width := plotWidth labels;
                                   height := (6 * Inch)%float |})
        else Some NoValidData
      else Some NoCommitsToChart in
    match chartResult with
    | None => Fatal
    | Some chartResult =>
        let '(totalOrgCommits, validRepoCount) := totals repoCommits 0 0 in
        Finished
          {| ranking := repoCommits;
             chartResult := chartResult;
             tableRows :=
               (λ rc, (Name rc,
                       if CommitCount rc =? -1 then None
                       else Some (CommitCount rc))) <$> repoCommits;
             totalOrgCommits := totalOrgCommits;
             validRepoCount := validRepoCount;
             avgCommits :=
               if 0 <? validRepoCount
               then Some (float64_of_int totalOrgCommits
                          / float64_of_int validRepoCount)%float
               else None |}
    end.
End main.
End chart.

(** ** The table program ([unnamed/part_000]) *)

Module table.
(** The loop over the repositories (lines 176-188 of the part), entered
    with the rows printed so far and the current [totalCommits]. *)
Fixpoint countRepos (organization : str) (repos : list CountedRepository)
    (rows : list (str * Z)) (totalCommits : Z) : list (str * Z) * Z :=
  match repos with
  | [] => (rows, totalCommits)
  | repo :: repos =>
      if bool_decide (GetName repo = []) then
        countRepos organization repos rows totalCommits
      else
        match GetRepositoryCommitCount organization (GetName repo)
                (firstCommitPage repo) (commitListing repo) with
        | (_, Some _) => countRepos organization repos rows totalCommits
        | (commitCount, None) =>
            countRepos organization repos
              (rows ++ [(GetName repo, commitCount)])
              (totalCommits + commitCount)
        end
  end.

(** What the run prints: the rows, the total and the average. *)
Record Report := {
  rows : list (str * Z);
  totalCommits : Z;
  avgCommits : option float
}.

(** [main] after the repositories are listed (lines 166-196 of the
    part); [None] is the return of line 168, where nothing is printed. *)
Definition main (organization : str) (repos : list CountedRepository)
  : option Report :=
  if bool_decide (length repos = O) then None
  else
    let '(rows, totalCommits) := countRepos organization repos [] 0 in
    Some {| rows := rows;
            totalCommits := totalCommits;
            avgCommits :=
              if (0 <? length repos)%nat
              then Some (float64_of_int totalCommits
                         / float64_of_int (Z.of_nat (length repos)))%float
              else None |}.
End table.

(** ** Vocabulary of the specification *)

(** The patches the packager reads: the non-empty ones, in order. *)
Definition patches (files : list CommitFile) : list str :=
  filter (λ patch, patch ≠ []) (GetPatch <$> files).

(** The lines of the concatenated per-file patch text. *)
Definition patchLines (files : list CommitFile) : list str :=
  patches files ≫= λ patch, strings.Split patch nl.

(** What a packaged diff is made of: content lines and delimiter lines. *)
Inductive chunk := ContentLine (line : str) | Delimiter.

Definition render (c : chunk) : str :=
  match c with
  | ContentLine line => line ++ [nl]
  | Delimiter => fileSeparator
  end.

Definition renderAll (cs : list chunk) : str := cs ≫= render.

Definition contentLines (cs : list chunk) : list str :=
  omap (λ c, match c with ContentLine line => Some line | Delimiter => None end) cs.

(** The detail requests for the selected SHAs (request number and SHA)
    that are answered with an error, and those answered with a commit. *)
Definition fetchFailures (w : GitHubWorld) (finalSelectedSHAs : list str)
  : list (nat * str) :=
  filter (λ p, ¬ is_Some (GetCommit w p.1 p.2)) (imap pair finalSelectedSHAs).

Definition fetchSuccesses (w : GitHubWorld) (finalSelectedSHAs : list str)
  : list (nat * str) :=
  filter (λ p, is_Some (GetCommit w p.1 p.2)) (imap pair finalSelectedSHAs).

(** Every commit of every page of a listing, and whether the listing ends
    in an error. *)
Fixpoint listedCommits (listing : CommitListing) : list RepositoryCommit :=
  match listing with
  | LastPage commits => commits
  | MorePages commits next => commits ++ listedCommits next
  | ListError _ _ => []
  end.

Fixpoint listingFails (listing : CommitListing) : bool :=
  match listing with
  | LastPage _ => false
  | MorePages _ next => listingFails next
  | ListError _ _ => true
  end.

(** The aggregation formula in the specification's words: the commit
    count is capped as an integer, then the weighted sum is taken. *)
Definition specOverallScore (commitCount technicalScore messageScore : Z)
  : float :=
  (float64_of_int (Z.min commitCount 1000) / 1000 * 10 * 0.2
   + float64_of_int technicalScore * 0.4
   + float64_of_int messageScore * 0.4)%float.

(** [strings.Join]. *)
Fixpoint Join (elems : list str) (sep : str) : str :=
  match elems with
  | [] => []
  | [e] => e
  | e :: elems => e ++ sep ++ Join elems sep
  end.

(** The outcomes of [GetRepositoryCommitAnalysisData], by the path
    taken. *)
Inductive AnalysisOutcome (w : GitHubWorld) (owner repoName : str)
    (n limit : Z) : option (Z * list CommitInfo * option str) → Prop :=
| CountFailed e msg :
    countAllCommits owner repoName (countListing w) = (0, Some e) →
    countErrorIgnored owner repoName 0 e = false →
    AnalysisOutcome w owner repoName n limit (Some (0, [], Some msg))
| CountIgnored e :
    countAllCommits owner repoName (countListing w) = (0, Some e) →
    countErrorIgnored owner repoName 0 e = true →
    AnalysisOutcome w owner repoName n limit (Some (0, [], None))
| NoCommits :
    countAllCommits owner repoName (countListing w) = (0, None) →
    AnalysisOutcome w owner repoName n limit (Some (0, [], None))
| NoSHAs total :
    countAllCommits owner repoName (countListing w) = (total, None) →
    total ≠ 0 →
    (listCommitSHAs_from total n [] (shaListing w) = None
     ∨ listCommitSHAs_from total n [] (shaListing w) = Some []) →
    AnalysisOutcome w owner repoName n limit (Some (total, [], None))
| Sampled total allCommitSHAs sel :
    countAllCommits owner repoName (countListing w) = (total, None) →
    total ≠ 0 →
    listCommitSHAs_from total n [] (shaListing w) = Some allCommitSHAs →
    allCommitSHAs ≠ [] →
    selectSHAs (randInt w) allCommitSHAs n = Some sel →
    AnalysisOutcome w owner repoName n limit
      (Some (total, fetchDetails w limit sel, None))
| Panicked total allCommitSHAs :
    countAllCommits owner repoName (countListing w) = (total, None) →
    total ≠ 0 →
    listCommitSHAs_from total n [] (shaListing w) = Some allCommitSHAs →
    selectSHAs (randInt w) allCommitSHAs n = None →
    AnalysisOutcome w owner repoName n limit None.

(** NaN, and the numbers (zeros included) that are neither NaN nor an
    infinity. *)
Definition SFnan (x : spec_float) : bool :=
  match x with S754_nan => true | _ => false end.

Definition SFfin (x : spec_float) : bool :=
  match x with S754_zero _ | S754_finite _ _ _ => true | _ => false end.

(** The order of a ranking: the overall score of [a] is not below that of
    [b]. *)
Definition scoreNotBelow (a b : RepoScore) : Prop :=
  (OverallScore a <? OverallScore b)%float = false.

(** ** Vocabulary of the further properties *)

(** Every page of a listing holds at most [perPage] commits, as the API
    answers a request made with [PerPage: perPage]. *)
Fixpoint pagesWithin (perPage : nat) (listing : CommitListing) : Prop :=
  match listing with
  | LastPage commits => (length commits ≤ perPage)%nat
  | MorePages commits next =>
      (length commits ≤ perPage)%nat ∧ pagesWithin perPage next
  | ListError _ _ => True
  end.

(** The evaluator call that goes with a recorded result: none for a
    repository recorded without commits or without sampled commits. *)
Definition callOf (rs : RepoScore) : option Event :=
  if (CommitCount rs =? 0) || bool_decide (SampledCommits rs = []) then None
  else Some (GenerateContent (Name rs) (CommitCount rs) (SampledCommits rs)).

(** The error a commit listing ends in, if it ends in one. *)
Fixpoint listingError (listing : CommitListing) : option (option Z * str) :=
  match listing with
  | LastPage _ => None
  | MorePages _ next => listingError next
  | ListError statusCode err => Some (statusCode, err)
  end.

(** Every repository of every page of a listing, and the error the
    listing ends in, if it ends in one. *)
Fixpoint listedRepos {R} (listing : RepoListing R) : list R :=
  match listing with
  | LastRepoPage repos => repos
  | MoreRepoPages repos next => repos ++ listedRepos next
  | RepoListError _ => []
  end.

Fixpoint repoListingError {R} (listing : RepoListing R) : option str :=
  match listing with
  | LastRepoPage _ => None
  | MoreRepoPages _ next => repoListingError next
  | RepoListError err => Some err
  end.

(** The sum of a list of [int]s. *)
Definition sumZ (l : list Z) : Z := foldr Z.add 0 l.

(** What holds of a recorded result. *)
Definition rowInvariant (rs : RepoScore) : Prop :=
  Name rs ≠ []
  ∧ -1 ≤ CommitCount rs
  ∧ AnalyzedCommitsCount rs = Z.of_nat (length (SampledCommits rs))
  ∧ 0 ≤ AnalyzedCommitsCount rs ≤ numRandomCommitsToAnalyze
  ∧ is_nan (OverallScore rs) = false
  ∧ (CommitCount rs ≤ 0 →
     TechnicalScore rs = 0 ∧ MessageScore rs = 0
     ∧ OverallScore rs = 0%float ∧ SampledCommits rs = []).


(** Every commit of a list carries a SHA. *)
Definition allHaveSHA (commits : list RepositoryCommit) : Prop :=
  Forall (λ c, is_Some (CommitSHA c)) commits.
(** ** Worlds used as examples *)

Definition commitOf (sha : string) : RepositoryCommit :=
  {| CommitSHA := Some (bytes sha);
     Commit := Some {| GitMessage := Some (bytes "update") |};
     Files := [ {| Patch := Some (bytes "+line") |} ] |}.

Definition fiveCommits : CommitListing :=
  LastPage [commitOf "a1"; commitOf "b2"; commitOf "c3"; commitOf "d4";
            commitOf "e5"].

(** Five commits; the draws leave the index array as it is; the third
    detail request fails. *)
Definition worldOneFetchFails : GitHubWorld :=
  {| countListing := fiveCommits;
     shaListing := fiveCommits;
     randInt := λ max, max - 1;
     GetCommit := λ i sha,
       if bool_decide (i = 2%nat) then None
       else Some {| CommitSHA := Some sha;
                    Commit := Some {| GitMessage := Some (bytes "update") |};
                    Files := [ {| Patch := Some (bytes "+line") |} ] |} |}.

(** A listing that fails with a server error. *)
Definition worldCountFails : GitHubWorld :=
  {| countListing := ListError (Some 500) (bytes "500 Internal Server Error");
     shaListing := ListError (Some 500) (bytes "500 Internal Server Error");
     randInt := λ max, 0;
     GetCommit := λ _ _, None |}.

(** One commit when counted, three when the SHAs are listed. *)
Definition worldGrowing : GitHubWorld :=
  {| countListing := LastPage [commitOf "a1"];
     shaListing := LastPage [commitOf "c3"; commitOf "b2"; commitOf "a1"];
     randInt := λ max, max - 1;
     GetCommit := λ _ sha, Some (commitOf "a1") |}.

Definition textResponse (text : str) : option GenerateContentResponse :=
  Some {| Candidates :=
            [ {| CandidateContent := Some {| Parts := [Text text] |} |} ] |}.

Definition emptyRepository : Repository :=
  {| RepoName := bytes "empty";
     github := {| countListing := ListError (Some 409)
                                    (bytes "409 Git Repository is empty. []");
                  shaListing := LastPage [];
                  randInt := λ max, 0;
                  GetCommit := λ _ _, None |};
     gemini := textResponse (bytes "{}") |}.

Definition failingRepository : Repository :=
  {| RepoName := bytes "service";
     github := worldCountFails;
     gemini := textResponse (bytes "{}") |}.

Definition growingRepository : Repository :=
  {| RepoName := bytes "busy";
     github := worldGrowing;
     gemini := None |}.

(** A repository whose name contains 409: its commit listing fails with a
    server error (status 500). *)
Definition repository409 : Repository :=
  {| RepoName := bytes "api-v409";
     github := worldCountFails;
     gemini := textResponse (bytes "{}") |}.

(** The evaluator's answer as a JSON object with the two scores. *)
Definition scoreJSON (technical message : string) : str :=
  bytes "{" ++ keyTechnical ++ bytes ": " ++ bytes technical ++ bytes ", "
  ++ keyMessage ++ bytes ": " ++ bytes message ++ bytes "}".

Definition scoredRepository (technical message : string) : Repository :=
  {| RepoName := bytes "repo";
     github := worldOneFetchFails;
     gemini := textResponse (scoreJSON technical message) |}.

Definition namedRepository (name technical message : string) : Repository :=
  {| RepoName := bytes name;
     github := worldOneFetchFails;
     gemini := textResponse (scoreJSON technical message) |}.

(** Five repositories: two of equal score around a better one, an empty
    one and one whose commit count fails. *)
Definition rankedRepositories : list Repository :=
  [ namedRepository "alpha" "3" "4"; namedRepository "beta" "9" "9";
    namedRepository "gamma" "3" "4"; emptyRepository; failingRepository ].

(** The response [{"technical_sophistication": 7}], alone or inside a
    fenced block: the evaluation succeeds with message score 0. *)
Definition onlyTechnical : str := bytes "{" ++ keyTechnical ++ bytes ": 7}".

(** A repository whose five commits are counted and whose SHA listing
    then fails. *)
Definition unlistedRepository : Repository :=
  {| RepoName := bytes "archive";
     github := {| countListing := fiveCommits;
                  shaListing := ListError (Some 502) (bytes "502 Bad Gateway");
                  randInt := λ max, max - 1;
                  GetCommit := λ _ _, None |};
     gemini := None |}.

(** Repositories for the two programs that only count: one of five
    commits, one whose first request fails, one without a name, one that
    is empty (status 409), one of two pages. *)
Definition countedRepositories : list CountedRepository :=
  [ {| GetName := bytes "team-api";
       firstCommitPage := FirstPage [commitOf "e5"] 5;
       commitListing := fiveCommits |};
    {| GetName := bytes "docs";
       firstCommitPage :=
         FirstPageError (Some 500) (bytes "500 Internal Server Error");
       commitListing := fiveCommits |};
    {| GetName := [];
       firstCommitPage := FirstPage [commitOf "a1"] 0;
       commitListing := LastPage [commitOf "a1"] |};
    {| GetName := bytes "empty_";
       firstCommitPage :=
         FirstPageError (Some 409) (bytes "409 Git Repository is empty. []");
       commitListing := LastPage [] |};
    {| GetName := bytes "team_web-client";
       firstCommitPage := FirstPage [commitOf "g7"] 7;
       commitListing :=
         MorePages [commitOf "g7"; commitOf "f6"; commitOf "e5"; commitOf "d4"]
           (LastPage [commitOf "c3"; commitOf "b2"; commitOf "a1"]) |} ].

(** An answer whose object holds a nested object before the second
    score. *)
Definition nestedAnswer : str :=
  bytes "Scores: {" ++ keyTechnical ++ bytes ": 7, "
  ++ dquote :: bytes "detail" ++ [dquote] ++ bytes ": {}, "
  ++ keyMessage ++ bytes ": 8}".

(** Three commits, listed the same when counted and when enumerated;
    every detail request is answered. *)
Definition worldSmall : GitHubWorld :=
  {| countListing :=
       MorePages [commitOf "c3"; commitOf "b2"] (LastPage [commitOf "a1"]);
     shaListing :=
       MorePages [commitOf "c3"; commitOf "b2"] (LastPage [commitOf "a1"]);
     randInt := λ max, 0;
     GetCommit := λ _ sha,
       Some {| CommitSHA := Some sha;
               Commit := Some {| GitMessage := Some (bytes "update") |};
               Files := [ {| Patch := Some (bytes "+line") |} ] |} |}.

(** * Properties *)

Section SamplerFacts.
Variable randInt : Z → Z.
Hypothesis randInt_range : ∀ max, 0 < max → 0 ≤ randInt max < max.

Lemma swap_perm indices i j indices' :
  swap indices i j = Some indices' → indices' ≡ₚ indices.
Proof.
  unfold swap. intros H.
  destruct (indices !! i) as [xi|] eqn:Hi; [|done].
  destruct (indices !! j) as [xj|] eqn:Hj; [|done].
  simpl in H. injection H as <-.
  by apply Permutation_insert_swap.
Qed.

Lemma swap_defined indices i j :
  (i < length indices)%nat → (j < length indices)%nat →
  is_Some (swap indices i j).
Proof.
  intros Hi Hj. unfold swap.
  destruct (lookup_lt_is_Some_2 indices i Hi) as [xi ->].
  destruct (lookup_lt_is_Some_2 indices j Hj) as [xj ->].
  by eexists.
Qed.

Lemma shuffle_perm i indices :
  (i < length indices)%nat ∨ i = O →
  ∃ indices', shuffle randInt i indices = Some indices' ∧ indices' ≡ₚ indices.
Proof.
  revert indices. induction i as [|i IH]; intros indices Hi.
  { by exists indices. }
  destruct Hi as [Hi|]; [|done].
  simpl shuffle.
  pose proof (randInt_range (Z.of_nat (S i) + 1)) as Hj.
  destruct (Z.ltb_spec (randInt (Z.of_nat (S i) + 1)) 0); [lia|].
  destruct (swap_defined indices (S i)
              (Z.to_nat (randInt (Z.of_nat (S i) + 1)))) as [ind1 Hsw];
    [lia..|].
  rewrite Hsw. simpl.
  pose proof (swap_perm _ _ _ _ Hsw) as Hp.
  destruct (IH ind1) as (ind2 & Hs & Hp2).
  { left. rewrite Hp. lia. }
  exists ind2. split; [done|]. by rewrite Hp2.
Qed.

Lemma mapM_lookup_seq {A} (l : list A) m :
  (m ≤ length l)%nat → mapM (λ i, l !! i) (seq 0 m) = Some (take m l).
Proof.
  intros Hm. apply mapM_Some.
  apply Forall2_same_length_lookup_2.
  { rewrite length_seq, length_take. lia. }
  intros i x y Hx Hy.
  apply lookup_seq in Hx as [-> Hi]. simpl.
  rewrite lookup_take_lt in Hy by done. done.
Qed.

Lemma numToSelect_min (allCommitSHAs : list str) k :
  0 ≤ k →
  Z.to_nat (numToSelect allCommitSHAs k)
  = Nat.min (Z.to_nat k) (length allCommitSHAs).
Proof. intros Hk. unfold numToSelect. case_match; lia. Qed.

Lemma selectedIndices_spec (allCommitSHAs : list str) k :
  0 ≤ k →
  ∃ indices,
    shuffle randInt (length allCommitSHAs - 1) (seq 0 (length allCommitSHAs))
    = Some indices ∧
    indices ≡ₚ seq 0 (length allCommitSHAs) ∧
    selectedIndices randInt allCommitSHAs k
    = Some (take (Nat.min (Z.to_nat k) (length allCommitSHAs)) indices).
Proof.
  intros Hk. unfold selectedIndices.
  destruct (shuffle_perm (length allCommitSHAs - 1)
              (seq 0 (length allCommitSHAs))) as (indices & Hsh & Hp).
  { rewrite length_seq. lia. }
  exists indices. rewrite Hsh. split_and!; [done..|]. simpl.
  rewrite numToSelect_min by done.
  apply mapM_lookup_seq.
  rewrite Hp, length_seq. lia.
Qed.

Lemma selectSHAs_defined (allCommitSHAs : list str) k :
  0 ≤ k → is_Some (selectSHAs randInt allCommitSHAs k).
Proof.
  intros Hk.
  destruct (selectedIndices_spec allCommitSHAs k Hk) as (indices & _ & Hp & Hidx).
  unfold selectSHAs. rewrite Hidx. simpl.
  apply mapM_is_Some, Forall_take, Forall_forall. intros i Hi.
  apply lookup_lt_is_Some_2.
  rewrite Hp in Hi. apply elem_of_seq in Hi. lia.
Qed.

(** C1.  For every population of [n] identifiers and every sample size
    [k >= 0], under the contract of [rand.Int] (a draw below the bound),
    the shuffle leaves a permutation of the index array [0, n); the
    sampler returns the identifiers at its first [min k n] entries:
    exactly [min k n] of them, read at pairwise distinct in-range
    positions, hence all members of the population and pairwise distinct
    whenever the population's identifiers are; an empty population gives
    an empty sample and no panic. *)
Theorem C1_sampler_distinct_sample (allCommitSHAs : list str) (k : Z) :
  0 ≤ k →
  ∃ indices idx sel,
    shuffle randInt (length allCommitSHAs - 1) (seq 0 (length allCommitSHAs))
    = Some indices ∧
    indices ≡ₚ seq 0 (length allCommitSHAs) ∧
    idx = take (Nat.min (Z.to_nat k) (length allCommitSHAs)) indices ∧
    selectedIndices randInt allCommitSHAs k = Some idx ∧
    selectSHAs randInt allCommitSHAs k = Some sel ∧
    length sel = Nat.min (Z.to_nat k) (length allCommitSHAs) ∧
    NoDup idx ∧
    Forall (λ i, (i < length allCommitSHAs)%nat) idx ∧
    Forall2 (λ i sha, allCommitSHAs !! i = Some sha) idx sel ∧
    Forall (λ sha, sha ∈ allCommitSHAs) sel ∧
    (NoDup allCommitSHAs → NoDup sel) ∧
    (allCommitSHAs = [] → sel = []).
Proof.
  intros Hk.
  destruct (selectedIndices_spec allCommitSHAs k Hk)
    as (indices & Hsh & Hp & Hidx).
  set (m := Nat.min (Z.to_nat k) (length allCommitSHAs)) in *.
  set (idx := take m indices) in *.
  assert (NoDup idx) as Hnd.
  { eapply sublist_NoDup; [|apply sublist_take]. rewrite Hp. apply NoDup_seq. }
  assert (Forall (λ i, (i < length allCommitSHAs)%nat) idx) as Hlt.
  { apply Forall_take, Forall_forall. intros i Hi.
    rewrite Hp in Hi. apply elem_of_seq in Hi. lia. }
  assert (is_Some (mapM (λ i, allCommitSHAs !! i) idx)) as [sel Hsel].
  { apply mapM_is_Some. eapply Forall_impl; [exact Hlt|].
    intros i Hi. by apply lookup_lt_is_Some_2. }
  exists indices, idx, sel. unfold selectSHAs. rewrite Hidx. simpl.
  pose proof Hsel as HF. apply mapM_Some in HF.
  split_and!; try done.
  - rewrite <- (Forall2_length _ _ _ HF). subst idx.
    rewrite length_take, Hp, length_seq. lia.
  - apply Forall_forall. intros sha Hin.
    apply list_elem_of_lookup in Hin as [a Ha].
    destruct (Forall2_lookup_r _ _ _ _ _ HF Ha) as (i & _ & Hi).
    by eapply list_elem_of_lookup_2.
  - intros Hall. apply NoDup_alt. intros a b sha Ha Hb.
    destruct (Forall2_lookup_r _ _ _ _ _ HF Ha) as (i & Hia & Hi).
    destruct (Forall2_lookup_r _ _ _ _ _ HF Hb) as (j & Hjb & Hj).
    assert (i = j) as -> by (eapply NoDup_lookup; eauto).
    exact (NoDup_lookup idx a b j Hnd Hia Hjb).
  - intros ->. apply Forall2_length in HF.
    subst idx m. rewrite length_take in HF. simpl in HF.
    destruct sel; [done|]. simpl in HF. lia.
Qed.
End SamplerFacts.

(** The sampler run on four identifiers with the draws [j = 0], for a
    sample of two. *)
Lemma C1_sampler_distinct_sample_witness :
  let population := [bytes "a1"; bytes "b2"; bytes "c3"; bytes "d4"] in
  ∃ indices idx sel,
    shuffle (λ max, 0) 3 (seq 0 4) = Some indices ∧
    indices ≡ₚ seq 0 4 ∧
    idx = take (Nat.min (Z.to_nat 2) 4) indices ∧
    selectedIndices (λ max, 0) population 2 = Some idx ∧
    selectSHAs (λ max, 0) population 2 = Some sel ∧
    length sel = Nat.min (Z.to_nat 2) 4 ∧
    NoDup idx ∧
    Forall (λ i, (i < 4)%nat) idx ∧
    Forall2 (λ i sha, population !! i = Some sha) idx sel ∧
    Forall (λ sha, sha ∈ population) sel ∧
    (NoDup population → NoDup sel) ∧
    (population = [] → sel = []).
Proof.
  intros population.
  apply (C1_sampler_distinct_sample (λ max, 0)
           ltac:(intros; lia) population 2).
  lia.
Defined.

Example sampler_run :
  selectSHAs (λ max, 0) [bytes "a1"; bytes "b2"; bytes "c3"; bytes "d4"] 2
  = Some [bytes "b2"; bytes "c3"].
Proof. reflexivity. Qed.

(** ** The diff packager *)

Section DiffPackagerFacts.
Variable M : Z.

Lemma writePatchLines_all lines b cur :
  cur + Z.of_nat (length lines) ≤ M →
  writePatchLines M lines b cur
  = (b ++ renderAll (ContentLine <$> lines),
     cur + Z.of_nat (length lines), false).
Proof.
  revert b cur. induction lines as [|line lines IH]; intros b cur Hle.
  { simpl. by rewrite app_nil_r, Z.add_0_r. }
  simpl writePatchLines.
  rewrite length_cons in Hle.
  destruct (Z.leb_spec M cur); [lia|].
  rewrite IH by lia. unfold renderAll. simpl.
  rewrite <- !app_assoc. do 2 f_equal. lia.
Qed.

Lemma writePatchLines_truncated lines b cur :
  cur ≤ M < cur + Z.of_nat (length lines) →
  writePatchLines M lines b cur
  = (b ++ renderAll (ContentLine <$> take (Z.to_nat (M - cur)) lines)
       ++ truncationMarker, M, true).
Proof.
  revert b cur. induction lines as [|line lines IH]; intros b cur Hle.
  { simpl in Hle. lia. }
  simpl writePatchLines.
  rewrite length_cons in Hle.
  destruct (Z.leb_spec M cur).
  - assert (cur = M) as -> by lia.
    by rewrite Z.sub_diag.
  - rewrite IH by lia.
    replace (Z.to_nat (M - cur)) with (S (Z.to_nat (M - (cur + 1)))) by lia.
    unfold renderAll. simpl. by rewrite <- !app_assoc.
Qed.

Lemma patchLines_cons file files :
  patchLines (file :: files)
  = (if bool_decide (GetPatch file = []) then []
     else strings.Split (GetPatch file) nl) ++ patchLines files.
Proof.
  unfold patchLines, patches. simpl.
  rewrite filter_cons. case_bool_decide as Hp.
  - rewrite decide_False by (intros H; by apply H). done.
  - rewrite decide_True by done. done.
Qed.

(** Past the limit the packager stops at the marker: the content written
    is the next [M - cur] lines of the remaining files. *)
Lemma writeFiles_truncated files b cur :
  0 < M → cur ≤ M < cur + Z.of_nat (length (patchLines files)) →
  ∃ cs, writeFiles M files b cur = b ++ renderAll cs ++ truncationMarker
        ∧ contentLines cs = take (Z.to_nat (M - cur)) (patchLines files).
Proof.
  intros HM. revert b cur.
  induction files as [|file files IH]; intros b cur Hcur.
  { simpl in Hcur. lia. }
  rewrite patchLines_cons in Hcur |- *. simpl writeFiles.
  case_bool_decide as Hp.
  { simpl in *. by apply IH. }
  destruct (Z.ltb_spec 0 M); [|lia].
  set (lines := strings.Split (GetPatch file) nl) in *.
  rewrite length_app in Hcur.
  destruct (Z.le_gt_cases (cur + Z.of_nat (length lines)) M) as [Hfit|Hcut].
  - rewrite writePatchLines_all by done.
    set (cur' := cur + Z.of_nat (length lines)).
    set (sep := if cur' <? M then [Delimiter] else []).
    destruct (IH ((b ++ renderAll (ContentLine <$> lines)) ++ renderAll sep)
                cur') as (cs & Hw & Hcs).
    { subst cur'. lia. }
    exists ((ContentLine <$> lines) ++ sep ++ cs). split.
    + replace (if cur' <? M
               then (b ++ renderAll (ContentLine <$> lines)) ++ fileSeparator
               else b ++ renderAll (ContentLine <$> lines))
        with ((b ++ renderAll (ContentLine <$> lines)) ++ renderAll sep).
      2:{ subst sep. destruct (cur' <? M); unfold renderAll; simpl;
          by rewrite ?app_nil_r. }
      rewrite Hw. unfold renderAll.
      rewrite !bind_app, <- !app_assoc. done.
    + unfold contentLines in *. rewrite !omap_app, Hcs.
      replace (omap _ (ContentLine <$> lines)) with lines.
      2:{ clear. induction lines as [|l ls IHl]; [done|]. simpl. by f_equal. }
      replace (omap _ sep) with (@nil str).
      2:{ subst sep. by destruct (cur' <? M). }
      simpl. rewrite take_app_ge by lia.
      do 2 f_equal. subst cur'. lia.
  - rewrite writePatchLines_truncated by lia.
    exists (ContentLine <$> take (Z.to_nat (M - cur)) lines). split.
    + done.
    + rewrite take_app_le by lia.
      unfold contentLines. generalize (take (Z.to_nat (M - cur)) lines).
      clear. intros ls. induction ls as [|l ls IHl]; [done|]. simpl. by f_equal.
Qed.

(** Without a positive limit every patch is written in full, each
    followed by the separator. *)
Lemma writeFiles_unlimited files b cur :
  M ≤ 0 →
  writeFiles M files b cur
  = b ++ (patches files ≫= λ patch, patch ++ patchSeparator).
Proof.
  intros HM. revert b.
  induction files as [|file files IH]; intros b.
  { simpl. by rewrite app_nil_r. }
  simpl writeFiles. unfold patches in *. simpl. rewrite filter_cons.
  case_bool_decide as Hp.
  { rewrite decide_False by (intros H; by apply H). apply IH. }
  rewrite decide_True by done.
  destruct (Z.ltb_spec 0 M); [lia|].
  rewrite IH. simpl. by rewrite <- !app_assoc.
Qed.
End DiffPackagerFacts.

Lemma HasSuffix_app s suffix : strings.HasSuffix (s ++ suffix) suffix = true.
Proof.
  unfold strings.HasSuffix. rewrite length_app.
  apply andb_true_iff. split; [apply Nat.leb_le; lia|].
  apply bool_decide_eq_true.
  replace (length s + length suffix - length suffix)%nat with (length s) by lia.
  apply drop_app_length.
Qed.

Lemma TrimSuffix_app s suffix : strings.TrimSuffix (s ++ suffix) suffix = s.
Proof.
  unfold strings.TrimSuffix. rewrite HasSuffix_app, length_app.
  replace (length s + length suffix - length suffix)%nat with (length s) by lia.
  apply take_app_length.
Qed.

Lemma TrimSuffix_marker s :
  strings.TrimSuffix (s ++ truncationMarker) patchSeparator
  = s ++ truncationMarker.
Proof.
  unfold strings.TrimSuffix, strings.HasSuffix. rewrite length_app.
  rewrite drop_app_ge by (cbn; lia).
  replace (length s + length truncationMarker - length patchSeparator
           - length s)%nat
    with (length truncationMarker - length patchSeparator)%nat by lia.
  rewrite bool_decide_eq_false_2; [by rewrite andb_false_r|].
  vm_compute. discriminate.
Qed.

Lemma TrimSuffix_joined ps :
  strings.TrimSuffix (ps ≫= λ patch, patch ++ patchSeparator) patchSeparator
  = Join ps patchSeparator.
Proof.
  destruct ps as [|p ps]; [done|].
  replace ((p :: ps) ≫= λ patch, patch ++ patchSeparator)
    with (Join (p :: ps) patchSeparator ++ patchSeparator).
  { apply TrimSuffix_app. }
  revert p. induction ps as [|q ps IH]; intros p.
  { simpl. by rewrite app_nil_r. }
  change (Join (p :: q :: ps) patchSeparator)
    with (p ++ patchSeparator ++ Join (q :: ps) patchSeparator).
  rewrite <- !app_assoc, IH. simpl. by rewrite <- !app_assoc.
Qed.

(** C2.  When the concatenated patch text has more lines than a positive
    limit [M], the packaged diff is made of content lines and delimiter
    lines followed by the truncation marker, and its content lines are
    exactly the first [M] lines of the text: nothing past line [M], of
    this file or of a later one, is in it.  When the limit is not
    positive, the packaged diff is every patch in full, joined by the
    separator: nothing is truncated. *)
Theorem C2_diff_truncation (files : list CommitFile) (M : Z) :
  (0 < M < Z.of_nat (length (patchLines files)) →
   ∃ cs, packageDiff M files = renderAll cs ++ truncationMarker
         ∧ contentLines cs = take (Z.to_nat M) (patchLines files)
         ∧ length (contentLines cs) = Z.to_nat M)
  ∧ (M ≤ 0 → packageDiff M files = Join (patches files) patchSeparator).
Proof.
  split.
  - intros HM. unfold packageDiff.
    destruct (writeFiles_truncated M files [] 0) as (cs & Hw & Hcs); [lia..|].
    exists cs. rewrite Hw. simpl. rewrite TrimSuffix_marker.
    rewrite Z.sub_0_r in Hcs. split_and!; [done..|].
    rewrite Hcs, length_take. lia.
  - intros HM. unfold packageDiff.
    rewrite writeFiles_unlimited by done. simpl.
    apply TrimSuffix_joined.
Qed.

(** Two files of three and one lines, packaged under the limits 2 and 0. *)
Lemma C2_diff_truncation_witness :
  let files := [ {| Patch := Some (bytes "a" ++ [nl] ++ bytes "b" ++ [nl] ++ bytes "c") |};
                 {| Patch := None |};
                 {| Patch := Some (bytes "d") |} ] in
  (∃ cs, packageDiff 2 files = renderAll cs ++ truncationMarker
         ∧ contentLines cs = take 2 (patchLines files)
         ∧ length (contentLines cs) = 2%nat)
  ∧ packageDiff 0 files = Join (patches files) patchSeparator.
Proof.
  intros files. split.
  - apply (proj1 (C2_diff_truncation files 2)). vm_compute. split; reflexivity.
  - apply (proj2 (C2_diff_truncation files 0)). lia.
Defined.

Example packageDiff_truncated :
  packageDiff 2
    [ {| Patch := Some (bytes "a" ++ [nl] ++ bytes "b" ++ [nl] ++ bytes "c") |} ]
  = bytes "a" ++ [nl] ++ bytes "b" ++ [nl] ++ truncationMarker.
Proof. reflexivity. Qed.

Example packageDiff_within_limit :
  packageDiff 100 [ {| Patch := Some (bytes "a") |}; {| Patch := None |};
                    {| Patch := Some (bytes "b") |} ]
  = bytes "a" ++ [nl] ++ bytes "---" ++ [nl] ++ bytes "b".
Proof. reflexivity. Qed.

(** ** [GetRepositoryCommitAnalysisData] *)

Lemma length_omap_le {A B} (f : A → option B) (l : list A) :
  (length (omap f l) ≤ length l)%nat.
Proof.
  induction l as [|x l IH]; [done|].
  change (omap f (x :: l))
    with (match f x with Some y => y :: omap f l | None => omap f l end).
  destruct (f x); simpl; lia.
Qed.

Lemma omap_filter_split {A B} (f : A → option B) (l : list A) :
  (length (omap f l) + length (filter (λ x, ¬ is_Some (f x)) l)
   = length l)%nat.
Proof.
  induction l as [|x l IH]; [done|].
  change (omap f (x :: l))
    with (match f x with Some y => y :: omap f l | None => omap f l end).
  rewrite filter_cons.
  destruct (f x) as [y|] eqn:Hx.
  - rewrite decide_False; [simpl; lia|]. intros H. apply H. by eexists.
  - rewrite decide_True; [simpl; lia|]. by intros [? ?].
Qed.

Lemma countAllCommits_from_spec owner repoName acc listing :
  countAllCommits_from owner repoName acc listing
  = if listingFails listing
    then (0, (countAllCommits_from owner repoName acc listing).2)
    else (acc + Z.of_nat (length (listedCommits listing)), None).
Proof.
  revert acc. induction listing as [commits|commits next IH|status err];
    intros acc; simpl.
  - done.
  - rewrite IH. destruct (listingFails next); [done|].
    rewrite length_app. f_equal. lia.
  - by case_bool_decide.
Qed.

(** A count other than 0 is the number of commits of an error-free
    listing. *)
Lemma countAllCommits_nonzero owner repoName listing total err :
  countAllCommits owner repoName listing = (total, err) → total ≠ 0 →
  err = None ∧ total = Z.of_nat (length (listedCommits listing)).
Proof.
  unfold countAllCommits. rewrite countAllCommits_from_spec.
  destruct (listingFails listing); intros [= <- <-] Hne; [done|].
  split; [done|lia].
Qed.

Lemma countAllCommits_error owner repoName listing total e :
  countAllCommits owner repoName listing = (total, Some e) → total = 0.
Proof.
  intros H. destruct (decide (total = 0)) as [|Hne]; [done|].
  by destruct (countAllCommits_nonzero _ _ _ _ _ H Hne).
Qed.

Lemma length_pageSHAs commitsPage :
  (length (pageSHAs commitsPage) ≤ length commitsPage)%nat.
Proof. apply length_omap_le. Qed.

(** The SHA enumeration collects no more SHAs than its listing has
    commits. *)
Lemma listCommitSHAs_from_length total n acc listing allCommitSHAs :
  listCommitSHAs_from total n acc listing = Some allCommitSHAs →
  (length allCommitSHAs ≤ length acc + length (listedCommits listing))%nat.
Proof.
  revert acc. induction listing as [commits|commits next IH|status err];
    intros acc; simpl.
  - intros [= <-]. rewrite length_app. pose proof (length_pageSHAs commits). lia.
  - pose proof (length_pageSHAs commits) as Hp.
    destruct (_ <=? _).
    { intros [= <-]. rewrite !length_app. lia. }
    destruct (_ && _).
    { intros [= <-]. rewrite !length_app. lia. }
    intros H. apply IH in H. rewrite !length_app in *. lia.
  - done.
Qed.

Lemma selectSHAs_length rnd allCommitSHAs k sel :
  selectSHAs rnd allCommitSHAs k = Some sel →
  length sel = Z.to_nat (numToSelect allCommitSHAs k).
Proof.
  unfold selectSHAs, selectedIndices. intros H.
  destruct (shuffle _ _ _) as [indices|]; [|done]. simpl in H.
  destruct (mapM _ (seq _ _)) as [idx|] eqn:Hidx; [|done]. simpl in H.
  apply length_mapM in H, Hidx. rewrite length_seq in Hidx. lia.
Qed.

Lemma GetRepositoryCommitAnalysisData_outcome w owner repoName n limit :
  AnalysisOutcome w owner repoName n limit
    (GetRepositoryCommitAnalysisData w owner repoName n limit).
Proof.
  unfold GetRepositoryCommitAnalysisData.
  destruct (countAllCommits owner repoName (countListing w))
    as [total [e|]] eqn:Hcount.
  - pose proof (countAllCommits_error _ _ _ _ _ Hcount) as ->.
    destruct (countErrorIgnored owner repoName 0 e) eqn:Hig.
    + simpl. by eapply CountIgnored.
    + by eapply CountFailed.
  - destruct (Z.eqb_spec total 0) as [->|Hne].
    { by apply NoCommits. }
    destruct (listCommitSHAs_from total n [] (shaListing w))
      as [allCommitSHAs|] eqn:Hshas.
    2:{ eapply NoSHAs; eauto. }
    case_bool_decide as Hlen.
    { destruct allCommitSHAs; [|done]. eapply NoSHAs; eauto. }
    destruct (selectSHAs (randInt w) allCommitSHAs n) as [sel|] eqn:Hsel; simpl.
    + eapply Sampled; eauto. by intros ->.
    + eapply Panicked; eauto.
Qed.

(** ** The loop of [main] *)

(** What a recorded result is, by the path [processRepo] took. *)
Lemma processRepo_inv organization repo rs calls :
  processRepo organization repo = Some (Some rs, calls) →
  RepoName repo ≠ [] ∧
  ∃ total sampled err,
    GetRepositoryCommitAnalysisData (github repo) organization (RepoName repo)
      numRandomCommitsToAnalyze diffLinesLimit = Some (total, sampled, err) ∧
    match err with
    | Some _ => rs = emptyScore (RepoName repo) (-1) ∧ calls = []
    | None =>
        if total =? 0 then rs = emptyScore (RepoName repo) 0 ∧ calls = []
        else
          ∃ geminiEval,
            AnalyzeCommitsWithGemini (gemini repo) (RepoName repo) total sampled
            = (calls, geminiEval) ∧
            Name rs = RepoName repo ∧ CommitCount rs = total ∧
            AnalyzedCommitsCount rs = Z.of_nat (length sampled) ∧
            SampledCommits rs = sampled ∧
            match geminiEval with
            | Ok score =>
                TechnicalScore rs = TechnicalSophistication score ∧
                MessageScore rs = MessageAppropriateness score ∧
                OverallScore rs = overallScore total score
            | Err _ =>
                TechnicalScore rs = 0 ∧ MessageScore rs = 0 ∧
                OverallScore rs = 0%float
            end
    end.
Proof.
  unfold processRepo. case_bool_decide as Hname; [done|].
  destruct (GetRepositoryCommitAnalysisData _ _ _ _ _)
    as [[[total sampled] err]|]; [|done].
  simpl. intros H. split; [done|].
  exists total, sampled, err. split; [done|].
  destruct err as [e|].
  { by injection H as <- <-. }
  destruct (total =? 0).
  { by injection H as <- <-. }
  destruct (AnalyzeCommitsWithGemini _ _ _ _) as [calls' [score|e]];
    injection H as <- <-; eexists; (split; [done|]); by split_and!.
Qed.

(** The commits packaged for a repository are at most as many as the
    sample size and as the SHAs that were enumerated. *)
Lemma analysis_sample_size w owner repoName n limit total sampled err :
  0 ≤ n →
  GetRepositoryCommitAnalysisData w owner repoName n limit
  = Some (total, sampled, err) →
  Z.of_nat (length sampled) ≤ n ∧
  (err = None → total ≠ 0 → shaListing w = countListing w →
   Z.of_nat (length sampled) ≤ total).
Proof.
  intros Hn Hres.
  pose proof (GetRepositoryCommitAnalysisData_outcome w owner repoName n limit)
    as Hout.
  rewrite Hres in Hout.
  inversion Hout as [e msg Hc Hig|e Hc Hig|Hc|tot Hc Hne Hs
                     |tot allCommitSHAs sel Hc Hne Hs Hnil Hsel|];
    subst; simpl; try (split; [lia|by intros]).
  { destruct (countAllCommits_nonzero _ _ _ _ _ Hc Hne) as [_ ->].
    split; [lia|]. intros; lia. }
  pose proof (selectSHAs_length _ _ _ _ Hsel) as Hlen.
  pose proof (length_omap_le
    (λ '(i, sha), packageCommit limit sha <$> GetCommit w i sha)
    (imap pair sel)) as Hle.
  rewrite length_imap in Hle. fold (fetchDetails w limit sel) in Hle.
  assert (length sel ≤ Z.to_nat n ∧ length sel ≤ length allCommitSHAs)%nat
    as [Hk Hall].
  { rewrite Hlen. unfold numToSelect. case_match; lia. }
  split; [lia|]. intros _ _ Hstable.
  rewrite Hstable in Hs.
  apply listCommitSHAs_from_length in Hs. simpl in Hs.
  destruct (countAllCommits_nonzero _ _ _ _ _ Hc Hne) as [_ ->]. lia.
Qed.

(** The commit count returned is never negative. *)
Lemma analysis_count_nonneg w owner repoName n limit total sampled err :
  GetRepositoryCommitAnalysisData w owner repoName n limit
  = Some (total, sampled, err) →
  0 ≤ total.
Proof.
  intros Hres.
  pose proof (GetRepositoryCommitAnalysisData_outcome w owner repoName n limit)
    as Hout.
  rewrite Hres in Hout.
  inversion Hout as [| | |tot Hc Hne _|tot a b Hc Hne _ _ _|]; subst;
    try done;
    destruct (countAllCommits_nonzero _ _ _ _ _ Hc Hne) as [_ ->]; lia.
Qed.

(** ** C7: a failed detail fetch *)

Lemma omap_filter_fmap {A B C} (f : A → option B) (g : B → C) (h : A → C)
    (l : list A) :
  (∀ x y, f x = Some y → g y = h x) →
  g <$> omap f l = h <$> filter (λ x, is_Some (f x)) l.
Proof.
  intros Hgh. induction l as [|x l IH]; [done|].
  change (omap f (x :: l))
    with (match f x with Some y => y :: omap f l | None => omap f l end).
  rewrite filter_cons.
  destruct (f x) as [y|] eqn:Hx.
  - rewrite decide_True by by eexists.
    rewrite !fmap_cons, IH. f_equal. by apply Hgh.
  - rewrite decide_False by by intros [??]. done.
Qed.

Lemma fetchDetails_SHAs w limit sel :
  SHA <$> fetchDetails w limit sel = snd <$> fetchSuccesses w sel.
Proof.
  unfold fetchDetails, fetchSuccesses.
  rewrite (omap_filter_fmap _ SHA snd).
  - f_equal. apply list_filter_iff. intros [i sha]. simpl.
    by rewrite fmap_is_Some.
  - intros [i sha] c. simpl.
    destruct (GetCommit w i sha); simpl; [|done]. by intros [= <-].
Qed.

Lemma fetchDetails_length w limit sel :
  (length (fetchDetails w limit sel) + length (fetchFailures w sel)
   = length sel)%nat.
Proof.
  unfold fetchDetails, fetchFailures.
  pose proof (omap_filter_split
    (λ '(i, sha), packageCommit limit sha <$> GetCommit w i sha)
    (imap pair sel)) as H.
  rewrite length_imap in H. rewrite <- H.
  do 2 f_equal. apply list_filter_iff. intros [i sha]. simpl.
  by rewrite fmap_is_Some.
Qed.

(** C7.  Once the SHAs are selected, [GetRepositoryCommitAnalysisData]
    returns without error whatever the detail requests answer; the
    packaged commits are those of the requests that succeeded, in order,
    a failed request removing its commit only; with five selected SHAs
    and one failed request four commits are packaged. *)
Theorem C7_fetch_failure_skips w owner repoName n limit total allCommitSHAs sel :
  countAllCommits owner repoName (countListing w) = (total, None) →
  total ≠ 0 →
  listCommitSHAs_from total n [] (shaListing w) = Some allCommitSHAs →
  allCommitSHAs ≠ [] →
  selectSHAs (randInt w) allCommitSHAs n = Some sel →
  GetRepositoryCommitAnalysisData w owner repoName n limit
  = Some (total, fetchDetails w limit sel, None)
  ∧ SHA <$> fetchDetails w limit sel = snd <$> fetchSuccesses w sel
  ∧ (length (fetchDetails w limit sel) + length (fetchFailures w sel)
     = length sel)%nat
  ∧ (length sel = 5%nat → length (fetchFailures w sel) = 1%nat →
     length (fetchDetails w limit sel) = 4%nat).
Proof.
  intros Hc Hne Hs Hnil Hsel. split_and!.
  - unfold GetRepositoryCommitAnalysisData. rewrite Hc.
    destruct (Z.eqb_spec total 0); [done|].
    rewrite Hs. rewrite bool_decide_eq_false_2.
    2:{ by destruct allCommitSHAs. }
    by rewrite Hsel.
  - apply fetchDetails_SHAs.
  - apply fetchDetails_length.
  - pose proof (fetchDetails_length w limit sel). lia.
Qed.

Lemma C7_fetch_failure_skips_witness :
  let sel := [bytes "a1"; bytes "b2"; bytes "c3"; bytes "d4"; bytes "e5"] in
  GetRepositoryCommitAnalysisData worldOneFetchFails (bytes "org") (bytes "repo")
    5 100
  = Some (5, fetchDetails worldOneFetchFails 100 sel, None)
  ∧ SHA <$> fetchDetails worldOneFetchFails 100 sel
    = snd <$> fetchSuccesses worldOneFetchFails sel
  ∧ (length (fetchDetails worldOneFetchFails 100 sel)
     + length (fetchFailures worldOneFetchFails sel) = length sel)%nat
  ∧ (length sel = 5%nat → length (fetchFailures worldOneFetchFails sel) = 1%nat →
     length (fetchDetails worldOneFetchFails 100 sel) = 4%nat).
Proof.
  intros sel.
  apply (C7_fetch_failure_skips worldOneFetchFails (bytes "org") (bytes "repo")
           5 100 5 sel sel); vm_compute; first [reflexivity | discriminate].
Defined.

(** ** C4: repositories without commits *)

(** C4.  A named repository whose commits are counted as 0 is recorded
    with commit count, technical score, message score, overall score and
    analyzed count all 0, and no call of the evaluator is made for it;
    and whenever a recorded result has commit count 0, those fields are 0
    and no evaluator call was made. *)
Theorem C4_zero_commits_short_circuit organization repo :
  RepoName repo ≠ [] →
  (countAllCommits organization (RepoName repo) (countListing (github repo))
   = (0, None) →
   processRepo organization repo
   = Some (Some (emptyScore (RepoName repo) 0), []))
  ∧ (∀ rs calls,
       processRepo organization repo = Some (Some rs, calls) →
       CommitCount rs = 0 →
       OverallScore rs = 0%float ∧ TechnicalScore rs = 0 ∧ MessageScore rs = 0
       ∧ AnalyzedCommitsCount rs = 0 ∧ calls = []).
Proof.
  intros Hname. split.
  - intros Hc. unfold processRepo, GetRepositoryCommitAnalysisData.
    rewrite bool_decide_eq_false_2 by done. by rewrite Hc.
  - intros rs calls Hp Hcc.
    apply processRepo_inv in Hp as (_ & total & sampled & err & _ & Hrs).
    destruct err as [e|].
    { destruct Hrs as [-> _]. done. }
    destruct (Z.eqb_spec total 0) as [->|Hne].
    { by destruct Hrs as [-> ->]. }
    destruct Hrs as (ev & _ & _ & Htot & _). congruence.
Qed.

Lemma C4_zero_commits_short_circuit_witness :
  processRepo (bytes "org") emptyRepository
  = Some (Some (emptyScore (bytes "empty") 0), [])
  ∧ (∀ rs calls,
       processRepo (bytes "org") emptyRepository = Some (Some rs, calls) →
       CommitCount rs = 0 →
       OverallScore rs = 0%float ∧ TechnicalScore rs = 0 ∧ MessageScore rs = 0
       ∧ AnalyzedCommitsCount rs = 0 ∧ calls = []).
Proof.
  destruct (C4_zero_commits_short_circuit (bytes "org") emptyRepository)
    as [H1 H2]; [discriminate|].
  split; [apply H1; reflexivity | exact H2].
Defined.

(** ** C9: the analyzed count *)

(** A repository whose commit count fails is recorded with commit count
    -1 and analyzed count 0, which is above [min 5 (-1)]; and one that
    gains commits between the count and the SHA enumeration is recorded
    with commit count 1 and analyzed count 3. *)
Lemma C9_counterexample :
  (∃ rs, processRepo (bytes "org") failingRepository = Some (Some rs, [])
         ∧ CommitCount rs = -1 ∧ AnalyzedCommitsCount rs = 0
         ∧ (AnalyzedCommitsCount rs
            <=? Z.min numRandomCommitsToAnalyze (CommitCount rs)) = false)
  ∧ (∃ rs calls,
       processRepo (bytes "org") growingRepository = Some (Some rs, calls)
       ∧ CommitCount rs = 1 ∧ AnalyzedCommitsCount rs = 3
       ∧ (AnalyzedCommitsCount rs
          <=? Z.min numRandomCommitsToAnalyze (CommitCount rs)) = false).
Proof.
  split.
  - eexists. split; [vm_compute; reflexivity|]. by split_and!.
  - eexists _, _. split; [vm_compute; reflexivity|]. by split_and!.
Qed.

(** C9, amended.  For every recorded result the analyzed count is between
    0 and the sample size 5; it is 0 when the commit count is the
    sentinel -1; and when the commits were counted and the SHA
    enumeration is answered with the listing that was counted, it is at
    most [min 5 commitCount]. *)
Theorem C9_analyzed_count_bound organization repo rs calls :
  processRepo organization repo = Some (Some rs, calls) →
  0 ≤ AnalyzedCommitsCount rs ≤ numRandomCommitsToAnalyze
  ∧ (CommitCount rs = -1 → AnalyzedCommitsCount rs = 0)
  ∧ (CommitCount rs ≠ -1 →
     shaListing (github repo) = countListing (github repo) →
     AnalyzedCommitsCount rs
     ≤ Z.min numRandomCommitsToAnalyze (CommitCount rs)).
Proof.
  intros Hp.
  apply processRepo_inv in Hp as (_ & total & sampled & err & Hdata & Hrs).
  assert (0 ≤ numRandomCommitsToAnalyze) as Hn by done.
  destruct (analysis_sample_size _ _ _ _ _ _ _ _ Hn Hdata) as [Hk Hstable].
  destruct err as [e|].
  { destruct Hrs as [-> _]. simpl. by split_and!. }
  destruct (Z.eqb_spec total 0) as [->|Hne].
  { destruct Hrs as [-> _]. simpl. by split_and!. }
  destruct Hrs as (ev & _ & _ & Htot & Han & _).
  rewrite Han, Htot.
  assert (0 < total).
  { pose proof (GetRepositoryCommitAnalysisData_outcome (github repo)
      organization (RepoName repo) numRandomCommitsToAnalyze diffLinesLimit)
      as Hout.
    rewrite Hdata in Hout.
    inversion Hout as [| | |tot Hc _ _|tot a b Hc _ _ _ _|]; subst; try done;
      destruct (countAllCommits_nonzero _ _ _ _ _ Hc Hne) as [_ ?]; lia. }
  split_and!; [lia|done|lia|].
  intros _ Hst. specialize (Hstable eq_refl Hne Hst). lia.
Qed.

Lemma C9_analyzed_count_bound_witness :
  ∃ rs calls,
    processRepo (bytes "org")
      {| RepoName := bytes "repo"; github := worldOneFetchFails;
         gemini := None |} = Some (Some rs, calls)
    ∧ 0 ≤ AnalyzedCommitsCount rs ≤ numRandomCommitsToAnalyze
    ∧ (CommitCount rs = -1 → AnalyzedCommitsCount rs = 0)
    ∧ (CommitCount rs ≠ -1 →
       shaListing worldOneFetchFails = countListing worldOneFetchFails →
       AnalyzedCommitsCount rs
       ≤ Z.min numRandomCommitsToAnalyze (CommitCount rs)).
Proof.
  eexists _, _. split; [vm_compute; reflexivity|].
  eapply (C9_analyzed_count_bound (bytes "org")
    {| RepoName := bytes "repo"; github := worldOneFetchFails;
       gemini := None |}).
  vm_compute. reflexivity.
Defined.

(** ** Failures of one repository *)

(** Under the contract of [rand.Int] the analysis of a repository does
    not panic. *)
Lemma GetRepositoryCommitAnalysisData_defined w owner repoName n limit :
  0 ≤ n → (∀ max, 0 < max → 0 ≤ randInt w max < max) →
  is_Some (GetRepositoryCommitAnalysisData w owner repoName n limit).
Proof.
  intros Hn Hrand.
  pose proof (GetRepositoryCommitAnalysisData_outcome w owner repoName n limit)
    as Hout.
  inversion Hout as [| | | | |total allCommitSHAs Hc Hne Hs Hsel]; try done.
  destruct (selectSHAs_defined (randInt w) Hrand allCommitSHAs n Hn)
    as [sel Hsome].
  congruence.
Qed.

(** A named repository is recorded exactly once, under its name: with the
    sentinel when the analysis returns an error, with its commit count and
    zero scores when the evaluation returns an error. *)
Lemma processRepo_recorded organization repo :
  RepoName repo ≠ [] →
  (∀ max, 0 < max → 0 ≤ randInt (github repo) max < max) →
  ∃ rs calls,
    processRepo organization repo = Some (Some rs, calls)
    ∧ Name rs = RepoName repo
    ∧ ∀ total sampled err,
        GetRepositoryCommitAnalysisData (github repo) organization
          (RepoName repo) numRandomCommitsToAnalyze diffLinesLimit
        = Some (total, sampled, err) →
        (is_Some err → CommitCount rs = -1)
        ∧ (err = None → total ≠ 0 →
           (∃ e, (AnalyzeCommitsWithGemini (gemini repo) (RepoName repo)
                    total sampled).2 = Err e) →
           CommitCount rs = total ∧ TechnicalScore rs = 0
           ∧ MessageScore rs = 0).
Proof.
  intros Hname Hrand.
  destruct (GetRepositoryCommitAnalysisData_defined (github repo) organization
              (RepoName repo) numRandomCommitsToAnalyze diffLinesLimit)
    as [[[total sampled] err] Hdata]; [done..|].
  unfold processRepo. rewrite bool_decide_eq_false_2 by done.
  rewrite Hdata. simpl.
  destruct err as [e|].
  { eexists _, _. split_and!; [done..|].
    intros ??? [= <- <- <-]. split; [done|]. by intros. }
  destruct (Z.eqb_spec total 0) as [->|Hne].
  { eexists _, _. split_and!; [done..|].
    intros ??? [= <- <- <-]. split; [by intros [??]|]. by intros. }
  destruct (AnalyzeCommitsWithGemini _ _ _ _) as [calls [score|e]] eqn:Hev;
    eexists _, _; (split_and!; [done..|]);
    intros ??? [= <- <- <-]; (split; [by intros [??]|]);
    intros _ _ [e' He']; rewrite Hev in He'; simpl in He'; by try done.
Qed.

(** The loop goes through every repository: no failure of one ends it. *)
Lemma processRepos_contained organization repos :
  Forall (λ repo, ∀ max, 0 < max → 0 ≤ randInt (github repo) max < max)
    repos →
  ∃ repoScores calls,
    processRepos organization repos = Some (repoScores, calls)
    ∧ Name <$> repoScores = filter (λ name, name ≠ []) (RepoName <$> repos).
Proof.
  induction 1 as [|repo repos Hrand _ IH]; [by eexists _, _|].
  destruct IH as (repoScores & calls' & Hrest & Hnames).
  simpl processRepos. rewrite fmap_cons, filter_cons.
  destruct (decide (RepoName repo ≠ [])) as [Hname|Hname].
  - destruct (processRepo_recorded organization repo Hname Hrand)
      as (rs & calls & -> & Hrs & _).
    simpl. rewrite Hrest. simpl. eexists _, _. split; [done|].
    by rewrite fmap_cons, Hrs, Hnames.
  - unfold processRepo. rewrite bool_decide_eq_true_2.
    2:{ by destruct (decide (RepoName repo = [])). }
    simpl. rewrite Hrest. simpl. by eexists _, _.
Qed.

(** ** C6: a failed commit count *)

(** C6, at the repository [repository409], named api-v409, whose commit
    listing fails with a server error: [countAllCommits] returns an
    error, the error text holds 409 because the repository name does, the
    test of line 333 passes the error over, and the repository is
    recorded with commit count 0 instead of the sentinel -1, which the
    same failure gives for the repository named service. *)
Theorem C6_counting_failure_recorded_as_zero :
  (∃ e, countAllCommits (bytes "org") (bytes "api-v409")
          (countListing worldCountFails) = (0, Some e)
        ∧ countErrorIgnored (bytes "org") (bytes "api-v409") 0 e = true)
  ∧ processRepo (bytes "org") repository409
    = Some (Some (emptyScore (bytes "api-v409") 0), [])
  ∧ processRepo (bytes "org") failingRepository
    = Some (Some (emptyScore (bytes "service") (-1)), []).
Proof.
  split_and!.
  - eexists. split; vm_compute; reflexivity.
  - vm_compute. reflexivity.
  - vm_compute. reflexivity.
Qed.

(** ** binary64 facts *)

Section SpecFloatFacts.
Lemma digits2_pos_bounds p :
  2 ^ (Z.pos (digits2_pos p) - 1) ≤ Z.pos p < 2 ^ Z.pos (digits2_pos p).
Proof.
  induction p as [p IH|p IH|]; simpl digits2_pos.
  - rewrite Pos2Z.inj_succ, Z.pow_succ_r by lia.
    replace (Z.succ (Z.pos (digits2_pos p)) - 1)
      with (Z.succ (Z.pos (digits2_pos p) - 1)) by lia.
    rewrite Z.pow_succ_r by lia. lia.
  - rewrite Pos2Z.inj_succ, Z.pow_succ_r by lia.
    replace (Z.succ (Z.pos (digits2_pos p)) - 1)
      with (Z.succ (Z.pos (digits2_pos p) - 1)) by lia.
    rewrite Z.pow_succ_r by lia. lia.
  - simpl. lia.
Qed.

Lemma shr_1_lower k mrs :
  0 ≤ k → 2 ^ (k + 1) ≤ shr_m mrs → 2 ^ k ≤ shr_m (shr_1 mrs).
Proof.
  intros Hk. destruct mrs as [m r s]. simpl.
  rewrite Z.pow_add_r by lia. change (2 ^ 1) with 2.
  assert (0 < 2 ^ k) by (apply Z.pow_pos_nonneg; lia).
  destruct m as [|[p|p|]|p]; simpl; lia.
Qed.

Lemma iter_shr_1_lower n : ∀ k mrs,
  0 ≤ k → 2 ^ (k + Z.pos n) ≤ shr_m mrs →
  2 ^ k ≤ shr_m (SpecFloat.iter_pos shr_1 n mrs).
Proof.
  induction n as [n IH|n IH|]; intros k mrs Hk Hm; simpl.
  - apply IH; [done|]. apply IH; [lia|]. apply shr_1_lower; [lia|].
    replace (k + Z.pos n + Z.pos n + 1) with (k + Z.pos n~1) by lia. done.
  - apply IH; [done|]. apply IH; [lia|].
    replace (k + Z.pos n + Z.pos n) with (k + Z.pos n~0) by lia. done.
  - by apply shr_1_lower.
Qed.

(** In the normal range the shift to the canonical exponent keeps the
    mantissa positive and does not lower the exponent. *)
Lemma shr_fexp_pos m e l :
  3 - emax - prec ≤ Z.pos (digits2_pos m) + e - prec →
  ∃ m' r s e',
    shr_fexp prec emax (Z.pos m) e l = (Build_shr_record (Z.pos m') r s, e')
    ∧ e ≤ e'.
Proof.
  intros Hnorm. unfold shr_fexp, shr. simpl Zdigits2.
  unfold fexp, SpecFloat.emin.
  rewrite Z.max_l by lia.
  destruct (Z.pos (digits2_pos m) + e - prec - e) as [|n|n] eqn:Hn.
  - destruct l as [|[]]; simpl; eexists _, _, _, _; (split; [done|lia]).
  - assert (2 ^ 52 ≤ shr_m (SpecFloat.iter_pos shr_1 n
                              (shr_record_of_loc (Z.pos m) l))) as Hlow.
    { apply iter_shr_1_lower; [lia|].
      replace (shr_m (shr_record_of_loc (Z.pos m) l)) with (Z.pos m)
        by by destruct l as [|[]].
      pose proof (digits2_pos_bounds m) as [Hb _].
      replace (52 + Z.pos n) with (Z.pos (digits2_pos m) - 1); [done|].
      change prec with 53 in Hn. lia. }
    destruct (SpecFloat.iter_pos shr_1 n (shr_record_of_loc (Z.pos m) l))
      as [[|m'|m'] r s]; simpl in Hlow; try lia.
    eexists _, _, _, _. split; [done|lia].
  - destruct l as [|[]]; simpl; eexists _, _, _, _; (split; [done|lia]).
Qed.

(** Rounding a positive mantissa in the normal range gives a positive
    finite number whose exponent is not below the given one, or +Inf. *)
Lemma binary_round_aux_pos m e :
  3 - emax ≤ e →
  (∃ m' e', binary_round_aux prec emax false (Z.pos m) e loc_Exact
            = S754_finite false m' e' ∧ e ≤ e')
  ∨ binary_round_aux prec emax false (Z.pos m) e loc_Exact
    = S754_infinity false.
Proof.
  intros He. unfold binary_round_aux.
  destruct (shr_fexp_pos m e loc_Exact) as (m1 & r1 & s1 & e1 & -> & He1).
  { pose proof (Pos2Z.is_pos (digits2_pos m)). lia. }
  simpl shr_m.
  assert (∃ m2, round_nearest_even (Z.pos m1)
                  (loc_of_shr_record
                     {| shr_m := Z.pos m1; shr_r := r1; shr_s := s1 |})
                = Z.pos m2) as [m2 ->].
  { destruct r1, s1; simpl; try (by eexists); destruct m1; simpl; by eexists. }
  destruct (shr_fexp_pos m2 e1 loc_Exact) as (m3 & r3 & s3 & e3 & -> & He3).
  { pose proof (Pos2Z.is_pos (digits2_pos m2)). lia. }
  simpl. destruct (e3 <=? emax - prec); [left|by right].
  eexists _, _. split; [done|lia].
Qed.

Lemma Zdigits2_le m k : 0 ≤ k → 0 ≤ m < 2 ^ k → Zdigits2 m ≤ k.
Proof.
  intros Hk [Hm0 Hm]. destruct m as [|p|p]; simpl; [lia| |lia].
  pose proof (digits2_pos_bounds p) as [Hlo _].
  destruct (Z.le_gt_cases (Z.pos (digits2_pos p)) k); [done|].
  assert (2 ^ k ≤ 2 ^ (Z.pos (digits2_pos p) - 1))
    by (apply Z.pow_le_mono_r; lia).
  lia.
Qed.

Lemma shr_1_range k mrs :
  0 ≤ k → 0 ≤ shr_m mrs < 2 ^ (k + 1) → 0 ≤ shr_m (shr_1 mrs) < 2 ^ k.
Proof.
  intros Hk. destruct mrs as [m r s]. simpl.
  rewrite Z.pow_add_r by lia. change (2 ^ 1) with 2.
  assert (0 < 2 ^ k) by (apply Z.pow_pos_nonneg; lia).
  destruct m as [|[p|p|]|p]; simpl; lia.
Qed.

Lemma iter_shr_1_range n : ∀ k mrs,
  0 ≤ k → 0 ≤ shr_m mrs < 2 ^ (k + Z.pos n) →
  0 ≤ shr_m (SpecFloat.iter_pos shr_1 n mrs) < 2 ^ k.
Proof.
  induction n as [n IH|n IH|]; intros k mrs Hk Hm; simpl.
  - apply IH; [done|]. apply IH; [lia|]. apply shr_1_range; [lia|].
    replace (k + Z.pos n + Z.pos n + 1) with (k + Z.pos n~1) by lia. done.
  - apply IH; [done|]. apply IH; [lia|].
    replace (k + Z.pos n + Z.pos n) with (k + Z.pos n~0) by lia. done.
  - by apply shr_1_range.
Qed.

Lemma shr_record_of_loc_m m l : shr_m (shr_record_of_loc m l) = m.
Proof. by destruct l as [|[]]. Qed.

(** The shift to the canonical exponent leaves a mantissa below [2^53]
    and the larger of the two exponents. *)
Lemma shr_fexp_range m e l :
  0 ≤ m →
  ∃ mrs e', shr_fexp prec emax m e l = (mrs, e')
    ∧ 0 ≤ shr_m mrs < 2 ^ 53
    ∧ e' = Z.max e (fexp prec emax (Zdigits2 m + e)).
Proof.
  intros Hm. unfold shr_fexp, shr.
  set (fe := fexp prec emax (Zdigits2 m + e)).
  assert (Zdigits2 m + e - 53 ≤ fe) as Hfe.
  { subst fe. unfold fexp. change prec with 53. lia. }
  assert (0 ≤ Zdigits2 m) as Hd0.
  { destruct m; simpl; lia. }
  assert (m < 2 ^ Zdigits2 m) as Hdig.
  { destruct m as [|p|p]; simpl; [lia| |lia]. apply digits2_pos_bounds. }
  destruct (fe - e) as [|n|n] eqn:Hn.
  - eexists _, _. split; [done|]. rewrite shr_record_of_loc_m. split; [|lia].
    split; [done|].
    assert (2 ^ Zdigits2 m ≤ 2 ^ 53) by (apply Z.pow_le_mono_r; lia). lia.
  - eexists _, _. split; [done|]. split; [|lia].
    apply iter_shr_1_range; [lia|]. rewrite shr_record_of_loc_m.
    split; [done|].
    assert (2 ^ Zdigits2 m ≤ 2 ^ (53 + Z.pos n))
      by (apply Z.pow_le_mono_r; lia).
    lia.
  - eexists _, _. split; [done|]. rewrite shr_record_of_loc_m. split; [|lia].
    split; [done|].
    assert (2 ^ Zdigits2 m ≤ 2 ^ 53) by (apply Z.pow_le_mono_r; lia). lia.
Qed.

Lemma round_nearest_even_range m l :
  0 ≤ m → m ≤ round_nearest_even m l ≤ m + 1.
Proof.
  intros Hm. destruct l as [|[]]; simpl; try lia. destruct (Z.even m); lia.
Qed.

(** Rounding a non-negative mantissa never gives NaN, and gives no
    infinity either when the exponents are small enough. *)
Lemma binary_round_aux_not_nan sx m e l :
  0 ≤ m → SFnan (binary_round_aux prec emax sx m e l) = false.
Proof.
  intros Hm. unfold binary_round_aux.
  destruct (shr_fexp_range m e l Hm) as (mrs1 & e1 & -> & [Hm1 _] & _).
  pose proof (round_nearest_even_range (shr_m mrs1) (loc_of_shr_record mrs1)
                Hm1) as [Hr _].
  destruct (shr_fexp_range
              (round_nearest_even (shr_m mrs1) (loc_of_shr_record mrs1))
              e1 loc_Exact) as (mrs2 & e2 & -> & [Hm2 _] & _); [lia|].
  destruct (shr_m mrs2); [done| |lia]. by destruct (e2 <=? emax - prec).
Qed.

Lemma binary_round_aux_fin sx m e l :
  0 ≤ m → e ≤ 970 → Zdigits2 m + e - 53 ≤ 970 →
  SFfin (binary_round_aux prec emax sx m e l) = true.
Proof.
  intros Hm He Hd. unfold binary_round_aux.
  destruct (shr_fexp_range m e l Hm) as (mrs1 & e1 & -> & [Hm1 Hm1'] & He1).
  pose proof (round_nearest_even_range (shr_m mrs1) (loc_of_shr_record mrs1)
                Hm1) as [Hr Hr'].
  set (m2 := round_nearest_even (shr_m mrs1) (loc_of_shr_record mrs1)) in *.
  destruct (shr_fexp_range m2 e1 loc_Exact)
    as (mrs2 & e2 & -> & [Hm2 _] & He2); [lia|].
  assert (e1 ≤ 970) as He1'.
  { rewrite He1. unfold fexp, SpecFloat.emin.
    change prec with 53. change emax with 1024. lia. }
  assert (Zdigits2 m2 ≤ 54) as Hd2.
  { apply Zdigits2_le; [lia|]. change (2 ^ 54) with (2 * 2 ^ 53). lia. }
  assert (e2 ≤ 971) as He2'.
  { rewrite He2. unfold fexp, SpecFloat.emin.
    change prec with 53. change emax with 1024. lia. }
  destruct (shr_m mrs2); [done| |lia].
  change (emax - prec) with 971. destruct (Z.leb_spec e2 971); [done|lia].
Qed.

Lemma iter_xO_value p k : Z.pos (Pos.iter xO p k) = Z.pos p * 2 ^ Z.pos k.
Proof.
  induction k as [|k IH] using Pos.peano_ind.
  - simpl. lia.
  - rewrite Pos.iter_succ, Pos2Z.inj_succ, Z.pow_succ_r by lia.
    rewrite Pos2Z.inj_xO, IH. lia.
Qed.

Lemma binary_normalize_not_nan m e sz :
  SFnan (binary_normalize prec emax m e sz) = false.
Proof.
  destruct m as [|p|p]; [done| |]; unfold binary_normalize, binary_round;
    destruct (shl_align _ _ _) as [mz ez]; by apply binary_round_aux_not_nan.
Qed.

Lemma binary_normalize_int_fin z :
  0 ≤ z < 2 ^ 63 → SFfin (binary_normalize prec emax z 0 false) = true.
Proof.
  intros Hz. destruct z as [|p|p]; [done| |lia].
  unfold binary_normalize, binary_round.
  assert (Z.pos (digits2_pos p) ≤ 63) as Hd.
  { apply (Zdigits2_le (Z.pos p)); lia. }
  pose proof (Pos2Z.is_pos (digits2_pos p)) as Hd0.
  unfold shl_align, fexp, SpecFloat.emin.
  change prec with 53; change emax with 1024.
  rewrite Z.max_l by lia.
  destruct (Z.pos (digits2_pos p) + 0 - 53 - 0) as [|k|k] eqn:Hk.
  - apply binary_round_aux_fin; simpl; lia.
  - apply binary_round_aux_fin; simpl; lia.
  - apply binary_round_aux_fin; [lia|lia|].
    assert (Zdigits2 (Z.pos (Pos.iter xO p k))
            ≤ Z.pos (digits2_pos p) + Z.pos k); [|lia].
    apply Zdigits2_le; [lia|]. split; [lia|].
    rewrite iter_xO_value, Z.pow_add_r by lia.
    pose proof (digits2_pos_bounds p) as [_ Hp].
    apply Z.mul_lt_mono_pos_r; [|done]. apply Z.pow_pos_nonneg; lia.
Qed.

Lemma SFfin_opp x : SFfin (SFopp x) = SFfin x.
Proof. by destruct x. Qed.

Lemma valid_binary_bounds s m e :
  valid_binary (S754_finite s m e) = true → Z.pos m < 2 ^ 53 ∧ e ≤ 971.
Proof.
  simpl. unfold bounded, canonical_mantissa, fexp, SpecFloat.emin.
  change prec with 53; change emax with 1024.
  intros [Hc He]%andb_true_iff. apply Z.eqb_eq in Hc. apply Z.leb_le in He.
  split; [|lia].
  pose proof (digits2_pos_bounds m) as [_ Hm].
  assert (2 ^ Z.pos (digits2_pos m) ≤ 2 ^ 53) by (apply Z.pow_le_mono_r; lia).
  lia.
Qed.

(** A finite number times a finite number below 1 is finite. *)
Lemma SFmul_fin x sy my ey :
  valid_binary x = true → SFfin x = true →
  Z.pos my < 2 ^ 53 → ey ≤ -54 →
  SFfin (SFmul prec emax x (S754_finite sy my ey)) = true.
Proof.
  intros Hv Hx Hmy Hey. destruct x as [sx|sx| |sx mx ex]; try done.
  apply valid_binary_bounds in Hv as [Hmx Hex]. simpl.
  apply binary_round_aux_fin; [lia|lia|].
  assert (Zdigits2 (Z.pos (mx * my)) ≤ 106); [|lia].
  apply Zdigits2_le; [lia|]. split; [lia|].
  rewrite Pos2Z.inj_mul. change (2 ^ 106) with (2 ^ 53 * 2 ^ 53).
  apply Z.mul_lt_mono_nonneg; lia.
Qed.

Lemma SFmul_not_nan x sy my ey :
  SFnan x = false → SFnan (SFmul prec emax x (S754_finite sy my ey)) = false.
Proof.
  destruct x as [sx|sx| |sx mx ex]; try done. intros _. simpl.
  by apply binary_round_aux_not_nan.
Qed.

Lemma SFadd_not_nan x y :
  SFnan x = false → SFfin y = true → SFnan (SFadd prec emax x y) = false.
Proof.
  destruct x as [[]|[]| |sx mx ex], y as [[]|[]| |sy my ey]; try done.
  all: intros _ _; simpl; apply binary_normalize_not_nan.
Qed.

Lemma SFdiv_not_nan x sy my ey :
  SFfin x = true → SFnan (SFdiv prec emax x (S754_finite sy my ey)) = false.
Proof.
  destruct x as [sx|sx| |sx mx ex]; try done. intros _. simpl.
  unfold SFdiv_core_binary.
  set (m' := match _ with Z.pos _ => _ | _ => _ end).
  assert (0 ≤ m') as Hm'.
  { subst m'. destruct (_ - _ - _); try lia. apply Z.shiftl_nonneg. lia. }
  pose proof (Z.div_pos m' (Z.pos my) Hm' ltac:(lia)) as Hq.
  unfold Z.div in Hq. destruct (Z.div_eucl m' (Z.pos my)) as [q r].
  by apply binary_round_aux_not_nan.
Qed.

Lemma SFcompare_antisym x y :
  SFcompare y x = CompOpp <$> SFcompare x y.
Proof.
  destruct x as [[]|[]| |[] m1 e1], y as [[]|[]| |[] m2 e2]; simpl; try done.
  all: rewrite (Z.compare_antisym e1 e2); destruct (e1 ?= e2); simpl; try done.
  all: rewrite (Pos.compare_cont_antisym m1 m2 Eq); simpl;
       by rewrite ?CompOpp_involutive.
Qed.

Lemma SFcompare_flip x y c :
  SFcompare x y = Some c → SFcompare y x = Some (CompOpp c).
Proof. intros H. by rewrite SFcompare_antisym, H. Qed.

Lemma SFcompare_Eq_trans x y z c :
  SFcompare x y = Some Eq → SFcompare y z = Some c → SFcompare x z = Some c.
Proof.
  destruct x as [[]|[]| |[] m1 e1], y as [[]|[]| |[] m2 e2]; simpl; try done.
  all: destruct (Z.compare_spec e1 e2); try done.
  all: rewrite Pos.compare_cont_spec; simpl.
  all: destruct (Pos.compare_spec m1 m2); try done.
  all: by subst.
Qed.

Lemma SFcompare_Lt_trans x y z :
  SFcompare x y = Some Lt → SFcompare y z = Some Lt → SFcompare x z = Some Lt.
Proof.
  destruct x as [[]|[]| |[] m1 e1], y as [[]|[]| |[] m2 e2],
           z as [[]|[]| |[] m3 e3]; simpl; try done.
  all: rewrite ?Pos.compare_cont_spec; simpl.
  all: destruct (Z.compare_spec e1 e2); try done;
       destruct (Z.compare_spec e2 e3); try done;
       destruct (Z.compare_spec e1 e3); try lia; try done.
  all: destruct (Pos.compare_spec m1 m2); try done;
       destruct (Pos.compare_spec m2 m3); try done;
       destruct (Pos.compare_spec m1 m3); try lia; try done.
Qed.

Lemma SFcompare_total x y :
  SFnan x = false → SFnan y = false → is_Some (SFcompare x y).
Proof.
  destruct x as [[]|[]| |[]], y as [[]|[]| |[]]; simpl; try done; by eexists.
Qed.

Lemma SFltb_false_trans x y z :
  SFnan x = false → SFnan y = false → SFnan z = false →
  SFltb y x = false → SFltb z y = false → SFltb z x = false.
Proof.
  intros Hx Hy Hz. unfold SFltb.
  destruct (SFcompare_total y x Hy Hx) as [c1 H1].
  destruct (SFcompare_total z y Hz Hy) as [c2 H2].
  rewrite H1, H2.
  destruct c1, c2; try done; intros _ _.
  - by rewrite (SFcompare_Eq_trans _ _ _ _ H2 H1).
  - apply SFcompare_flip in H1, H2. simpl in *.
    pose proof (SFcompare_Eq_trans _ _ _ _ H1 H2) as H3.
    apply SFcompare_flip in H3. by rewrite H3.
  - by rewrite (SFcompare_Eq_trans _ _ _ _ H2 H1).
  - apply SFcompare_flip in H1, H2. simpl in *.
    pose proof (SFcompare_Lt_trans _ _ _ H1 H2) as H3.
    apply SFcompare_flip in H3. by rewrite H3.
Qed.
End SpecFloatFacts.

Lemma float_ltb_asym (x y : float) :
  (x <? y)%float = true → (y <? x)%float = false.
Proof.
  rewrite !FloatAxioms.ltb_spec. unfold SFltb.
  rewrite (SFcompare_antisym (Prim2SF x)).
  by destruct (SFcompare (Prim2SF x) (Prim2SF y)) as [[]|].
Qed.

Lemma float_eqb_not_ltb (a b v : float) :
  (a =? v)%float = true → (b =? v)%float = true → (a <? b)%float = false.
Proof.
  rewrite !FloatAxioms.eqb_spec, FloatAxioms.ltb_spec. unfold SFeqb, SFltb.
  destruct (SFcompare (Prim2SF a) (Prim2SF v)) as [[]|] eqn:Ha; try done.
  destruct (SFcompare (Prim2SF b) (Prim2SF v)) as [[]|] eqn:Hb; try done.
  intros _ _.
  assert (SFcompare (Prim2SF v) (Prim2SF b) = Some Eq) as Hb'.
  { rewrite SFcompare_antisym, Hb. done. }
  by rewrite (SFcompare_Eq_trans _ _ _ _ Ha Hb').
Qed.

Lemma float_is_nan_spec (x : float) : is_nan x = SFnan (Prim2SF x).
Proof.
  unfold is_nan. rewrite FloatAxioms.eqb_spec. unfold SFeqb.
  destruct (Prim2SF x) as [[]|[]| |[] m e]; simpl; try done.
  all: rewrite Z.compare_refl, Pos.compare_cont_spec, Pos.compare_refl; done.
Qed.

Lemma float_ltb_false_trans (x y z : float) :
  is_nan x = false → is_nan y = false → is_nan z = false →
  (y <? x)%float = false → (z <? y)%float = false → (z <? x)%float = false.
Proof.
  rewrite !float_is_nan_spec, !FloatAxioms.ltb_spec.
  apply SFltb_false_trans.
Qed.

Lemma of_uint63_fin x : SFfin (Prim2SF (of_uint63 x)) = true.
Proof.
  rewrite of_uint63_spec. apply binary_normalize_int_fin.
  pose proof (Uint63.to_Z_bounded x) as H.
  change Uint63.wB with (2 ^ 63) in H. done.
Qed.

(** [float64(n)] is a finite number. *)
Lemma float64_of_int_fin n : SFfin (Prim2SF (float64_of_int n)) = true.
Proof.
  unfold float64_of_int. destruct (n =? - 2 ^ 63); [by vm_compute|].
  destruct (n <? 0).
  - rewrite opp_spec, SFfin_opp. apply of_uint63_fin.
  - apply of_uint63_fin.
Qed.

(** The overall score is never NaN. *)
Lemma overallScore_not_nan c score : is_nan (overallScore c score) = false.
Proof.
  rewrite float_is_nan_spec. unfold overallScore.
  unfold commitCountWeight, technicalScoreWeight, messageScoreWeight.
  assert (∀ n, SFfin (Prim2SF (float64_of_int n * 0.4)) = true) as Hterm.
  { intros n. rewrite mul_spec.
    change (Prim2SF 0.4) with (S754_finite false 7205759403792794 (-54)).
    apply SFmul_fin; [apply Prim2SF_valid|apply float64_of_int_fin|done..]. }
  rewrite add_spec. apply SFadd_not_nan; [|apply Hterm].
  rewrite add_spec. apply SFadd_not_nan; [|apply Hterm].
  rewrite mul_spec.
  change (Prim2SF 0.2) with (S754_finite false 7205759403792794 (-55)).
  apply SFmul_not_nan.
  unfold commitScore. rewrite mul_spec.
  change (Prim2SF 10) with (S754_finite false 5629499534213120 (-49)).
  apply SFmul_not_nan.
  rewrite div_spec.
  change (Prim2SF (float64_of_int maxCommitCountForNorm))
    with (S754_finite false 8796093022208000 (-43)).
  apply SFdiv_not_nan.
  destruct (_ <? _)%float; [done|apply float64_of_int_fin].
Qed.

(** [float64(n) > 1000] exactly when [n > 1000], over the non-negative
    [int]s. *)
Lemma float64_of_int_large c :
  1024 ≤ c < 2 ^ 63 → (1000 <? float64_of_int c)%float = true.
Proof.
  intros Hc. unfold float64_of_int.
  destruct (Z.eqb_spec c (- 2 ^ 63)); [lia|].
  destruct (Z.ltb_spec c 0); [lia|].
  rewrite FloatAxioms.ltb_spec, of_uint63_spec, Uint63.of_Z_spec.
  rewrite Z.mod_small by (change Uint63.wB with (2 ^ 63); lia).
  destruct c as [|p|p]; [lia| |lia].
  unfold binary_normalize, binary_round.
  pose proof (digits2_pos_bounds p) as [_ Hd].
  assert (11 ≤ Z.pos (digits2_pos p)) as Hd11.
  { destruct (Z.le_gt_cases 11 (Z.pos (digits2_pos p))); [done|].
    assert (2 ^ Z.pos (digits2_pos p) ≤ 2 ^ 10)
      by (apply Z.pow_le_mono_r; lia).
    lia. }
  destruct (shl_align p 0 (fexp prec emax (Z.pos (digits2_pos p) + 0)))
    as [mz ez] eqn:Hal.
  assert (-42 ≤ ez) as Hez.
  { unfold shl_align, fexp, SpecFloat.emin in Hal.
    rewrite Z.max_l in Hal
      by (change prec with 53; change emax with 1024; lia).
    destruct (Z.pos (digits2_pos p) + 0 - prec - 0) eqn:Hsh;
      injection Hal as <- <-; try lia.
    change prec with 53. lia. }
  destruct (binary_round_aux_pos mz ez) as [(m' & e' & -> & He')| ->].
  { change emax with 1024. lia. }
  - vm_compute Prim2SF. unfold SFltb, SFcompare.
    destruct (Z.compare_spec (-43) e'); try lia; done.
  - reflexivity.
Qed.

Lemma float64_of_int_small c :
  0 ≤ c < 1024 → (1000 <? float64_of_int c)%float = (1000 <? c).
Proof.
  intros Hc.
  assert (forallb (λ n, Bool.eqb (1000 <? float64_of_int (Z.of_nat n))%float
                          (1000 <? Z.of_nat n)) (seq 0 1024) = true) as Hall
    by (vm_compute; reflexivity).
  rewrite forallb_forall in Hall.
  specialize (Hall (Z.to_nat c)).
  rewrite Z2Nat.id in Hall by lia.
  apply Bool.eqb_prop, Hall, in_seq. lia.
Qed.

Lemma float64_of_int_above_cap c :
  0 ≤ c < 2 ^ 63 → (1000 <? float64_of_int c)%float = (1000 <? c).
Proof.
  intros Hc. destruct (Z.lt_ge_cases c 1024).
  - apply float64_of_int_small. lia.
  - rewrite float64_of_int_large by lia. symmetry. apply Z.ltb_lt. lia.
Qed.

(** The score computed by [main] is the formula of the specification. *)
Lemma overallScore_spec c score :
  0 ≤ c < 2 ^ 63 →
  overallScore c score
  = specOverallScore c (TechnicalSophistication score)
      (MessageAppropriateness score).
Proof.
  intros Hc. unfold overallScore, specOverallScore, commitScore.
  change (float64_of_int maxCommitCountForNorm) with 1000%float.
  rewrite float64_of_int_above_cap by done.
  unfold commitCountWeight, technicalScoreWeight, messageScoreWeight.
  destruct (Z.ltb_spec 1000 c).
  - rewrite Z.min_r by lia. done.
  - rewrite Z.min_l by lia. done.
Qed.

(** ** C3: the aggregation *)

(** C3.  For a repository with commit count [c] (an [int], never
    negative when the analysis returns no error) whose evaluation gives
    the scores [t] and [m], the recorded overall score is
    [(min(c, 1000) / 1000 * 10) * 0.2 + t * 0.4 + m * 0.4] in binary64
    arithmetic; this is exactly 10 for [c = 1000], [t = m = 10]; and a
    repository with commit count 0 is recorded with overall score 0. *)
Theorem C3_overall_score organization repo c sampled calls t m :
  RepoName repo ≠ [] →
  c < 2 ^ 63 →
  GetRepositoryCommitAnalysisData (github repo) organization (RepoName repo)
    numRandomCommitsToAnalyze diffLinesLimit = Some (c, sampled, None) →
  AnalyzeCommitsWithGemini (gemini repo) (RepoName repo) c sampled
  = (calls, Ok {| TechnicalSophistication := t;
                  MessageAppropriateness := m |}) →
  ∃ rs,
    processRepo organization repo = Some (Some rs, calls)
    ∧ OverallScore rs = specOverallScore c t m
    ∧ (c = 0 → OverallScore rs = 0%float)
    ∧ specOverallScore 1000 10 10 = 10%float.
Proof.
  intros Hname Hc Hdata Heval.
  pose proof (analysis_count_nonneg _ _ _ _ _ _ _ _ Hdata) as Hc0.
  unfold processRepo. rewrite bool_decide_eq_false_2 by done.
  rewrite Hdata. simpl.
  destruct (Z.eqb_spec c 0) as [->|Hne].
  - unfold AnalyzeCommitsWithGemini in Heval. simpl in Heval.
    injection Heval as <- <- <-.
    eexists. split_and!; [done| |done|by vm_compute]. by vm_compute.
  - rewrite Heval.
    eexists. split_and!; [done| |done|by vm_compute]. simpl.
    by rewrite overallScore_spec.
Qed.

Lemma C3_overall_score_witness :
  ∃ rs,
    processRepo (bytes "org") (scoredRepository "10" "10")
    = Some (Some rs,
            [GenerateContent (bytes "repo") 5
               (fetchDetails worldOneFetchFails 100
                  [bytes "a1"; bytes "b2"; bytes "c3"; bytes "d4"; bytes "e5"])])
    ∧ OverallScore rs = specOverallScore 5 10 10
    ∧ (5 = 0 → OverallScore rs = 0%float)
    ∧ specOverallScore 1000 10 10 = 10%float.
Proof.
  apply (C3_overall_score (bytes "org") (scoredRepository "10" "10") 5
           (fetchDetails worldOneFetchFails 100
              [bytes "a1"; bytes "b2"; bytes "c3"; bytes "d4"; bytes "e5"])).
  - discriminate.
  - lia.
  - vm_compute. reflexivity.
  - vm_compute. reflexivity.
Defined.

(** ** The stable sort *)

Section SliceStableFacts.
Context {A : Type}.
Variable less : A → A → bool.

Lemma insert_perm x sortedRev : sort.insert less x sortedRev ≡ₚ x :: sortedRev.
Proof.
  induction sortedRev as [|y l IH]; [done|]. simpl.
  destruct (less x y); [|done].
  rewrite IH. apply Permutation_swap.
Qed.

Lemma fold_insert_perm data sortedRev :
  fold_left (λ acc x, sort.insert less x acc) data sortedRev
  ≡ₚ data ++ sortedRev.
Proof.
  revert sortedRev. induction data as [|x data IH]; intros acc; [done|].
  simpl. rewrite IH, insert_perm. by rewrite Permutation_middle.
Qed.

Lemma SliceStable_perm data : sort.SliceStable less data ≡ₚ data.
Proof.
  unfold sort.SliceStable.
  by rewrite reverse_Permutation, fold_insert_perm, app_nil_r.
Qed.

(** Among elements none of which is less than another, the sort changes
    nothing: a new element only moves past elements it is less than. *)
Section Stable.
Variable P : A → Prop.
Context `{!∀ x, Decision (P x)}.
Hypothesis P_unordered : ∀ x y, P x → P y → less x y = false.

Lemma insert_filter x sortedRev :
  filter P (sort.insert less x sortedRev)
  = filter P [x] ++ filter P sortedRev.
Proof.
  induction sortedRev as [|y l IH]; [by rewrite app_nil_r|].
  change (sort.insert less x (y :: l))
    with (if less x y then y :: sort.insert less x l else x :: y :: l).
  destruct (less x y) eqn:Hless.
  2:{ apply (filter_app P [x] (y :: l)). }
  rewrite !filter_cons, IH, !filter_cons, filter_nil.
  destruct (decide (P x)) as [Hx|Hx], (decide (P y)) as [Hy|Hy]; try done.
  by rewrite P_unordered in Hless.
Qed.

Lemma fold_insert_filter data sortedRev :
  filter P (fold_left (λ acc x, sort.insert less x acc) data sortedRev)
  = reverse (filter P data) ++ filter P sortedRev.
Proof.
  revert sortedRev. induction data as [|x data IH]; intros acc; [done|].
  change (fold_left (λ acc x, sort.insert less x acc) (x :: data) acc)
    with (fold_left (λ acc x, sort.insert less x acc) data
            (sort.insert less x acc)).
  rewrite IH, insert_filter, !filter_cons, filter_nil.
  destruct (decide (P x)); [|done].
  by rewrite reverse_cons, <- app_assoc.
Qed.

Lemma SliceStable_filter data :
  filter P (sort.SliceStable less data) = filter P data.
Proof.
  unfold sort.SliceStable.
  rewrite filter_reverse, fold_insert_filter, filter_nil, app_nil_r.
  apply reverse_involutive.
Qed.
End Stable.

(** With an asymmetric [less], no element of the result is less than the
    one before it. *)
Hypothesis less_asym : ∀ x y, less x y = true → less y x = false.

Lemma insert_sorted x sortedRev :
  Sorted (λ a b, less a b = false) sortedRev →
  Sorted (λ a b, less a b = false) (sort.insert less x sortedRev).
Proof.
  induction sortedRev as [|y l IH]; intros Hs.
  { repeat constructor. }
  simpl. destruct (less x y) eqn:Hless.
  - apply Sorted_inv in Hs as [Hs Hhd].
    constructor; [by apply IH|].
    destruct l as [|z l]; simpl.
    { constructor. by apply less_asym. }
    destruct (less x z).
    + constructor. by inversion Hhd.
    + constructor. by apply less_asym.
  - constructor; [done|]. by constructor.
Qed.

Lemma fold_insert_sorted data sortedRev :
  Sorted (λ a b, less a b = false) sortedRev →
  Sorted (λ a b, less a b = false)
    (fold_left (λ acc x, sort.insert less x acc) data sortedRev).
Proof.
  revert sortedRev. induction data as [|x data IH]; intros acc Hs; [done|].
  simpl. by apply IH, insert_sorted.
Qed.

Lemma SliceStable_sorted data :
  Sorted (λ a b, less b a = false) (sort.SliceStable less data).
Proof.
  unfold sort.SliceStable.
  apply (Sorted_reverse (λ a b, less a b = false)), fold_insert_sorted.
  constructor.
Qed.
End SliceStableFacts.

Lemma Sorted_strengthen {A} (R : relation A) (P : A → Prop) (l : list A) :
  (∀ x y z, P x → P y → P z → R x y → R y z → R x z) →
  Forall P l → Sorted R l → StronglySorted R l.
Proof.
  intros Htrans HP Hs.
  assert (StronglySorted (λ a b, P a ∧ P b ∧ R a b) l) as Hss.
  { apply Sorted_StronglySorted.
    - intros x y z (?&?&?) (?&?&?). split_and!; eauto.
    - induction Hs as [|x l Hs IH Hhd]; [constructor|].
      apply Forall_cons in HP as [Hx HP].
      constructor; [by apply IH|].
      destruct Hhd as [|y l' Hxy]; constructor.
      apply Forall_cons in HP as [Hy _]. done. }
  clear -Hss. induction Hss as [|x l Hss IH Hall]; constructor; [done|].
  eapply Forall_impl; [exact Hall|]. by intros y (_&_&?).
Qed.

(** ** C8: the ranking *)

(** No recorded overall score is NaN. *)
Lemma processRepos_not_nan organization repos repoScores calls :
  processRepos organization repos = Some (repoScores, calls) →
  Forall (λ rs, is_nan (OverallScore rs) = false) repoScores.
Proof.
  revert repoScores calls.
  induction repos as [|repo repos IH]; intros repoScores calls.
  { intros [= <- <-]. constructor. }
  simpl processRepos.
  destruct (processRepo organization repo) as [[score calls1]|] eqn:Hrepo;
    [|done].
  destruct (processRepos organization repos) as [[scores calls2]|]; [|done].
  simpl. intros [= <- <-].
  specialize (IH _ _ eq_refl).
  destruct score as [rs|]; [|done].
  constructor; [|done].
  apply processRepo_inv in Hrepo as (_ & total & sampled & err & _ & Hrs).
  destruct err as [e|].
  { by destruct Hrs as [-> _]. }
  destruct (total =? 0).
  { by destruct Hrs as [-> _]. }
  destruct Hrs as ([score|e] & _ & _ & _ & _ & _ & Hscore).
  - destruct Hscore as (_ & _ & ->). apply overallScore_not_nan.
  - by destruct Hscore as (_ & _ & ->).
Qed.

(** C8.  The ranking [main] prints is the list of recorded results, in the
    order of the enumeration, rearranged by the stable sort so that no
    result has a lower overall score than any result after it, the
    results of equal overall score keeping the order they were recorded
    in. *)
Theorem C8_ranking_sorted_stable organization repos ranking calls :
  main organization repos = Some (ranking, calls) →
  ∃ repoScores,
    processRepos organization repos = Some (repoScores, calls)
    ∧ ranking = sort.SliceStable byOverallScoreDesc repoScores
    ∧ ranking ≡ₚ repoScores
    ∧ StronglySorted scoreNotBelow ranking
    ∧ (∀ v, filter (λ rs, (OverallScore rs =? v)%float = true) ranking
            = filter (λ rs, (OverallScore rs =? v)%float = true) repoScores).
Proof.
  unfold main. intros Hmain.
  destruct (processRepos organization repos) as [[repoScores calls']|] eqn:Hp;
    [|done].
  simpl in Hmain. injection Hmain as <- <-.
  exists repoScores.
  assert (Sorted scoreNotBelow
            (sort.SliceStable byOverallScoreDesc repoScores)) as Hsorted.
  { apply (SliceStable_sorted byOverallScoreDesc).
    intros x y. apply float_ltb_asym. }
  split_and!; try done.
  - apply SliceStable_perm.
  - apply (Sorted_strengthen _ (λ rs, is_nan (OverallScore rs) = false));
      [| |done].
    + intros x y z Hx Hy Hz Hxy Hyz. unfold scoreNotBelow in *.
      by apply (float_ltb_false_trans _ (OverallScore y)).
    + rewrite SliceStable_perm. by eapply processRepos_not_nan.
  - intros v. apply SliceStable_filter.
    intros x y Hx Hy. unfold byOverallScoreDesc.
    by apply (float_eqb_not_ltb _ _ v).
Qed.

Lemma C8_ranking_sorted_stable_witness :
  ∃ ranking calls,
    main (bytes "org") rankedRepositories = Some (ranking, calls)
    ∧ Name <$> ranking
      = [bytes "beta"; bytes "alpha"; bytes "gamma"; bytes "empty";
         bytes "service"]
    ∧ ∃ repoScores,
        processRepos (bytes "org") rankedRepositories = Some (repoScores, calls)
        ∧ ranking = sort.SliceStable byOverallScoreDesc repoScores
        ∧ ranking ≡ₚ repoScores
        ∧ StronglySorted scoreNotBelow ranking
        ∧ (∀ v, filter (λ rs, (OverallScore rs =? v)%float = true) ranking
                = filter (λ rs, (OverallScore rs =? v)%float = true)
                    repoScores).
Proof.
  eexists _, _. split; [vm_compute; reflexivity|].
  split; [vm_compute; reflexivity|].
  apply (C8_ranking_sorted_stable (bytes "org") rankedRepositories).
  vm_compute. reflexivity.
Defined.

(** ** C10: the evaluator's scores are not range-checked *)

(** Storing the two members sets both fields to whatever integers the
    literals denote. *)
Lemma storeScore_both literalT literalM t m :
  json.ParseInt64 literalT = Some t →
  json.ParseInt64 literalM = Some m →
  storeScore (json.Object
                [(bytes "technical_sophistication", json.Number literalT);
                 (bytes "message_appropriateness", json.Number literalM)])
  = Some {| TechnicalSophistication := t; MessageAppropriateness := m |}.
Proof.
  intros Ht Hm. unfold storeScore, storeMembers.
  change (fieldByName (bytes "technical_sophistication"))
    with (Some FTechnical).
  change (fieldByName (bytes "message_appropriateness")) with (Some FMessage).
  simpl. by rewrite Ht, Hm.
Qed.

(** C10.  Whatever integers [t] and [m] the evaluation gives, they are
    recorded as they are and enter the weighted sum as they are; the
    decoder sets the fields to any [int] the response holds; so a
    response with 15 and 12 is recorded with an overall score above 10,
    and one with -4 and -7 with an overall score below 0. *)
Theorem C10_scores_not_validated :
  (∀ organization repo c sampled calls score,
     RepoName repo ≠ [] → c ≠ 0 →
     GetRepositoryCommitAnalysisData (github repo) organization (RepoName repo)
       numRandomCommitsToAnalyze diffLinesLimit = Some (c, sampled, None) →
     AnalyzeCommitsWithGemini (gemini repo) (RepoName repo) c sampled
     = (calls, Ok score) →
     ∃ rs, processRepo organization repo = Some (Some rs, calls)
           ∧ TechnicalScore rs = TechnicalSophistication score
           ∧ MessageScore rs = MessageAppropriateness score
           ∧ OverallScore rs = overallScore c score)
  ∧ (∀ literalT literalM t m,
       json.ParseInt64 literalT = Some t →
       json.ParseInt64 literalM = Some m →
       storeScore (json.Object
                     [(bytes "technical_sophistication", json.Number literalT);
                      (bytes "message_appropriateness", json.Number literalM)])
       = Some {| TechnicalSophistication := t; MessageAppropriateness := m |})
  ∧ (∃ rs calls,
       processRepo (bytes "org") (scoredRepository "15" "12")
       = Some (Some rs, calls)
       ∧ TechnicalScore rs = 15 ∧ MessageScore rs = 12
       ∧ (10 <? OverallScore rs)%float = true)
  ∧ (∃ rs calls,
       processRepo (bytes "org") (scoredRepository "-4" "-7")
       = Some (Some rs, calls)
       ∧ TechnicalScore rs = -4 ∧ MessageScore rs = -7
       ∧ (OverallScore rs <? 0)%float = true).
Proof.
  split_and!.
  - intros organization repo c sampled calls score Hname Hc Hdata Heval.
    unfold processRepo. rewrite bool_decide_eq_false_2 by done.
    rewrite Hdata. simpl.
    destruct (Z.eqb_spec c 0); [done|].
    rewrite Heval. eexists. by split_and!.
  - apply storeScore_both.
  - eexists _, _. split; [vm_compute; reflexivity|]. by split_and!.
  - eexists _, _. split; [vm_compute; reflexivity|]. by split_and!.
Qed.

Lemma C10_scores_not_validated_witness :
  ∃ rs, processRepo (bytes "org") (scoredRepository "15" "12")
        = Some (Some rs,
                [GenerateContent (bytes "repo") 5
                   (fetchDetails worldOneFetchFails 100
                      [bytes "a1"; bytes "b2"; bytes "c3"; bytes "d4";
                       bytes "e5"])])
        ∧ TechnicalScore rs = 15 ∧ MessageScore rs = 12
        ∧ OverallScore rs
          = overallScore 5 {| TechnicalSophistication := 15;
                              MessageAppropriateness := 12 |}.
Proof.
  apply (proj1 C10_scores_not_validated (bytes "org")
           (scoredRepository "15" "12") 5
           (fetchDetails worldOneFetchFails 100
              [bytes "a1"; bytes "b2"; bytes "c3"; bytes "d4"; bytes "e5"])
           _ {| TechnicalSophistication := 15; MessageAppropriateness := 12 |}).
  - discriminate.
  - discriminate.
  - vm_compute. reflexivity.
  - vm_compute. reflexivity.
Defined.

(** ** C5: the evaluator's response *)

Lemma storeMembers_not_ok members score :
  (storeMembers members score false).2 = false.
Proof.
  revert score. induction members as [|[key v] members IH]; intros score;
    [done|].
  simpl. destruct (fieldByName key) as [[]|]; [| |done];
    by destruct (json.storeInt v _).
Qed.

(** A member whose key names a field and whose value cannot be stored in
    an [int] makes the decoding fail. *)
Lemma storeMembers_unparseable members key v f score ok :
  (key, v) ∈ members → fieldByName key = Some f → json.storeInt v 0 = None →
  (storeMembers members score ok).2 = false.
Proof.
  intros Hin Hf Hv. revert score ok.
  induction members as [|[key' v'] members IH]; intros score ok.
  { by apply elem_of_nil in Hin. }
  apply elem_of_cons in Hin as [[= <- <-]|Hin].
  - simpl. rewrite Hf.
    assert (∀ old, json.storeInt v old = None) as Hold.
    { intros old. by destruct v. }
    destruct f; rewrite Hold; apply storeMembers_not_ok.
  - simpl. destruct (fieldByName key') as [[]|]; [| |by apply IH];
      destruct (json.storeInt v' _); by apply IH.
Qed.

(** A field that no member names keeps its value. *)
Lemma storeMembers_absent_technical members score ok :
  Forall (λ kv, fieldByName kv.1 ≠ Some FTechnical) members →
  TechnicalSophistication (storeMembers members score ok).1
  = TechnicalSophistication score.
Proof.
  intros Habs. revert score ok.
  induction Habs as [|[key v] members Hkey _ IH]; intros score ok; [done|].
  simpl in *. destruct (fieldByName key) as [[]|]; [done| |by apply IH].
  destruct (json.storeInt v _); by rewrite IH.
Qed.

Lemma storeMembers_absent_message members score ok :
  Forall (λ kv, fieldByName kv.1 ≠ Some FMessage) members →
  MessageAppropriateness (storeMembers members score ok).1
  = MessageAppropriateness score.
Proof.
  intros Habs. revert score ok.
  induction Habs as [|[key v] members Hkey _ IH]; intros score ok; [done|].
  simpl in *. destruct (fieldByName key) as [[]|]; [|done|by apply IH].
  destruct (json.storeInt v _); by rewrite IH.
Qed.

Example extract_fenced :
  extractJSON (bytes "Here you go:" ++ [nl] ++ fenceOpen
               ++ scoreJSON "8" "6" ++ fenceClose ++ [nl] ++ bytes "Bye.")
  = Some (scoreJSON "8" "6").
Proof. vm_compute. reflexivity. Qed.

Example evaluate_fenced :
  Unmarshal_GeminiScore (scoreJSON "8" "6")
  = Some {| TechnicalSophistication := 8; MessageAppropriateness := 6 |}.
Proof. vm_compute. reflexivity. Qed.

Example evaluate_not_an_integer :
  Unmarshal_GeminiScore (scoreJSON "8.5" "6") = None.
Proof. vm_compute. reflexivity. Qed.

Lemma C5_counterexample :
  extractJSON onlyTechnical = Some onlyTechnical
  ∧ json.parse onlyTechnical
    = Some (json.Object [(bytes "technical_sophistication",
                          json.Number (bytes "7"))])
  ∧ parseResponse {| Candidates :=
      [ {| CandidateContent := Some {| Parts := [Text onlyTechnical] |} |} ] |}
    = Ok {| TechnicalSophistication := 7; MessageAppropriateness := 0 |}
  ∧ (∃ fetched,
       AnalyzeCommitsWithGemini
         (textResponse (bytes "Scores:" ++ [nl] ++ fenceOpen ++ onlyTechnical
                        ++ fenceClose))
         (bytes "repo") 5 [fetched]
       = ([GenerateContent (bytes "repo") 5 [fetched]],
          Ok {| TechnicalSophistication := 7; MessageAppropriateness := 0 |})).
Proof.
  split_and!; try (vm_compute; reflexivity).
  exists {| SHA := bytes "a1"; Message := []; Diff := [] |}.
  vm_compute. reflexivity.
Qed.

(** When every member that names a score field holds [null] or an
    integer literal in range, no [UnmarshalTypeError] is saved. *)
Lemma storeMembers_ok members score :
  (∀ key v f, (key, v) ∈ members → fieldByName key = Some f →
              json.storeInt v 0 ≠ None) →
  (storeMembers members score true).2 = true.
Proof.
  intros Hgood. revert score.
  induction members as [|[key v] members IH]; intros score; [done|].
  assert (∀ key' v' f, (key', v') ∈ members → fieldByName key' = Some f →
                       json.storeInt v' 0 ≠ None) as Hrest.
  { intros key' v' f Hin. apply Hgood. apply elem_of_cons. by right. }
  simpl. destruct (fieldByName key) as [f|] eqn:Hf; [|by apply IH].
  assert (∀ old, json.storeInt v old ≠ None) as Hold.
  { intros old. assert ((key, v) ∈ (key, v) :: members) as Hhere
      by (apply elem_of_cons; by left).
    pose proof (Hgood key v f Hhere Hf) as Hv.
    by destruct v. }
  destruct f.
  - destruct (json.storeInt v _) eqn:Hv; [by apply IH|by apply Hold in Hv].
  - destruct (json.storeInt v _) eqn:Hv; [by apply IH|by apply Hold in Hv].
Qed.

(** The decoding of an object succeeds exactly when no member naming a
    score field holds a value that cannot be stored; the fields that no
    member names are then 0. *)
Lemma storeScore_object_ok members :
  (∀ key v f, (key, v) ∈ members → fieldByName key = Some f →
              json.storeInt v 0 ≠ None) →
  ∃ score,
    storeScore (json.Object members) = Some score
    ∧ (Forall (λ kv, fieldByName kv.1 ≠ Some FTechnical) members →
       TechnicalSophistication score = 0)
    ∧ (Forall (λ kv, fieldByName kv.1 ≠ Some FMessage) members →
       MessageAppropriateness score = 0).
Proof.
  intros Hgood. unfold storeScore.
  pose proof (storeMembers_ok members zeroScore Hgood) as Hok.
  pose proof (storeMembers_absent_technical members zeroScore true) as Ht.
  pose proof (storeMembers_absent_message members zeroScore true) as Hm.
  destruct (storeMembers members zeroScore true) as [score ok].
  simpl in Hok. subst ok. exists score. split_and!; auto.
Qed.

Lemma storeScore_object_unparseable members key v f :
  (key, v) ∈ members → fieldByName key = Some f → json.storeInt v 0 = None →
  storeScore (json.Object members) = None.
Proof.
  intros Hin Hf Hv. unfold storeScore.
  pose proof (storeMembers_unparseable members key v f zeroScore true
                Hin Hf Hv) as Hok.
  destruct (storeMembers members zeroScore true) as [score ok].
  simpl in Hok. by rewrite Hok.
Qed.

(** C5, amended.  For an evaluation that calls the evaluator and gets a
    text answer: when no structured data is found in the text it fails;
    when the extracted text is not accepted by the decoder it fails, as it
    does when the text is not valid JSON and when a member naming a score
    field holds a value that is neither [null] nor an integer in range;
    when the extracted text is an object in which every member naming a
    score field holds [null] or an integer in range, the evaluation
    succeeds, and a field that no member of the object names is 0: its
    absence is no error. *)
Theorem C5_response_parsing repoName c sampled text :
  c ≠ 0 → sampled ≠ [] →
  (extractJSON text = None →
   AnalyzeCommitsWithGemini (textResponse text) repoName c sampled
   = ([GenerateContent repoName c sampled], Err NoJSONFound))
  ∧ (∀ extractedJSON,
       extractJSON text = Some extractedJSON →
       AnalyzeCommitsWithGemini (textResponse text) repoName c sampled
       = ([GenerateContent repoName c sampled],
          match Unmarshal_GeminiScore extractedJSON with
          | Some score => Ok score
          | None => Err InvalidJSON
          end))
  ∧ (∀ members key v f,
       (key, v) ∈ members → fieldByName key = Some f →
       json.storeInt v 0 = None →
       storeScore (json.Object members) = None)
  ∧ (∀ members,
       (∀ key v f, (key, v) ∈ members → fieldByName key = Some f →
                   json.storeInt v 0 ≠ None) →
       ∃ score,
         storeScore (json.Object members) = Some score
         ∧ (Forall (λ kv, fieldByName kv.1 ≠ Some FTechnical) members →
            TechnicalSophistication score = 0)
         ∧ (Forall (λ kv, fieldByName kv.1 ≠ Some FMessage) members →
            MessageAppropriateness score = 0))
  ∧ (∀ extractedJSON,
       extractJSON text = Some extractedJSON →
       json.parse extractedJSON = None →
       AnalyzeCommitsWithGemini (textResponse text) repoName c sampled
       = ([GenerateContent repoName c sampled], Err InvalidJSON))
  ∧ (∀ extractedJSON members key v f,
       extractJSON text = Some extractedJSON →
       json.parse extractedJSON = Some (json.Object members) →
       (key, v) ∈ members → fieldByName key = Some f →
       json.storeInt v 0 = None →
       AnalyzeCommitsWithGemini (textResponse text) repoName c sampled
       = ([GenerateContent repoName c sampled], Err InvalidJSON))
  ∧ (∀ extractedJSON members,
       extractJSON text = Some extractedJSON →
       json.parse extractedJSON = Some (json.Object members) →
       (∀ key v f, (key, v) ∈ members → fieldByName key = Some f →
                   json.storeInt v 0 ≠ None) →
       ∃ score,
         AnalyzeCommitsWithGemini (textResponse text) repoName c sampled
         = ([GenerateContent repoName c sampled], Ok score)
         ∧ (Forall (λ kv, fieldByName kv.1 ≠ Some FTechnical) members →
            TechnicalSophistication score = 0)
         ∧ (Forall (λ kv, fieldByName kv.1 ≠ Some FMessage) members →
            MessageAppropriateness score = 0)).
Proof.
  intros Hc Hs.
  assert (∀ r, AnalyzeCommitsWithGemini (textResponse text) repoName c sampled
               = ([GenerateContent repoName c sampled], r)
               ↔ match extractJSON text with
                 | None => Err NoJSONFound
                 | Some extractedJSON =>
                     match Unmarshal_GeminiScore extractedJSON with
                     | None => Err InvalidJSON
                     | Some score => Ok score
                     end
                 end = r) as Hrun.
  { intros r. unfold AnalyzeCommitsWithGemini.
    destruct (Z.eqb_spec c 0); [done|].
    rewrite bool_decide_eq_false_2 by by destruct sampled.
    simpl. split; [by intros [= <-]|by intros <-]. }
  split_and!.
  - intros Hnone. apply Hrun. by rewrite Hnone.
  - intros extractedJSON Hsome. apply Hrun. rewrite Hsome.
    by destruct (Unmarshal_GeminiScore extractedJSON).
  - apply storeScore_object_unparseable.
  - apply storeScore_object_ok.
  - intros extractedJSON Hsome Hparse. apply Hrun. rewrite Hsome.
    unfold Unmarshal_GeminiScore. by rewrite Hparse.
  - intros extractedJSON members key v f Hsome Hparse Hin Hf Hv.
    apply Hrun. rewrite Hsome. unfold Unmarshal_GeminiScore.
    rewrite Hparse. cbn [mbind option_bind].
    by rewrite (storeScore_object_unparseable members key v f Hin Hf Hv).
  - intros extractedJSON members Hsome Hparse Hgood.
    destruct (storeScore_object_ok members Hgood) as (score & Hstore & Ht & Hm).
    exists score. split_and!; [|done|done].
    apply Hrun. rewrite Hsome. unfold Unmarshal_GeminiScore.
    rewrite Hparse. cbn [mbind option_bind]. by rewrite Hstore.
Qed.

Lemma C5_response_parsing_witness :
  let sampled := [ {| SHA := bytes "a1"; Message := []; Diff := [] |} ] in
  AnalyzeCommitsWithGemini (textResponse (bytes "no scores, sorry"))
    (bytes "repo") 5 sampled
  = ([GenerateContent (bytes "repo") 5 sampled], Err NoJSONFound)
  ∧ ∃ score,
      AnalyzeCommitsWithGemini
        (textResponse (bytes "Scores:" ++ [nl] ++ fenceOpen ++ onlyTechnical
                       ++ fenceClose))
        (bytes "repo") 5 sampled
      = ([GenerateContent (bytes "repo") 5 sampled], Ok score)
      ∧ MessageAppropriateness score = 0.
Proof.
  intros sampled. split.
  - apply (proj1 (C5_response_parsing (bytes "repo") 5 sampled
                    (bytes "no scores, sorry") ltac:(discriminate)
                    ltac:(discriminate))).
    vm_compute. reflexivity.
  - destruct (proj2 (proj2 (proj2 (proj2 (proj2 (proj2
                (C5_response_parsing (bytes "repo") 5 sampled
                   (bytes "Scores:" ++ [nl] ++ fenceOpen ++ onlyTechnical
                    ++ fenceClose)
                   ltac:(discriminate) ltac:(discriminate)))))))
                onlyTechnical
                [(bytes "technical_sophistication", json.Number (bytes "7"))])
      as (score & Hrun & _ & Hm).
    + vm_compute. reflexivity.
    + vm_compute. reflexivity.
    + intros key v f Hin _. apply list_elem_of_singleton in Hin.
      injection Hin as -> ->. discriminate.
    + exists score. split; [exact Hrun|].
      apply Hm. repeat constructor. vm_compute. discriminate.
Defined.

(** * Further properties of the code *)

(** ** The SHA enumeration (lines 344-369) *)

Lemma pageSHAs_app a b : pageSHAs (a ++ b) = pageSHAs a ++ pageSHAs b.
Proof. apply omap_app. Qed.

(** The SHAs gathered are those of the first pages of the listing, and,
    for a sample of at most ten, the pages are no longer requested once
    more than 500 SHAs are at hand. *)
Lemma listCommitSHAs_from_prefix total n acc listing allCommitSHAs :
  listCommitSHAs_from total n acc listing = Some allCommitSHAs →
  ∃ k, allCommitSHAs = acc ++ take k (pageSHAs (listedCommits listing)).
Proof.
  revert acc. induction listing as [commits|commits next IH|status err];
    intros acc; simpl.
  - intros [= <-]. exists (length (pageSHAs commits)). by rewrite firstn_all.
  - rewrite pageSHAs_app.
    destruct (_ <=? _).
    { intros [= <-]. exists (length (pageSHAs commits)).
      by rewrite take_app_length. }
    destruct (_ && _).
    { intros [= <-]. exists (length (pageSHAs commits)).
      by rewrite take_app_length. }
    intros H. destruct (IH _ H) as [k ->].
    exists (length (pageSHAs commits) + k)%nat.
    by rewrite take_app_add, <- app_assoc.
  - done.
Qed.

Lemma listCommitSHAs_from_bound total n acc listing allCommitSHAs :
  n ≤ 10 → pagesWithin 100 listing → (length acc ≤ 500)%nat →
  listCommitSHAs_from total n acc listing = Some allCommitSHAs →
  (length allCommitSHAs ≤ 600)%nat.
Proof.
  intros Hn. revert acc.
  induction listing as [commits|commits next IH|status err];
    intros acc Hpages Hacc; simpl in *.
  - intros [= <-]. rewrite length_app.
    pose proof (length_pageSHAs commits). lia.
  - destruct Hpages as [Hpage Hnext].
    pose proof (length_pageSHAs commits) as Hp.
    destruct (_ <=? _).
    { intros [= <-]. rewrite length_app. lia. }
    destruct (Z.ltb_spec 500 (Z.of_nat (length (acc ++ pageSHAs commits))))
      as [Hlong|Hshort]; simpl.
    { destruct (Z.leb_spec n 10); [|lia].
      intros [= <-]. rewrite length_app. lia. }
    apply IH; [done|]. lia.
  - done.
Qed.

Lemma selectSHAs_subseteq rnd allCommitSHAs k sel :
  selectSHAs rnd allCommitSHAs k = Some sel → sel ⊆ allCommitSHAs.
Proof.
  unfold selectSHAs. intros H.
  destruct (selectedIndices _ _ _) as [idx|]; [|done]. simpl in H.
  intros sha Hsha.
  apply list_elem_of_lookup in Hsha as [i Hi].
  rewrite mapM_Some in H.
  destruct (Forall2_lookup_r _ _ _ _ _ H Hi) as (j & _ & Hj).
  by eapply list_elem_of_lookup_2.
Qed.

Lemma fetchDetails_subseteq w limit sel :
  SHA <$> fetchDetails w limit sel ⊆ sel.
Proof.
  rewrite fetchDetails_SHAs. unfold fetchSuccesses.
  intros sha Hsha.
  apply list_elem_of_fmap in Hsha as ([i sha'] & -> & Hin).
  apply list_elem_of_filter in Hin as [_ Hin].
  apply elem_of_lookup_imap in Hin as (j & x & [= -> ->] & Hx).
  by eapply list_elem_of_lookup_2.
Qed.

(** X1.  With a sample size of at most ten and pages of at most 100
    commits, every commit that is packaged for the evaluator is one of
    the first 600 commits that carry a SHA in the listing: later commits
    are never candidates of the sampler. *)
Theorem sampled_among_first_600 w owner repoName n limit total sampled err :
  n ≤ 10 → pagesWithin 100 (shaListing w) →
  GetRepositoryCommitAnalysisData w owner repoName n limit
  = Some (total, sampled, err) →
  Forall (λ c, SHA c ∈ take 600 (pageSHAs (listedCommits (shaListing w))))
    sampled.
Proof.
  intros Hn Hpages Hres.
  pose proof (GetRepositoryCommitAnalysisData_outcome w owner repoName n limit)
    as Hout.
  rewrite Hres in Hout.
  inversion Hout as [| | | |tot allCommitSHAs sel Hc Hne Hs Hnil Hsel|];
    subst; try by constructor.
  assert (length allCommitSHAs ≤ 600)%nat as Hlen.
  { eapply listCommitSHAs_from_bound; [done..| |done]. simpl. lia. }
  destruct (listCommitSHAs_from_prefix _ _ _ _ _ Hs) as [k Hk].
  simpl in Hk.
  apply Forall_forall. intros c Hc'.
  assert (SHA c ∈ allCommitSHAs) as Hin.
  { eapply selectSHAs_subseteq; [done|].
    apply (fetchDetails_subseteq w limit).
    by apply list_elem_of_fmap_2. }
  rewrite Hk in Hin, Hlen.
  rewrite length_take in Hlen.
  apply elem_of_take in Hin as (i & Hi & Hik).
  apply elem_of_take. exists i. split; [done|]. 
  apply lookup_lt_Some in Hi. lia.
Qed.

Lemma sampled_among_first_600_witness :
  Forall (λ c, SHA c ∈ take 600 (pageSHAs (listedCommits fiveCommits)))
    (fetchDetails worldOneFetchFails 100
       [bytes "a1"; bytes "b2"; bytes "c3"; bytes "d4"; bytes "e5"]).
Proof.
  apply (sampled_among_first_600 worldOneFetchFails (bytes "org")
           (bytes "repo") 5 100 5 _ None).
  - lia.
  - simpl. lia.
  - vm_compute. reflexivity.
Defined.

(** ** The diff packager below its limit (lines 416-447) *)

(** The lines of a text, each followed by a line feed, are the text
    followed by a line feed. *)
Lemma renderAll_cons line lines :
  renderAll (ContentLine <$> line :: lines)
  = line ++ nl :: renderAll (ContentLine <$> lines).
Proof. unfold renderAll. simpl. by rewrite <- app_assoc. Qed.

Lemma renderAll_Split patch :
  renderAll (ContentLine <$> strings.Split patch nl) = patch ++ [nl].
Proof.
  induction patch as [|c patch IH]; [done|].
  simpl strings.Split. destruct (decide (c = nl)) as [->|Hc].
  - by rewrite renderAll_cons, IH.
  - destruct (strings.Split patch nl) as [|piece pieces].
    { by destruct patch. }
    rewrite renderAll_cons in *. simpl. by rewrite IH.
Qed.

Lemma writeFiles_within M files b cur :
  0 < M → cur + Z.of_nat (length (patchLines files)) < M →
  writeFiles M files b cur
  = b ++ (patches files ≫= λ patch, patch ++ patchSeparator).
Proof.
  intros HM. revert b cur.
  induction files as [|file files IH]; intros b cur Hcur.
  { simpl. by rewrite app_nil_r. }
  rewrite patchLines_cons in Hcur. simpl writeFiles.
  unfold patches in *. rewrite fmap_cons, filter_cons.
  case_bool_decide as Hp.
  { rewrite decide_False by (intros H; by apply H). by apply IH. }
  rewrite decide_True by done.
  destruct (Z.ltb_spec 0 M); [|lia].
  rewrite length_app in Hcur.
  rewrite writePatchLines_all by lia.
  destruct (Z.ltb_spec (cur + Z.of_nat (length (strings.Split (GetPatch file) nl))) M);
    [|lia].
  rewrite IH by lia. rewrite renderAll_Split.
  simpl. by rewrite <- !app_assoc.
Qed.

Lemma Split_length patch : (1 ≤ length (strings.Split patch nl))%nat.
Proof.
  induction patch as [|c patch IH]; simpl; [lia|].
  destruct (decide (c = nl)); simpl; [lia|].
  destruct (strings.Split patch nl); simpl; lia.
Qed.

Lemma writeFiles_no_patch M files b cur :
  patches files = [] → writeFiles M files b cur = b.
Proof.
  unfold patches. induction files as [|file files IH]; [done|].
  rewrite fmap_cons, filter_cons. simpl writeFiles.
  case_bool_decide as Hp.
  - rewrite decide_False by (intros H; by apply H). apply IH.
  - by rewrite decide_True by done.
Qed.

Lemma patchLines_nil files : patchLines files = [] → patches files = [].
Proof.
  unfold patchLines. destruct (patches files) as [|patch ps]; [done|].
  simpl. pose proof (Split_length patch) as H. intros Hnil.
  apply (f_equal length) in Hnil. rewrite length_app in Hnil.
  simpl in Hnil. lia.
Qed.

(** At the limit exactly, every line is written and the last one is not
    followed by a separator. *)
Lemma writeFiles_at_limit M files b cur :
  0 < M → cur < M → cur + Z.of_nat (length (patchLines files)) = M →
  writeFiles M files b cur = b ++ Join (patches files) patchSeparator ++ [nl].
Proof.
  intros HM. revert b cur.
  induction files as [|file files IH]; intros b cur Hcur Hlen.
  { simpl in Hlen. lia. }
  rewrite patchLines_cons in Hlen. simpl writeFiles.
  unfold patches in *. rewrite fmap_cons, filter_cons.
  case_bool_decide as Hp.
  { rewrite decide_False by (intros H; by apply H). by apply IH. }
  rewrite decide_True by done.
  destruct (Z.ltb_spec 0 M); [|lia].
  rewrite length_app in Hlen.
  rewrite writePatchLines_all by lia.
  rewrite renderAll_Split.
  set (cur' := cur + Z.of_nat (length (strings.Split (GetPatch file) nl))) in *.
  fold (patches files) in *.
  destruct (Z.ltb_spec cur' M) as [Hmore|Hfull].
  - rewrite IH by lia.
    assert (patches files ≠ []) as Hne.
    { intros Hnil. unfold patchLines in Hlen. rewrite Hnil in Hlen.
      simpl in Hlen. lia. }
    destruct (patches files) as [|q ps] eqn:Hps; [done|].
    change (Join (GetPatch file :: q :: ps) patchSeparator)
      with (GetPatch file ++ patchSeparator ++ Join (q :: ps) patchSeparator).
    rewrite <- !app_assoc. done.
  - rewrite writeFiles_no_patch.
    2:{ apply patchLines_nil. destruct (patchLines files); [done|].
        simpl in Hlen. lia. }
    rewrite (patchLines_nil files).
    2:{ destruct (patchLines files); [done|]. simpl in Hlen. lia. }
    done.
Qed.

(** X2.  When the patches of a commit have fewer lines than a positive
    limit, the limit plays no role: the packaged diff is every patch in
    full, joined by the separator, as without a limit, and no marker is
    written.  When they have exactly as many lines as the limit, no
    marker is written either, and the packaged diff is the same text
    followed by a line feed, from which a trailing separator is trimmed
    (so a last line made of three dashes is lost). *)
Theorem packageDiff_within_limit_exact (files : list CommitFile) (M : Z) :
  0 < M →
  (Z.of_nat (length (patchLines files)) < M →
   packageDiff M files = Join (patches files) patchSeparator
   ∧ packageDiff M files = packageDiff 0 files)
  ∧ (Z.of_nat (length (patchLines files)) = M →
     packageDiff M files
     = strings.TrimSuffix (Join (patches files) patchSeparator ++ [nl])
         patchSeparator).
Proof.
  intros HM. split; intros Hlen; unfold packageDiff.
  - rewrite writeFiles_within by lia.
    rewrite (writeFiles_unlimited 0) by lia.
    split; [|done]. simpl. apply TrimSuffix_joined.
  - by rewrite writeFiles_at_limit by lia.
Qed.

Lemma packageDiff_within_limit_exact_witness :
  let files := [ {| Patch := Some (bytes "a" ++ [nl] ++ bytes "b") |};
                 {| Patch := None |};
                 {| Patch := Some (bytes "---") |} ] in
  (Z.of_nat (length (patchLines files)) < 3 →
   packageDiff 3 files = Join (patches files) patchSeparator
   ∧ packageDiff 3 files = packageDiff 0 files)
  ∧ (Z.of_nat (length (patchLines files)) = 3 →
     packageDiff 3 files
     = strings.TrimSuffix (Join (patches files) patchSeparator ++ [nl])
         patchSeparator).
Proof.
  intros files. apply (packageDiff_within_limit_exact files 3). lia.
Defined.

(** ** The loop of [main]: what is recorded and what is asked *)

Lemma fetchDetails_all_fail w limit sel :
  (∀ i sha, GetCommit w i sha = None) → fetchDetails w limit sel = [].
Proof.
  intros Hfail. unfold fetchDetails.
  generalize (imap pair sel). intros l.
  induction l as [|[i sha] l IH]; [done|].
  change (omap ?f ((i, sha) :: l))
    with (match f (i, sha) with Some y => y :: omap f l | None => omap f l end).
  simpl. by rewrite Hfail.
Qed.

(** X3.  A repository whose commits were counted but of which no commit
    could be packaged, because the SHA listing failed or because every
    detail request failed, is recorded with technical score 1 and message
    score 0, and the evaluator is not called. *)
Theorem no_sample_gives_low_scores organization repo total :
  RepoName repo ≠ [] →
  (∀ max, 0 < max → 0 ≤ randInt (github repo) max < max) →
  countAllCommits organization (RepoName repo) (countListing (github repo))
  = (total, None) →
  total ≠ 0 →
  listCommitSHAs_from total numRandomCommitsToAnalyze []
    (shaListing (github repo)) = None
  ∨ (∀ i sha, GetCommit (github repo) i sha = None) →
  processRepo organization repo
  = Some (Some {| Name := RepoName repo;
                  CommitCount := total;
                  TechnicalScore := 1;
                  MessageScore := 0;
                  OverallScore :=
                    overallScore total
                      {| TechnicalSophistication := 1;
                         MessageAppropriateness := 0 |};
                  AnalyzedCommitsCount := 0;
                  SampledCommits := [] |}, []).
Proof.
  intros Hname Hrand Hcount Hne Hwhy.
  assert (GetRepositoryCommitAnalysisData (github repo) organization
            (RepoName repo) numRandomCommitsToAnalyze diffLinesLimit
          = Some (total, [], None)) as Hdata.
  { unfold GetRepositoryCommitAnalysisData. rewrite Hcount.
    destruct (Z.eqb_spec total 0); [done|].
    destruct (listCommitSHAs_from _ _ _ _) as [allCommitSHAs|] eqn:Hshas;
      [|done].
    destruct Hwhy as [|Hfail]; [done|].
    case_bool_decide; [done|].
    destruct (selectSHAs_defined (randInt (github repo)) Hrand allCommitSHAs
                numRandomCommitsToAnalyze ltac:(done)) as [sel ->].
    simpl. by rewrite fetchDetails_all_fail. }
  unfold processRepo. rewrite bool_decide_eq_false_2 by done.
  rewrite Hdata. simpl.
  destruct (Z.eqb_spec total 0); [done|].
  unfold AnalyzeCommitsWithGemini.
  destruct (Z.eqb_spec total 0); [done|]. done.
Qed.

Lemma no_sample_gives_low_scores_witness :
  processRepo (bytes "org") unlistedRepository
  = Some (Some {| Name := bytes "archive";
                  CommitCount := 5;
                  TechnicalScore := 1;
                  MessageScore := 0;
                  OverallScore :=
                    overallScore 5
                      {| TechnicalSophistication := 1;
                         MessageAppropriateness := 0 |};
                  AnalyzedCommitsCount := 0;
                  SampledCommits := [] |}, []).
Proof.
  apply (no_sample_gives_low_scores (bytes "org") unlistedRepository 5).
  - discriminate.
  - simpl. intros. lia.
  - vm_compute. reflexivity.
  - lia.
  - left. vm_compute. reflexivity.
Defined.

Lemma processRepo_calls organization repo score calls :
  processRepo organization repo = Some (score, calls) →
  calls = from_option (λ rs, option_list (callOf rs)) [] score.
Proof.
  unfold processRepo. case_bool_decide as Hname.
  { by intros [= <- <-]. }
  destruct (GetRepositoryCommitAnalysisData _ _ _ _ _)
    as [[[total sampled] err]|]; [|done].
  simpl. destruct err as [e|].
  { by intros [= <- <-]. }
  destruct (Z.eqb_spec total 0) as [->|Hne].
  { by intros [= <- <-]. }
  unfold AnalyzeCommitsWithGemini.
  destruct (Z.eqb_spec total 0) as [|_]; [done|].
  assert (∀ t m o,
    callOf {| Name := RepoName repo; CommitCount := total;
              TechnicalScore := t; MessageScore := m; OverallScore := o;
              AnalyzedCommitsCount := Z.of_nat (length sampled);
              SampledCommits := sampled |}
    = if bool_decide (length sampled = O) then None
      else Some (GenerateContent (RepoName repo) total sampled)) as Hcall.
  { intros. unfold callOf. simpl.
    destruct (Z.eqb_spec total 0); [done|]. simpl.
    destruct sampled; by simpl. }
  case_bool_decide as Hlen.
  - intros [= <- <-]. simpl. by rewrite Hcall.
  - destruct (gemini repo) as [resp|]; [destruct (parseResponse resp)|];
      intros [= <- <-]; simpl; by rewrite Hcall.
Qed.

(** X4.  The evaluator calls of a run are, in the order of the
    repositories, one call for each recorded repository that has commits
    and a non-empty sample, made with the name, the commit count and the
    sample that are recorded; no other repository costs a call. *)
Theorem evaluator_calls_of_run organization repos repoScores calls :
  processRepos organization repos = Some (repoScores, calls) →
  calls = omap callOf repoScores.
Proof.
  revert repoScores calls.
  induction repos as [|repo repos IH]; intros repoScores calls; simpl.
  { by intros [= <- <-]. }
  destruct (processRepo organization repo) as [[score calls1]|] eqn:Hrepo;
    [|done].
  destruct (processRepos organization repos) as [[scores calls2]|]; [|done].
  simpl. intros [= <- <-].
  rewrite (processRepo_calls _ _ _ _ Hrepo), (IH _ _ eq_refl).
  destruct score as [rs|]; [|done]. simpl.
  change (omap callOf (rs :: scores))
    with (match callOf rs with
          | Some y => y :: omap callOf scores
          | None => omap callOf scores
          end).
  by destruct (callOf rs).
Qed.

Lemma evaluator_calls_of_run_witness :
  ∃ repoScores calls,
    processRepos (bytes "org") rankedRepositories = Some (repoScores, calls)
    ∧ length calls = 3%nat
    ∧ calls = omap callOf repoScores.
Proof.
  eexists _, _. split; [vm_compute; reflexivity|].
  split; [vm_compute; reflexivity|].
  apply (evaluator_calls_of_run (bytes "org") rankedRepositories).
  vm_compute. reflexivity.
Defined.

(** X5.  Under the contract of [rand.Int] the run does not panic, and its
    ranking has exactly one row for each repository that has a name:
    failures of the API or of the evaluator neither remove nor repeat a
    row. *)
Theorem ranking_rows organization repos :
  Forall (λ repo, ∀ max, 0 < max → 0 ≤ randInt (github repo) max < max)
    repos →
  ∃ ranking calls,
    main organization repos = Some (ranking, calls)
    ∧ Name <$> ranking ≡ₚ filter (λ name, name ≠ []) (RepoName <$> repos).
Proof.
  intros Hrand.
  destruct (processRepos_contained organization repos Hrand)
    as (repoScores & calls & Hrun & Hnames).
  exists (sort.SliceStable byOverallScoreDesc repoScores), calls.
  unfold main. rewrite Hrun. split; [done|].
  rewrite <- Hnames. apply fmap_Permutation, SliceStable_perm.
Qed.

Lemma ranking_rows_witness :
  ∃ ranking calls,
    main (bytes "org") rankedRepositories = Some (ranking, calls)
    ∧ Name <$> ranking
      ≡ₚ filter (λ name, name ≠ []) (RepoName <$> rankedRepositories).
Proof.
  apply (ranking_rows (bytes "org") rankedRepositories).
  repeat constructor; simpl; intros; lia.
Defined.

(** ** Finding the JSON text in the evaluator's answer (lines 202-220) *)

Lemma Index_unfold s substr :
  strings.Index s substr
  = if strings.HasPrefix s substr then Some O
    else match s with
         | [] => None
         | _ :: s' => S <$> strings.Index s' substr
         end.
Proof. by destruct s. Qed.

Lemma HasPrefix_app s rest : strings.HasPrefix (s ++ rest) s = true.
Proof.
  unfold strings.HasPrefix. rewrite length_app.
  apply andb_true_iff. split; [apply Nat.leb_le; lia|].
  apply bool_decide_eq_true. apply take_app_length.
Qed.

Lemma HasPrefix_cons_ne c s c0 substr :
  c ≠ c0 → strings.HasPrefix (c :: s) (c0 :: substr) = false.
Proof.
  intros Hc. unfold strings.HasPrefix. simpl.
  rewrite bool_decide_eq_false_2; [by rewrite andb_false_r|].
  by intros [= ? _].
Qed.

Lemma HasPrefix_second_ne c c' s c0 c1 substr :
  c' ≠ c1 → strings.HasPrefix (c :: c' :: s) (c0 :: c1 :: substr) = false.
Proof.
  intros Hc. unfold strings.HasPrefix. simpl.
  rewrite bool_decide_eq_false_2; [by rewrite andb_false_r|].
  by intros [= _ ? _].
Qed.

(** The first occurrence of a text whose first byte does not occur
    before it. *)
Lemma Index_after_free_prefix pre c0 substr rest :
  c0 ∉ pre →
  strings.Index (pre ++ (c0 :: substr) ++ rest) (c0 :: substr)
  = Some (length pre).
Proof.
  induction pre as [|c pre IH]; intros Hfree.
  - rewrite app_nil_l, Index_unfold. by rewrite HasPrefix_app.
  - apply not_elem_of_cons in Hfree as [Hc Hfree].
    rewrite Index_unfold. rewrite <- app_comm_cons.
    rewrite HasPrefix_cons_ne by done.
    by rewrite IH.
Qed.

(** The first occurrence of a text whose second byte differs from its
    first and does not occur before it. *)
Lemma Index_after_free_body body c0 c1 substr rest :
  c1 ≠ c0 → c1 ∉ body →
  strings.Index (body ++ (c0 :: c1 :: substr) ++ rest) (c0 :: c1 :: substr)
  = Some (length body).
Proof.
  intros Hne. induction body as [|c body IH]; intros Hfree.
  - rewrite app_nil_l, Index_unfold. by rewrite HasPrefix_app.
  - apply not_elem_of_cons in Hfree as [Hc Hfree].
    rewrite Index_unfold.
    assert (strings.HasPrefix ((c :: body) ++ (c0 :: c1 :: substr) ++ rest)
              (c0 :: c1 :: substr) = false) as ->.
    { destruct body as [|c' body]; simpl.
      - by apply HasPrefix_second_ne.
      - apply HasPrefix_second_ne. intros ->. apply Hfree. by left. }
    rewrite <- app_comm_cons. by rewrite IH.
Qed.

Lemma findFencedJSON_block pre body post :
  "`"%char ∉ pre → "`"%char ∉ body →
  findFencedJSON (pre ++ fenceOpen ++ body ++ fenceClose ++ post) = Some body.
Proof.
  intros Hpre Hbody. unfold findFencedJSON.
  pose proof (Index_after_free_prefix pre "`"%char (bytes "``json" ++ [nl])
                (body ++ fenceClose ++ post) Hpre) as Hopen.
  change ("`"%char :: bytes "``json" ++ [nl]) with fenceOpen in Hopen.
  rewrite Hopen. cbn [mbind option_bind].
  rewrite <- drop_drop, !drop_app_length.
  pose proof (Index_after_free_body body nl "`"%char (bytes "``") post
                ltac:(done) Hbody) as Hclose.
  change (nl :: "`"%char :: bytes "``") with fenceClose in Hclose.
  rewrite Hclose. cbn [mbind option_bind]. by rewrite take_app_length.
Qed.

(** X6.  When the answer holds a fenced block and no backquote stands
    before the block or inside it, the text that is decoded is the inside
    of the block, trimmed: what precedes and follows the block, the other
    parts of the answer and its other candidates are not read. *)
Theorem fenced_block_is_decoded pre body post parts candidates :
  "`"%char ∉ pre → "`"%char ∉ body →
  extractJSON (pre ++ fenceOpen ++ body ++ fenceClose ++ post)
  = Some (strings.TrimSpace body)
  ∧ parseResponse
      {| Candidates :=
           {| CandidateContent :=
                Some {| Parts :=
                          Text (pre ++ fenceOpen ++ body ++ fenceClose ++ post)
                          :: parts |} |} :: candidates |}
    = match Unmarshal_GeminiScore (strings.TrimSpace body) with
      | Some score => Ok score
      | None => Err InvalidJSON
      end.
Proof.
  intros Hpre Hbody.
  assert (extractJSON (pre ++ fenceOpen ++ body ++ fenceClose ++ post)
          = Some (strings.TrimSpace body)) as Hex.
  { unfold extractJSON. by rewrite findFencedJSON_block. }
  split; [done|]. unfold parseResponse.
  cbn [Candidates CandidateContent Parts]. by rewrite Hex.
Qed.

Lemma fenced_block_is_decoded_witness :
  let pre := bytes "Here is my evaluation:" ++ [nl] in
  let body := scoreJSON "7" "8" ++ [nl] in
  let post := [nl] ++ bytes "Both scores are out of 10." in
  extractJSON (pre ++ fenceOpen ++ body ++ fenceClose ++ post)
  = Some (strings.TrimSpace body)
  ∧ parseResponse
      {| Candidates :=
           {| CandidateContent :=
                Some {| Parts :=
                          Text (pre ++ fenceOpen ++ body ++ fenceClose ++ post)
                          :: [OtherPart] |} |} :: [] |}
    = match Unmarshal_GeminiScore (strings.TrimSpace body) with
      | Some score => Ok score
      | None => Err InvalidJSON
      end.
Proof.
  intros pre body post.
  apply (fenced_block_is_decoded pre body post [OtherPart] []);
    apply (bool_decide_unpack _); vm_compute; exact I.
Defined.

Lemma skipRegexpSpace_spec s :
  ∃ sp, s = sp ++ skipRegexpSpace s
        ∧ Forall (λ c, isRegexpSpace c = true) sp.
Proof.
  induction s as [|c s (sp & Hs & Hsp)]; [by exists []|].
  simpl. destruct (isRegexpSpace c) eqn:Hc.
  - exists (c :: sp). split; [simpl; by f_equal|by constructor].
  - by exists [].
Qed.

Lemma Index_byte s c j :
  strings.Index s [c] = Some j →
  (c ∉ take j s) ∧ s = take j s ++ c :: drop (S j) s.
Proof.
  revert j. induction s as [|c' s IH]; intros j.
  { by rewrite Index_unfold. }
  rewrite Index_unfold.
  destruct (strings.HasPrefix (c' :: s) [c]) eqn:Hp.
  - intros [= <-]. simpl. split; [apply not_elem_of_nil|].
    unfold strings.HasPrefix in Hp. simpl in Hp.
    apply bool_decide_eq_true in Hp. rewrite take_0 in Hp.
    by rewrite drop_0; injection Hp as ->.
  - destruct (strings.Index s [c]) as [j'|] eqn:Hj; [|done].
    intros [= <-]. destruct (IH j' eq_refl) as [Hfree Hs]. simpl. split.
    + apply not_elem_of_cons. split; [|done]. intros ->.
      unfold strings.HasPrefix in Hp. simpl in Hp.
      rewrite take_0, bool_decide_eq_true_2 in Hp; done.
    + by f_equal.
Qed.

(** A match of the second expression at the start of [s]: white space,
    the opening brace, white space, one of the two keys, a text without
    closing brace, the closing brace, white space. *)
Lemma matchBareJSONAt_spec s m :
  matchBareJSONAt s = Some m →
  ∃ sp1 sp2 key mid sp3 rest,
    s = m ++ rest
    ∧ m = sp1 ++ "{"%char :: sp2 ++ key ++ mid ++ "}"%char :: sp3
    ∧ Forall (λ c, isRegexpSpace c = true) sp1
    ∧ Forall (λ c, isRegexpSpace c = true) sp2
    ∧ Forall (λ c, isRegexpSpace c = true) sp3
    ∧ (key = keyTechnical ∨ key = keyMessage)
    ∧ "}"%char ∉ mid.
Proof.
  unfold matchBareJSONAt.
  destruct (skipRegexpSpace_spec s) as (sp1 & Hs & Hsp1).
  destruct (skipRegexpSpace s) as [|c r0]; [done|].
  destruct (decide (c = "{"%char)) as [->|]; [|done].
  destruct (skipRegexpSpace_spec r0) as (sp2 & Hr0 & Hsp2).
  set (r1 := skipRegexpSpace r0) in *.
  destruct (if strings.HasPrefix r1 keyTechnical then Some keyTechnical
            else if strings.HasPrefix r1 keyMessage then Some keyMessage
            else None) as [key|] eqn:Hkey; [|done].
  assert ((key = keyTechnical ∨ key = keyMessage)
          ∧ r1 = key ++ drop (length key) r1) as [Hk Hr1].
  { assert (∀ k, strings.HasPrefix r1 k = true → r1 = k ++ drop (length k) r1)
      as Hprefix.
    { intros k Hp. unfold strings.HasPrefix in Hp.
      apply andb_true_iff in Hp as [_ Hp].
      apply bool_decide_eq_true in Hp.
      rewrite <- Hp at 1. by rewrite take_drop. }
    destruct (strings.HasPrefix r1 keyTechnical) eqn:H1.
    { injection Hkey as <-. split; [by left|by apply Hprefix]. }
    destruct (strings.HasPrefix r1 keyMessage) eqn:H2; [|done].
    injection Hkey as <-. split; [by right|by apply Hprefix]. }
  cbn [mbind option_bind].
  set (r2 := drop (length key) r1) in *.
  destruct (strings.Index r2 (bytes "}")) as [j|] eqn:Hj; [|done].
  cbn [mbind option_bind].
  apply Index_byte in Hj as [Hmid Hr2].
  destruct (skipRegexpSpace_spec (drop (S j) r2)) as (sp3 & Hr3 & Hsp3).
  set (rest := skipRegexpSpace (drop (S j) r2)) in *.
  intros [= <-].
  assert (s = (sp1 ++ "{"%char :: sp2 ++ key ++ take j r2 ++ "}"%char :: sp3)
              ++ rest) as Hall.
  { rewrite Hs, Hr0, Hr1, Hr2 at 1. rewrite Hr3 at 1.
    rewrite <- !app_assoc. simpl. do 2 f_equal.
    rewrite <- !app_assoc. simpl. done. }
  exists sp1, sp2, key, (take j r2), sp3, rest.
  assert (take (length s - length rest) s
          = sp1 ++ "{"%char :: sp2 ++ key ++ take j r2 ++ "}"%char :: sp3)
    as ->.
  { rewrite Hall at 2. rewrite Hall at 1.
    rewrite length_app. rewrite take_app_length'; [done|lia]. }
  by split_and!.
Qed.

Lemma findBareJSON_spec s m :
  findBareJSON s = Some m →
  ∃ before s', s = before ++ s' ∧ matchBareJSONAt s' = Some m.
Proof.
  induction s as [|c s IH].
  - done.
  - simpl. destruct (matchBareJSONAt (c :: s)) eqn:Hm.
    + intros [= <-]. by exists [], (c :: s).
    + intros H. destruct (IH H) as (before & s' & -> & Hs').
      by exists (c :: before), s'.
Qed.

Lemma spaceWidth_space c s : isRegexpSpace c = true → strings.spaceWidth (c :: s) = 1%nat.
Proof.
  unfold isRegexpSpace, strings.spaceWidth. rewrite fmap_cons.
  generalize (Z_of_byte c). intros z Hz.
  repeat (apply orb_true_iff in Hz as [Hz|Hz]);
    apply Z.eqb_eq in Hz; by subst.
Qed.

Lemma spaceWidthRight_space c s :
  isRegexpSpace c = true → strings.spaceWidthRight (s ++ [c]) = 1%nat.
Proof.
  unfold isRegexpSpace, strings.spaceWidthRight.
  rewrite reverse_snoc, fmap_cons.
  generalize (Z_of_byte c). intros z Hz.
  repeat (apply orb_true_iff in Hz as [Hz|Hz]);
    apply Z.eqb_eq in Hz; by subst.
Qed.

Lemma trimLeft_spaces fuel sp t :
  (length sp ≤ fuel)%nat → Forall (λ c, isRegexpSpace c = true) sp →
  strings.spaceWidth t = O →
  strings.trimLeft fuel (sp ++ t) = t.
Proof.
  intros Hfuel Hsp Ht. revert fuel Hfuel.
  induction Hsp as [|c sp Hc Hsp IH]; intros fuel Hfuel.
  - destruct fuel; simpl; [done|]. by rewrite Ht.
  - destruct fuel as [|fuel]; simpl in Hfuel; [lia|].
    simpl. rewrite spaceWidth_space by done.
    simpl. rewrite drop_0. apply IH. lia.
Qed.

Lemma trimRight_spaces fuel sp t :
  (length sp ≤ fuel)%nat → Forall (λ c, isRegexpSpace c = true) sp →
  strings.spaceWidthRight t = O →
  strings.trimRight fuel (t ++ sp) = t.
Proof.
  intros Hfuel Hsp Ht. revert fuel Hfuel.
  induction sp as [|c sp IH] using rev_ind; intros fuel Hfuel.
  - rewrite app_nil_r. destruct fuel; simpl; [done|]. by rewrite Ht.
  - apply Forall_app in Hsp as [Hsp Hc]. apply Forall_inv in Hc.
    rewrite length_app in Hfuel. simpl in Hfuel.
    destruct fuel as [|fuel]; [lia|].
    simpl. rewrite app_assoc, spaceWidthRight_space by done.
    rewrite length_app. simpl.
    rewrite take_app_length' by lia. apply IH; [done|lia].
Qed.

(** A closing brace is no white space, whatever stands before it. *)
Lemma spaceWidthRight_brace s :
  strings.spaceWidthRight (s ++ ["}"%char]) = O.
Proof.
  unfold strings.spaceWidthRight. rewrite reverse_snoc, fmap_cons.
  generalize (Z_of_byte <$> reverse s). intros l.
  change (Z_of_byte "}"%char) with 125.
  destruct l as [|z1 l]; [reflexivity|].
  destruct z1 as [|p|p]; try reflexivity.
  repeat (destruct p as [p|p|]; try reflexivity).
  destruct l as [|z2 l]; [reflexivity|].
  destruct z2 as [|p|p]; try reflexivity.
  repeat (destruct p as [p|p|]; try reflexivity).
Qed.

Lemma TrimSpace_object sp1 inside sp3 :
  Forall (λ c, isRegexpSpace c = true) sp1 →
  Forall (λ c, isRegexpSpace c = true) sp3 →
  strings.TrimSpace (sp1 ++ ("{"%char :: inside ++ ["}"%char]) ++ sp3)
  = "{"%char :: inside ++ ["}"%char].
Proof.
  intros Hsp1 Hsp3. unfold strings.TrimSpace.
  rewrite trimLeft_spaces; [|rewrite length_app; lia|done|reflexivity].
  rewrite trimRight_spaces; [done|rewrite length_app; lia|done|].
  apply (spaceWidthRight_brace ("{"%char :: inside)).
Qed.

(** X7.  When the answer holds no fenced block, the text that is decoded
    is a piece of the answer that starts with an opening brace followed,
    after white space only, by one of the two keys, and that ends at the
    first closing brace after the key: it holds no other closing brace,
    so an object with a nested object, or with a closing brace inside a
    string, is never decoded whole. *)
Theorem bare_json_ends_at_first_brace jsonResponse extractedJSON :
  findFencedJSON jsonResponse = None →
  extractJSON jsonResponse = Some extractedJSON →
  ∃ before sp key inside after,
    jsonResponse = before ++ extractedJSON ++ after
    ∧ extractedJSON = "{"%char :: sp ++ key ++ inside ++ ["}"%char]
    ∧ Forall (λ c, isRegexpSpace c = true) sp
    ∧ (key = keyTechnical ∨ key = keyMessage)
    ∧ "}"%char ∉ inside.
Proof.
  intros Hfence. unfold extractJSON. rewrite Hfence.
  destruct (findBareJSON jsonResponse) as [m|] eqn:Hm; [|done].
  intros [= <-].
  destruct (findBareJSON_spec _ _ Hm) as (before & s' & -> & Hs').
  destruct (matchBareJSONAt_spec _ _ Hs')
    as (sp1 & sp2 & key & mid & sp3 & rest & -> & -> & H1 & H2 & H3 & Hk & Hmid).
  replace (sp1 ++ "{"%char :: sp2 ++ key ++ mid ++ "}"%char :: sp3)
    with (sp1 ++ ("{"%char :: (sp2 ++ key ++ mid) ++ ["}"%char]) ++ sp3).
  2:{ simpl. rewrite <- !app_assoc. done. }
  rewrite TrimSpace_object by done.
  exists (before ++ sp1), sp2, key, mid, (sp3 ++ rest).
  split_and!; try done.
  - rewrite <- !app_assoc. simpl. by rewrite <- !app_assoc.
  - simpl. by rewrite <- !app_assoc.
Qed.

Lemma bare_json_ends_at_first_brace_witness :
  let decoded :=
    bytes "{" ++ keyTechnical ++ bytes ": 7, "
    ++ dquote :: bytes "detail" ++ [dquote] ++ bytes ": {}" in
  ∃ before sp key inside after,
    nestedAnswer = before ++ decoded ++ after
    ∧ decoded = "{"%char :: sp ++ key ++ inside ++ ["}"%char]
    ∧ Forall (λ c, isRegexpSpace c = true) sp
    ∧ (key = keyTechnical ∨ key = keyMessage)
    ∧ "}"%char ∉ inside.
Proof.
  intros decoded.
  apply (bare_json_ends_at_first_brace nestedAnswer decoded);
    vm_compute; reflexivity.
Defined.

(** ** Counting and listing (lines 232-338) *)

Lemma Index_Some s substr i :
  strings.Index s substr = Some i →
  s = take i s ++ substr ++ drop (i + length substr) s.
Proof.
  revert i. induction s as [|c s IH]; intros i; rewrite Index_unfold.
  - destruct (strings.HasPrefix [] substr) eqn:Hp; [|done].
    intros [= <-]. unfold strings.HasPrefix in Hp.
    apply andb_true_iff in Hp as [_ Hp]. apply bool_decide_eq_true in Hp.
    rewrite <- Hp at 1. by rewrite take_drop.
  - destruct (strings.HasPrefix (c :: s) substr) eqn:Hp.
    + intros [= <-]. unfold strings.HasPrefix in Hp.
      apply andb_true_iff in Hp as [_ Hp]. apply bool_decide_eq_true in Hp.
      rewrite take_0. simpl. rewrite <- Hp at 1. by rewrite take_drop.
    + destruct (strings.Index s substr) as [j|]; [|done].
      intros [= <-]. simpl. f_equal. by apply IH.
Qed.

Lemma Index_infix pre substr post :
  is_Some (strings.Index (pre ++ substr ++ post) substr).
Proof.
  induction pre as [|c pre IH]; rewrite Index_unfold.
  - rewrite app_nil_l, HasPrefix_app. by eexists.
  - destruct (strings.HasPrefix _ _); [by eexists|].
    rewrite <- app_comm_cons. by apply fmap_is_Some.
Qed.

(** [strings.Contains(s, substr)] holds exactly when [substr] stands
    somewhere in [s]. *)
Lemma Contains_infix s substr :
  strings.Contains s substr = true ↔ ∃ pre post, s = pre ++ substr ++ post.
Proof.
  unfold strings.Contains. rewrite bool_decide_eq_true. split.
  - intros [i Hi]. apply Index_Some in Hi. by eexists _, _.
  - intros (pre & post & ->). apply Index_infix.
Qed.

Lemma Contains_app_l s substr post :
  strings.Contains s substr = true →
  strings.Contains (s ++ post) substr = true.
Proof.
  rewrite !Contains_infix. intros (a & b & ->).
  exists a, (b ++ post). by rewrite <- !app_assoc.
Qed.

Lemma Contains_app_r s substr pre :
  strings.Contains s substr = true →
  strings.Contains (pre ++ s) substr = true.
Proof.
  rewrite !Contains_infix. intros (a & b & ->).
  exists (pre ++ a), b. by rewrite <- !app_assoc.
Qed.

(** The first of the two tests of lines 331-333 adds nothing to the
    second: the message it compares with holds [409]. *)
Lemma countErrorIgnored_Contains owner repoName e :
  countErrorIgnored owner repoName 0 e = strings.Contains e (bytes "409").
Proof.
  unfold countErrorIgnored. simpl (0 =? 0). rewrite !andb_true_r.
  case_bool_decide as He; [|done]. simpl. symmetry. subst e.
  do 8 apply Contains_app_r. reflexivity.
Qed.

Lemma countAllCommits_from_result owner repoName acc listing :
  countAllCommits_from owner repoName acc listing
  = match listingError listing with
    | None => (acc + Z.of_nat (length (listedCommits listing)), None)
    | Some (statusCode, err) =>
        (0, if bool_decide (statusCode = Some 409) then None
            else Some (bytes "failed to list commits for " ++ owner
                       ++ bytes "/" ++ repoName
                       ++ bytes " during full count: " ++ err))
    end.
Proof.
  revert acc. induction listing as [commits|commits next IH|status err];
    intros acc; simpl.
  - done.
  - rewrite IH. destruct (listingError next) as [[??]|]; [done|].
    rewrite length_app. f_equal. lia.
  - by case_bool_decide.
Qed.

(** X8.  [countAllCommits] returns the number of commits of all the
    pages when no request fails.  When a request fails, on whatever page,
    the commits counted so far are dropped and the count is 0: without an
    error when the status is 409, with the API's message wrapped
    otherwise. *)
Theorem countAllCommits_result owner repoName listing :
  countAllCommits owner repoName listing
  = match listingError listing with
    | None => (Z.of_nat (length (listedCommits listing)), None)
    | Some (statusCode, err) =>
        (0, if bool_decide (statusCode = Some 409) then None
            else Some (bytes "failed to list commits for " ++ owner
                       ++ bytes "/" ++ repoName
                       ++ bytes " during full count: " ++ err))
    end.
Proof. apply countAllCommits_from_result. Qed.

(** X9.  When the count fails, [GetRepositoryCommitAnalysisData] reports
    the failure exactly when the text of the error does not hold [409];
    that text holds the owner and the name of the repository, so when
    either holds [409] no failure of the count is ever reported: the
    repository is returned as one without commits. *)
Theorem count_failure_reported_unless_409 w owner repoName n limit total e :
  countAllCommits owner repoName (countListing w) = (total, Some e) →
  GetRepositoryCommitAnalysisData w owner repoName n limit
  = Some (0, [],
          if strings.Contains e (bytes "409") then None
          else Some (bytes "error counting all commits for " ++ owner
                     ++ bytes "/" ++ repoName ++ bytes ": " ++ e))
  ∧ (strings.Contains owner (bytes "409") = true
     ∨ strings.Contains repoName (bytes "409") = true →
     strings.Contains e (bytes "409") = true).
Proof.
  intros Hcount.
  pose proof (countAllCommits_error _ _ _ _ _ Hcount) as ->.
  split.
  - unfold GetRepositoryCommitAnalysisData. rewrite Hcount.
    rewrite countErrorIgnored_Contains.
    by destruct (strings.Contains e (bytes "409")).
  - unfold countAllCommits in Hcount.
    rewrite countAllCommits_from_result in Hcount.
    destruct (listingError (countListing w)) as [[status err]|]; [|done].
    case_bool_decide; [done|].
    apply (f_equal snd) in Hcount. cbn [snd] in Hcount.
    apply (inj Some) in Hcount. subst e.
    intros [Ho|Hr].
    + apply Contains_app_r. by apply Contains_app_l.
    + do 3 apply Contains_app_r. by apply Contains_app_l.
Qed.

Lemma count_failure_reported_unless_409_witness :
  let e := bytes "failed to list commits for org/api-v409 during full count: "
           ++ bytes "500 Internal Server Error" in
  GetRepositoryCommitAnalysisData worldCountFails (bytes "org")
    (bytes "api-v409") 5 100
  = Some (0, [],
          if strings.Contains e (bytes "409") then None
          else Some (bytes "error counting all commits for " ++ bytes "org"
                     ++ bytes "/" ++ bytes "api-v409" ++ bytes ": " ++ e))
  ∧ (strings.Contains (bytes "org") (bytes "409") = true
     ∨ strings.Contains (bytes "api-v409") (bytes "409") = true →
     strings.Contains e (bytes "409") = true).
Proof.
  intros e.
  apply (count_failure_reported_unless_409 worldCountFails (bytes "org")
           (bytes "api-v409") 5 100 0 e).
  vm_compute. reflexivity.
Defined.

Lemma GetOrganizationRepos_from_result {R} orgName (acc : list R) listing :
  GetOrganizationRepos_from orgName acc listing
  = match repoListingError listing with
    | None => (acc ++ listedRepos listing, None)
    | Some err =>
        ([], Some (bytes "failed to list repositories for organization "
                   ++ orgName ++ bytes ": " ++ err))
    end.
Proof.
  revert acc. induction listing as [repos|repos next IH|err];
    intros acc; simpl; [done| |done].
  rewrite IH. destruct (repoListingError next); [done|].
  by rewrite app_assoc.
Qed.

(** X10.  [GetOrganizationRepos] returns the repositories of all the
    pages, in the order of the pages, when no request fails; when a
    request fails, on whatever page, it returns no repository at all,
    with the API's message wrapped. *)
Theorem GetOrganizationRepos_result {R} orgName (listing : RepoListing R) :
  GetOrganizationRepos orgName listing
  = match repoListingError listing with
    | None => (listedRepos listing, None)
    | Some err =>
        ([], Some (bytes "failed to list repositories for organization "
                   ++ orgName ++ bytes ": " ++ err))
    end.
Proof. apply (GetOrganizationRepos_from_result orgName []). Qed.

Lemma GetRepositoryCommitCount_nonneg owner repoName first listing :
  0 ≤ (GetRepositoryCommitCount owner repoName first listing).1.
Proof.
  unfold GetRepositoryCommitCount.
  destruct first as [commits lastPage|status err].
  - case_bool_decide; [done|].
    assert (0 ≤ (countAllCommits owner repoName listing).1) as Hcount.
    { unfold countAllCommits. rewrite countAllCommits_from_result.
      destruct (listingError listing) as [[??]|]; simpl; lia. }
    by destruct (0 <? lastPage).
  - by case_bool_decide.
Qed.

(** X11.  [GetRepositoryCommitCount] never returns a negative count, and
    returns 0 with every error.  A count other than 0 is the number of
    commits of all the pages of a full listing without failure, made
    after a first page that held a commit; [resp.LastPage] plays no
    role. *)
Theorem GetRepositoryCommitCount_result owner repoName first listing n err :
  GetRepositoryCommitCount owner repoName first listing = (n, err) →
  0 ≤ n
  ∧ (is_Some err → n = 0)
  ∧ (n ≠ 0 →
     err = None
     ∧ listingError listing = None
     ∧ n = Z.of_nat (length (listedCommits listing))
     ∧ ∃ commits respLastPage,
         first = FirstPage commits respLastPage ∧ commits ≠ []).
Proof.
  intros Hres.
  pose proof (GetRepositoryCommitCount_nonneg owner repoName first listing)
    as Hn.
  rewrite Hres in Hn. split; [done|].
  unfold GetRepositoryCommitCount in Hres.
  destruct first as [commits lastPage|status e].
  - case_bool_decide as Hlen.
    { injection Hres as <- <-. split; [done|]. by intros. }
    assert (countAllCommits owner repoName listing = (n, err)) as Hcount.
    { by destruct (0 <? lastPage). }
    unfold countAllCommits in Hcount.
    rewrite countAllCommits_from_result in Hcount.
    destruct (listingError listing) as [[status e]|].
    + injection Hcount as <- <-. split; [done|]. by intros.
    + injection Hcount as <- <-. split; [by intros [??]|].
      intros _. split_and!; try done.
      exists commits, lastPage. split; [done|]. by intros ->.
  - case_bool_decide; injection Hres as <- <-; (split; [done|by intros]).
Qed.

Lemma GetRepositoryCommitCount_result_witness :
  0 ≤ 5
  ∧ (is_Some (@None str) → 5 = 0)
  ∧ (5 ≠ 0 →
     @None str = None
     ∧ listingError fiveCommits = None
     ∧ 5 = Z.of_nat (length (listedCommits fiveCommits))
     ∧ ∃ commits respLastPage,
         FirstPage [commitOf "e5"] 5 = FirstPage commits respLastPage
         ∧ commits ≠ []).
Proof.
  apply (GetRepositoryCommitCount_result (bytes "org") (bytes "team-api")
           (FirstPage [commitOf "e5"] 5) fiveCommits 5 None).
  vm_compute. reflexivity.
Defined.

(** ** The bar-chart program *)

Lemma chart_less_spec a b :
  chart.less a b = true
  ↔ chart.CommitCount a ≠ -1
    ∧ (chart.CommitCount b = -1
       ∨ chart.CommitCount b < chart.CommitCount a).
Proof.
  unfold chart.less.
  destruct (Z.eqb_spec (chart.CommitCount a) (-1));
    destruct (Z.eqb_spec (chart.CommitCount b) (-1));
    destruct (Z.ltb_spec (chart.CommitCount b) (chart.CommitCount a));
    split; try done; try lia; intros [? [?|?]]; try done; lia.
Qed.

Lemma chart_less_false a b :
  chart.less a b = false
  ↔ chart.CommitCount a = -1
    ∨ (chart.CommitCount b ≠ -1
       ∧ chart.CommitCount a ≤ chart.CommitCount b).
Proof.
  rewrite <- not_true_iff_false, chart_less_spec. lia.
Qed.

(** A slice in which no element is [less] than an earlier one: the
    entries with a count, by decreasing count, then the entries marked
    as failed. *)
Lemma chart_sorted_shape l :
  StronglySorted (λ a b, chart.less b a = false) l →
  ∃ counted failed,
    l = counted ++ failed
    ∧ Forall (λ rc, chart.CommitCount rc ≠ -1) counted
    ∧ Forall (λ rc, chart.CommitCount rc = -1) failed
    ∧ StronglySorted (λ a b, chart.CommitCount b ≤ chart.CommitCount a)
        counted.
Proof.
  induction 1 as [|x l Hl (counted & failed & -> & Hc & Hf & Hs) Hx].
  { exists [], []. by repeat constructor. }
  destruct (decide (chart.CommitCount x = -1)) as [Hx1|Hx1].
  - assert (counted = []) as ->.
    { destruct counted as [|y counted]; [done|].
      apply Forall_inv in Hc, Hx. apply chart_less_false in Hx. lia. }
    exists [], (x :: failed). split_and!; try done. by constructor.
  - exists (x :: counted), failed. split_and!; try done.
    + by constructor.
    + constructor; [done|].
      apply Forall_app in Hx as [Hx _].
      rewrite Forall_forall in Hx, Hc |- *. intros y Hy.
      specialize (Hx y Hy). specialize (Hc y Hy).
      apply chart_less_false in Hx. lia.
Qed.

(** X12.  The comparison of the bar-chart program is a strict weak
    ordering, as [sort.Slice] needs: irreflexive, transitive, and such
    that an element less than another is less than any third one or has
    that third one less than the other.  A slice sorted by it holds the
    repositories that were counted, by decreasing count, and after them
    the repositories marked as failed. *)
Theorem chart_failures_sorted_last :
  (∀ a, chart.less a a = false)
  ∧ (∀ a b c, chart.less a b = true → chart.less b c = true →
              chart.less a c = true)
  ∧ (∀ a b c, chart.less a b = true →
              chart.less a c = true ∨ chart.less c b = true)
  ∧ (∀ l, Sorted (λ a b, chart.less b a = false) l →
      ∃ counted failed,
        l = counted ++ failed
        ∧ Forall (λ rc, chart.CommitCount rc ≠ -1) counted
        ∧ Forall (λ rc, chart.CommitCount rc = -1) failed
        ∧ StronglySorted
            (λ a b, chart.CommitCount b ≤ chart.CommitCount a) counted).
Proof.
  split_and!.
  - intros a. apply chart_less_false. lia.
  - intros a b c. rewrite !chart_less_spec. lia.
  - intros a b c. rewrite !chart_less_spec. lia.
  - intros l Hl. apply chart_sorted_shape.
    apply Sorted_StronglySorted; [|done].
    intros a b c. rewrite !chart_less_false. lia.
Qed.

Lemma foldr_max_ge mx l : mx ≤ foldr Z.max mx l.
Proof. induction l as [|x l IH]; simpl; lia. Qed.

Lemma foldr_max_shift mx n l :
  foldr Z.max (Z.max mx n) l = Z.max n (foldr Z.max mx l).
Proof. induction l as [|x l IH]; simpl; lia. Qed.

Lemma foldr_max_bound mx l : Forall (λ x, x ≤ foldr Z.max mx l) l.
Proof.
  induction l as [|x l IH]; constructor; simpl; [lia|].
  eapply Forall_impl; [done|]. simpl. lia.
Qed.

Lemma foldr_max_pos l :
  0 < foldr Z.max 0 l → Exists (λ x, 0 < x) l.
Proof.
  induction l as [|x l IH]; simpl; [lia|]. intros H.
  destruct (decide (0 < x)); [by left|]. right. apply IH. lia.
Qed.

(** What the loop over the repositories records: an entry for each
    repository that has a name, and the largest of 0 and the counts. *)
Lemma chart_countRepos_spec organization repos repoCommits maxCommitsValue :
  -1 ≤ maxCommitsValue →
  ∃ new,
    chart.countRepos organization repos repoCommits maxCommitsValue
    = (repoCommits ++ new,
       foldr Z.max maxCommitsValue (chart.CommitCount <$> new))
    ∧ Forall2
        (λ repo rc,
           chart.Name rc = GetName repo
           ∧ ∀ n err,
               GetRepositoryCommitCount organization (GetName repo)
                 (firstCommitPage repo) (commitListing repo) = (n, err) →
               (chart.CommitCount rc = -1 ↔ is_Some err)
               ∧ (err = None → chart.CommitCount rc = n))
        (filter (λ repo, GetName repo ≠ []) repos) new.
Proof.
  revert repoCommits maxCommitsValue.
  induction repos as [|repo repos IH]; intros acc mx Hmx.
  { exists []. simpl. by rewrite app_nil_r. }
  simpl chart.countRepos. rewrite filter_cons.
  case_bool_decide as Hname.
  { rewrite decide_False by (intros H; by apply H). by apply IH. }
  rewrite decide_True by done.
  pose proof (GetRepositoryCommitCount_nonneg organization (GetName repo)
                (firstCommitPage repo) (commitListing repo)) as Hn.
  destruct (GetRepositoryCommitCount _ _ _ _) as [n [e|]] eqn:Hres;
    simpl in Hn.
  - set (rc := {| chart.Name := GetName repo; chart.CommitCount := -1 |}).
    destruct (IH (acc ++ [rc]) mx Hmx) as (new & -> & Hnew).
    exists (rc :: new). rewrite <- app_assoc. split.
    + subst rc. rewrite fmap_cons. cbn [foldr chart.CommitCount]. f_equal.
      pose proof (foldr_max_ge mx (chart.CommitCount <$> new)). lia.
    + constructor; [|done]. split; [done|].
      rewrite Hres. intros ?? [= <- <-]. simpl. split; [|done].
      split; [by eexists|done].
  - set (rc := {| chart.Name := GetName repo; chart.CommitCount := n |}).
    destruct (IH (acc ++ [rc]) (if mx <? n then n else mx))
      as (new & -> & Hnew).
    { destruct (mx <? n); lia. }
    exists (rc :: new). rewrite <- app_assoc. split.
    + subst rc. rewrite fmap_cons. cbn [foldr chart.CommitCount]. f_equal.
      replace (if mx <? n then n else mx) with (Z.max mx n)
        by (destruct (Z.ltb_spec mx n); lia).
      apply foldr_max_shift.
    + constructor; [|done]. split; [done|].
      rewrite Hres. intros ?? [= <- <-]. simpl. split; [|done].
      split; [lia|by intros [??]].
Qed.

(** X13.  The bar-chart program records one entry for each repository
    that has a name, in the order of the listing; the count of an entry
    is -1 exactly when the count of its repository failed, a count that
    succeeded never being negative; and [maxCommitsValue] is the largest
    of 0 and the recorded counts. *)
Theorem chart_counts_recorded organization repos repoCommits maxCommitsValue :
  chart.countRepos organization repos [] 0 = (repoCommits, maxCommitsValue) →
  Forall2
    (λ repo rc,
       chart.Name rc = GetName repo
       ∧ ∀ n err,
           GetRepositoryCommitCount organization (GetName repo)
             (firstCommitPage repo) (commitListing repo) = (n, err) →
           (chart.CommitCount rc = -1 ↔ is_Some err)
           ∧ (err = None → chart.CommitCount rc = n))
    (filter (λ repo, GetName repo ≠ []) repos) repoCommits
  ∧ maxCommitsValue = foldr Z.max 0 (chart.CommitCount <$> repoCommits).
Proof.
  destruct (chart_countRepos_spec organization repos [] 0 ltac:(lia))
    as (new & -> & Hnew).
  by intros [= <- <-].
Qed.

Lemma chart_counts_recorded_witness :
  let repoCommits :=
    [ {| chart.Name := bytes "team-api"; chart.CommitCount := 5 |};
      {| chart.Name := bytes "docs"; chart.CommitCount := -1 |};
      {| chart.Name := bytes "empty_"; chart.CommitCount := 0 |};
      {| chart.Name := bytes "team_web-client"; chart.CommitCount := 7 |} ] in
  Forall2
    (λ repo rc,
       chart.Name rc = GetName repo
       ∧ ∀ n err,
           GetRepositoryCommitCount (bytes "org") (GetName repo)
             (firstCommitPage repo) (commitListing repo) = (n, err) →
           (chart.CommitCount rc = -1 ↔ is_Some err)
           ∧ (err = None → chart.CommitCount rc = n))
    (filter (λ repo, GetName repo ≠ []) countedRepositories) repoCommits
  ∧ 7 = foldr Z.max 0 (chart.CommitCount <$> repoCommits).
Proof.
  intros repoCommits.
  apply (chart_counts_recorded (bytes "org") countedRepositories repoCommits 7).
  vm_compute. reflexivity.
Defined.

Lemma chart_plotData_spec repoCommits plotValues labels :
  chart.plotData repoCommits plotValues labels
  = (plotValues
     ++ ((λ rc, float64_of_int (chart.CommitCount rc))
         <$> filter (λ rc, 0 ≤ chart.CommitCount rc) repoCommits),
     labels
     ++ ((λ rc, chart.displayName (chart.Name rc))
         <$> filter (λ rc, 0 ≤ chart.CommitCount rc) repoCommits)).
Proof.
  revert plotValues labels.
  induction repoCommits as [|rc l IH]; intros vs ls; simpl.
  { by rewrite !app_nil_r. }
  rewrite filter_cons.
  destruct (Z.ltb_spec (chart.CommitCount rc) 0).
  - rewrite decide_False by lia. apply IH.
  - rewrite decide_True by lia. rewrite IH, !fmap_cons, <- !app_assoc. done.
Qed.

(** X14.  When the bar-chart program ends normally, either it has saved
    a chart, which has one bar and one label for each recorded
    repository whose count did not fail, in the order of the ranking,
    and at least one bar; or no recorded repository has a commit.  The
    branch that reports no valid data to plot (line 919) is never
    taken. *)
Theorem chart_drawn_when_commits_exist Slice plotFails organization repos
    report :
  (∀ l, Slice l ≡ₚ l) →
  chart.main Slice plotFails organization repos = chart.Finished report →
  match chart.chartResult report with
  | chart.ChartSaved bars =>
      chart.plotValues bars
      = (λ rc, float64_of_int (chart.CommitCount rc))
        <$> filter (λ rc, 0 ≤ chart.CommitCount rc) (chart.ranking report)
      ∧ chart.labels bars
        = (λ rc, chart.displayName (chart.Name rc))
          <$> filter (λ rc, 0 ≤ chart.CommitCount rc) (chart.ranking report)
      ∧ length (chart.labels bars) = length (chart.plotValues bars)
      ∧ chart.plotValues bars ≠ []
  | chart.NoCommitsToChart =>
      Forall (λ rc, chart.CommitCount rc ≤ 0) (chart.ranking report)
  | chart.NoValidData => False
  end.
Proof.
  intros Hperm. unfold chart.main.
  case_bool_decide; [done|].
  destruct (chart_countRepos_spec organization repos [] 0 ltac:(lia))
    as (repoCommits & -> & _).
  rewrite app_nil_l.
  set (maxCommitsValue := foldr Z.max 0 (chart.CommitCount <$> repoCommits)).
  assert (maxCommitsValue
          = foldr Z.max 0 (chart.CommitCount <$> repoCommits)) as Hmax by done.
  clearbody maxCommitsValue.
  rewrite chart_plotData_spec. simpl.
  set (sorted := Slice repoCommits).
  set (shown := filter (λ rc, 0 ≤ chart.CommitCount rc) sorted).
  assert (0 < maxCommitsValue → shown ≠ []) as Hshown.
  { intros Hpos. rewrite Hmax in Hpos. apply foldr_max_pos in Hpos.
    apply list.Exists_exists in Hpos as (n & Hin & Hn).
    apply list_elem_of_fmap in Hin as (rc & -> & Hin).
    assert (rc ∈ shown) as Hrc.
    { apply list_elem_of_filter. split; [lia|].
      subst sorted. by rewrite Hperm. }
    intros Hnil. rewrite Hnil in Hrc. by apply elem_of_nil in Hrc. }
  assert (maxCommitsValue ≤ 0 →
          Forall (λ rc, chart.CommitCount rc ≤ 0) sorted) as Hnone.
  { intros Hle. subst sorted. rewrite Hperm.
    pose proof (foldr_max_bound 0 (chart.CommitCount <$> repoCommits)) as Hb.
    rewrite <- Hmax in Hb. rewrite Forall_fmap in Hb.
    eapply Forall_impl; [done|]. simpl. lia. }
  destruct (Nat.ltb_spec 0 (length sorted)) as [Hlen|Hlen];
    destruct (Z.ltb_spec 0 maxCommitsValue) as [Hpos|Hpos]; simpl.
  - specialize (Hshown Hpos).
    rewrite length_fmap.
    destruct (Nat.ltb_spec 0 (length shown)) as [_|Hempty].
    2:{ destruct shown; [done|simpl in Hempty; lia]. }
    destruct plotFails; [done|].
    destruct (chart.totals sorted 0 0). intros [= <-]. simpl.
    split_and!; try done.
    + by rewrite !length_fmap.
    + by destruct shown.
  - destruct (chart.totals sorted 0 0). intros [= <-]. simpl. by apply Hnone.
  - destruct (chart.totals sorted 0 0). intros [= <-]. simpl.
    destruct sorted; [constructor|simpl in Hlen; lia].
  - destruct (chart.totals sorted 0 0). intros [= <-]. simpl. by apply Hnone.
Qed.

Lemma chart_drawn_when_commits_exist_witness :
  ∃ report,
    chart.main (sort.SliceStable chart.less) false (bytes "org")
      countedRepositories = chart.Finished report
    ∧ chart.Name <$> chart.ranking report
      = [bytes "team_web-client"; bytes "team-api"; bytes "empty_";
         bytes "docs"]
    ∧ match chart.chartResult report with
      | chart.ChartSaved bars =>
          chart.plotValues bars
          = (λ rc, float64_of_int (chart.CommitCount rc))
            <$> filter (λ rc, 0 ≤ chart.CommitCount rc) (chart.ranking report)
          ∧ chart.labels bars
            = (λ rc, chart.displayName (chart.Name rc))
              <$> filter (λ rc, 0 ≤ chart.CommitCount rc)
                    (chart.ranking report)
          ∧ length (chart.labels bars) = length (chart.plotValues bars)
          ∧ chart.plotValues bars ≠ []
      | chart.NoCommitsToChart =>
          Forall (λ rc, chart.CommitCount rc ≤ 0) (chart.ranking report)
      | chart.NoValidData => False
      end.
Proof.
  eexists. split; [vm_compute; reflexivity|].
  split; [vm_compute; reflexivity|].
  apply (chart_drawn_when_commits_exist (sort.SliceStable chart.less) false
           (bytes "org") countedRepositories).
  - apply SliceStable_perm.
  - vm_compute. reflexivity.
Defined.

Lemma IndexAny_None s chars :
  Forall (λ c, c ∉ chars) s → strings.IndexAny s chars = None.
Proof.
  induction 1 as [|c s Hc Hs IH]; [done|]. simpl.
  by rewrite bool_decide_eq_false_2, IH.
Qed.

Lemma IndexAny_first pre sep rest chars :
  Forall (λ c, c ∉ chars) pre → sep ∈ chars →
  strings.IndexAny (pre ++ sep :: rest) chars = Some (length pre).
Proof.
  intros Hpre Hsep. induction Hpre as [|c pre Hc Hpre IH]; simpl.
  - by rewrite bool_decide_eq_true_2.
  - by rewrite bool_decide_eq_false_2, IH.
Qed.

(** X15.  The label of a bar is the name of the repository when the name
    holds neither [-] nor [_], or holds its first one as its last byte;
    otherwise it is what follows the first [-] or [_] of the name, which
    is not empty.  Only the first prefix is removed. *)
Theorem displayName_result name :
  (Forall (λ c, c ∉ bytes "-_") name → chart.displayName name = name)
  ∧ (∀ prefix sep rest,
       name = prefix ++ sep :: rest →
       Forall (λ c, c ∉ bytes "-_") prefix → sep ∈ bytes "-_" →
       chart.displayName name = if decide (rest = []) then name else rest)
  ∧ (name ≠ [] → chart.displayName name ≠ []).
Proof.
  assert (∀ prefix sep rest,
            Forall (λ c, c ∉ bytes "-_") prefix → sep ∈ bytes "-_" →
            chart.displayName (prefix ++ sep :: rest)
            = if decide (rest = []) then prefix ++ sep :: rest else rest)
    as Hsplit.
  { intros prefix sep rest Hprefix Hsep. unfold chart.displayName.
    rewrite IndexAny_first by done.
    rewrite length_app. simpl.
    destruct rest as [|c rest]; simpl.
    - destruct (Nat.ltb_spec (length prefix + 1) (length prefix + 1)); [lia|].
      done.
    - destruct (Nat.ltb_spec (length prefix + 1)
                  (length prefix + S (S (length rest)))); [|lia].
      by rewrite <- drop_drop, drop_app_length. }
  split_and!.
  - intros Hfree. unfold chart.displayName. by rewrite IndexAny_None.
  - intros prefix sep rest -> Hprefix Hsep. by apply Hsplit.
  - intros Hname.
    destruct (strings.IndexAny name (bytes "-_")) as [idx|] eqn:Hidx.
    2:{ unfold chart.displayName. by rewrite Hidx. }
    unfold chart.displayName. rewrite Hidx.
    destruct (Nat.ltb_spec (idx + 1) (length name)) as [Hlt|]; [|done].
    intros Hnil. apply (f_equal length) in Hnil.
    rewrite length_drop in Hnil. simpl in Hnil. lia.
Qed.

Lemma SFfin_not_nan x : SFfin x = true → SFnan x = false.
Proof. by destruct x. Qed.

Lemma float_ltb_false_leb (x y : float) :
  is_nan x = false → is_nan y = false →
  (x <? y)%float = false → (y <=? x)%float = true.
Proof.
  rewrite !float_is_nan_spec, FloatAxioms.ltb_spec, FloatAxioms.leb_spec.
  unfold SFltb, SFleb. intros Hx Hy.
  destruct (SFcompare_total _ _ Hx Hy) as [c Hc].
  rewrite (SFcompare_flip _ _ _ Hc), Hc. by destruct c.
Qed.

(** X16.  The width of the saved chart is a number between 6 and 20
    inches, whatever the number of bars. *)
Theorem plotWidth_within (labels : list str) :
  is_nan (chart.plotWidth labels) = false
  ∧ (6 * chart.Inch <=? chart.plotWidth labels)%float = true
  ∧ (chart.plotWidth labels <=? 20 * chart.Inch)%float = true.
Proof.
  unfold chart.plotWidth, chart.Inch.
  set (x := (float64_of_int (Z.of_nat (length labels)) * 1.5 * 72)%float).
  assert (is_nan x = false) as Hx.
  { subst x. rewrite float_is_nan_spec, mul_spec.
    change (Prim2SF 72) with (S754_finite false 5066549580791808 (-46)).
    apply SFmul_not_nan. rewrite mul_spec.
    change (Prim2SF 1.5) with (S754_finite false 6755399441055744 (-52)).
    apply SFmul_not_nan, SFfin_not_nan, float64_of_int_fin. }
  change (6 * 72)%float with 432%float.
  change (20 * 72)%float with 1440%float.
  destruct (x <? 432)%float eqn:Hlow.
  { by vm_compute. }
  destruct (1440 <? x)%float eqn:Hhigh.
  { by vm_compute. }
  split_and!; [done|by apply float_ltb_false_leb..].
Qed.

Lemma sumZ_Permutation l1 l2 : l1 ≡ₚ l2 → sumZ l1 = sumZ l2.
Proof. unfold sumZ. induction 1; simpl; lia. Qed.

Lemma sumZ_app l1 l2 : sumZ (l1 ++ l2) = sumZ l1 + sumZ l2.
Proof. unfold sumZ. induction l1; simpl; lia. Qed.

(** [float64(n)] of a positive [int] is a positive number. *)
Lemma float64_of_int_pos n :
  0 < n < 2 ^ 63 → ∃ m e, Prim2SF (float64_of_int n) = S754_finite false m e.
Proof.
  intros Hn.
  pose proof (float64_of_int_fin n) as Hfin.
  unfold float64_of_int in *.
  destruct (Z.eqb_spec n (- 2 ^ 63)); [lia|].
  destruct (Z.ltb_spec n 0); [lia|].
  rewrite of_uint63_spec, Uint63.of_Z_spec in *.
  rewrite Z.mod_small in * by (change Uint63.wB with (2 ^ 63); lia).
  destruct n as [|p|p]; [lia| |lia].
  unfold binary_normalize, binary_round in *.
  destruct (shl_align p 0 (fexp prec emax (Z.pos (digits2_pos p) + 0)))
    as [mz ez] eqn:Hal.
  assert (-52 ≤ ez) as Hez.
  { unfold shl_align, fexp, SpecFloat.emin in Hal.
    change prec with 53 in Hal; change emax with 1024 in Hal.
    pose proof (Pos2Z.is_pos (digits2_pos p)).
    destruct (Z.max (Z.pos (digits2_pos p) + 0 - 53) (3 - 1024 - 53) - 0)
      eqn:Hsh; injection Hal as <- <-; lia. }
  destruct (binary_round_aux_pos mz ez) as [(m' & e' & Hr & He')|Hr].
  { change emax with 1024. lia. }
  - rewrite Hr. by eexists _, _.
  - by rewrite Hr in Hfin.
Qed.

(** The quotient of the conversions of two [int]s, the second positive,
    is a number. *)
Lemma average_not_nan total count :
  0 < count < 2 ^ 63 →
  is_nan (float64_of_int total / float64_of_int count) = false.
Proof.
  intros Hcount. rewrite float_is_nan_spec, div_spec.
  destruct (float64_of_int_pos count Hcount) as (m & e & ->).
  apply SFdiv_not_nan, float64_of_int_fin.
Qed.

Lemma chart_totals_spec repoCommits totalOrgCommits validRepoCount :
  chart.totals repoCommits totalOrgCommits validRepoCount
  = (totalOrgCommits
     + sumZ (chart.CommitCount
             <$> filter (λ rc, chart.CommitCount rc ≠ -1) repoCommits),
     validRepoCount
     + Z.of_nat (length (filter (λ rc, chart.CommitCount rc ≠ -1)
                           repoCommits))).
Proof.
  revert totalOrgCommits validRepoCount.
  induction repoCommits as [|rc l IH]; intros t v; simpl.
  { f_equal; unfold sumZ; simpl; lia. }
  rewrite filter_cons.
  destruct (Z.eqb_spec (chart.CommitCount rc) (-1)).
  - rewrite decide_False by (intros H; by apply H). apply IH.
  - rewrite decide_True by done. rewrite IH, fmap_cons.
    f_equal; unfold sumZ; simpl; lia.
Qed.

(** X17.  The figures the bar-chart program prints last are those of the
    repositories whose count did not fail, whatever order the sort left
    them in: their number, the sum of their counts, and the average,
    which is printed only when there is such a repository and is then a
    number.  The rows of the table show a count exactly for those
    repositories. *)
Theorem chart_totals_of_counted Slice plotFails organization repos report :
  (∀ l, Slice l ≡ₚ l) →
  Z.of_nat (length repos) < 2 ^ 63 →
  chart.main Slice plotFails organization repos = chart.Finished report →
  let counted :=
    filter (λ rc, chart.CommitCount rc ≠ -1)
      (chart.countRepos organization repos [] 0).1 in
  chart.validRepoCount report = Z.of_nat (length counted)
  ∧ chart.totalOrgCommits report = sumZ (chart.CommitCount <$> counted)
  ∧ match chart.avgCommits report with
    | Some avg =>
        counted ≠ []
        ∧ avg = (float64_of_int (chart.totalOrgCommits report)
                 / float64_of_int (chart.validRepoCount report))%float
        ∧ is_nan avg = false
    | None => counted = []
    end
  ∧ omap snd (chart.tableRows report) ≡ₚ chart.CommitCount <$> counted.
Proof.
  intros Hperm Hlen. unfold chart.main.
  case_bool_decide; [done|].
  destruct (chart_countRepos_spec organization repos [] 0 ltac:(lia))
    as (repoCommits & -> & Hrec).
  rewrite app_nil_l. cbn [fst].
  assert (length repoCommits ≤ length repos)%nat as Hsize.
  { apply Forall2_length in Hrec. rewrite <- Hrec. apply length_filter. }
  generalize (foldr Z.max 0 (chart.CommitCount <$> repoCommits)).
  intros maxCommitsValue.
  set (sorted := Slice repoCommits).
  set (chartResult := if _ && _ then _ else _).
  destruct chartResult as [chartResult|]; [|done].
  rewrite chart_totals_spec, !Z.add_0_l. intros [= <-]. simpl.
  set (counted := filter (λ rc, chart.CommitCount rc ≠ -1) repoCommits).
  assert (filter (λ rc, chart.CommitCount rc ≠ -1) sorted ≡ₚ counted)
    as Hcounted.
  { subst sorted counted. by rewrite Hperm. }
  assert (length counted ≤ length repoCommits)%nat as Hcl
    by apply length_filter.
  rewrite (Permutation_length Hcounted).
  rewrite (sumZ_Permutation _ _ (fmap_Permutation _ _ _ Hcounted)).
  split_and!.
  - done.
  - done.
  - destruct (Z.ltb_spec 0 (Z.of_nat (length counted))) as [Hpos|Hzero].
    + split_and!; [by destruct counted|done|].
      apply average_not_nan. lia.
    + destruct counted; [done|simpl in Hzero; lia].
  - rewrite <- Hcounted. generalize sorted. clear. intros l.
    induction l as [|rc l IH]; [done|].
    rewrite fmap_cons, filter_cons.
    change (omap snd (?x :: ?l))
      with (match snd x with Some y => y :: omap snd l | None => omap snd l end).
    simpl. destruct (Z.eqb_spec (chart.CommitCount rc) (-1)).
    + by rewrite decide_False by (intros H; by apply H).
    + rewrite decide_True by done. by rewrite fmap_cons, IH.
Qed.

Lemma chart_totals_of_counted_witness :
  ∃ report,
    chart.main (sort.SliceStable chart.less) false (bytes "org")
      countedRepositories = chart.Finished report
    ∧ chart.totalOrgCommits report = 12
    ∧ let counted :=
        filter (λ rc, chart.CommitCount rc ≠ -1)
          (chart.countRepos (bytes "org") countedRepositories [] 0).1 in
      chart.validRepoCount report = Z.of_nat (length counted)
      ∧ chart.totalOrgCommits report = sumZ (chart.CommitCount <$> counted)
      ∧ match chart.avgCommits report with
        | Some avg =>
            counted ≠ []
            ∧ avg = (float64_of_int (chart.totalOrgCommits report)
                     / float64_of_int (chart.validRepoCount report))%float
            ∧ is_nan avg = false
        | None => counted = []
        end
      ∧ omap snd (chart.tableRows report) ≡ₚ chart.CommitCount <$> counted.
Proof.
  eexists. split; [vm_compute; reflexivity|].
  split; [vm_compute; reflexivity|].
  apply (chart_totals_of_counted (sort.SliceStable chart.less) false
           (bytes "org") countedRepositories).
  - apply SliceStable_perm.
  - vm_compute. reflexivity.
  - vm_compute. reflexivity.
Defined.

Lemma table_countRepos_spec organization repos rows totalCommits :
  ∃ new,
    table.countRepos organization repos rows totalCommits
    = (rows ++ new, totalCommits + sumZ (snd <$> new))
    ∧ Forall2
        (λ repo row,
           row.1 = GetName repo
           ∧ GetRepositoryCommitCount organization (GetName repo)
               (firstCommitPage repo) (commitListing repo) = (row.2, None))
        (filter
           (λ repo,
              GetName repo ≠ []
              ∧ (GetRepositoryCommitCount organization (GetName repo)
                   (firstCommitPage repo) (commitListing repo)).2 = None)
           repos)
        new.
Proof.
  revert rows totalCommits.
  induction repos as [|repo repos IH]; intros rows total.
  { exists []. simpl. rewrite app_nil_r. split; [|constructor].
    f_equal. unfold sumZ. simpl. lia. }
  simpl table.countRepos. rewrite filter_cons.
  case_bool_decide as Hname.
  { rewrite decide_False by (intros [H _]; by apply H). by apply IH. }
  destruct (GetRepositoryCommitCount _ _ _ _) as [n [e|]] eqn:Hres.
  - rewrite decide_False by (by intros [_ H]). by apply IH.
  - rewrite decide_True by done.
    destruct (IH (rows ++ [(GetName repo, n)]) (total + n))
      as (new & -> & Hnew).
    exists ((GetName repo, n) :: new). rewrite <- app_assoc. split.
    + rewrite fmap_cons. f_equal. unfold sumZ. cbn [foldr snd]. lia.
    + by constructor.
Qed.

(** X18.  The table program prints a row for each repository that has a
    name and whose count did not fail, in the order of the listing, with
    that count; the total it prints is the sum of the counts of the rows;
    the average is always printed, is a number, and is the total divided
    by the number of all the listed repositories, those without a row
    included. *)
Theorem table_report_figures organization repos report :
  Z.of_nat (length repos) < 2 ^ 63 →
  table.main organization repos = Some report →
  Forall2
    (λ repo row,
       row.1 = GetName repo
       ∧ GetRepositoryCommitCount organization (GetName repo)
           (firstCommitPage repo) (commitListing repo) = (row.2, None))
    (filter
       (λ repo,
          GetName repo ≠ []
          ∧ (GetRepositoryCommitCount organization (GetName repo)
               (firstCommitPage repo) (commitListing repo)).2 = None)
       repos)
    (table.rows report)
  ∧ table.totalCommits report = sumZ (snd <$> table.rows report)
  ∧ ∃ avg,
      table.avgCommits report = Some avg
      ∧ avg = (float64_of_int (table.totalCommits report)
               / float64_of_int (Z.of_nat (length repos)))%float
      ∧ is_nan avg = false.
Proof.
  intros Hlen. unfold table.main.
  case_bool_decide as Hrepos; [done|].
  destruct (table_countRepos_spec organization repos [] 0)
    as (new & -> & Hnew).
  intros [= <-]. simpl. split_and!; [done..|].
  destruct (Nat.ltb_spec 0 (length repos)); [|lia].
  eexists. split_and!; [done..|].
  apply average_not_nan. lia.
Qed.

Lemma table_report_figures_witness :
  ∃ report,
    table.main (bytes "org") countedRepositories = Some report
    ∧ table.rows report
      = [(bytes "team-api", 5); (bytes "empty_", 0);
         (bytes "team_web-client", 7)]
    ∧ Forall2
        (λ repo row,
           row.1 = GetName repo
           ∧ GetRepositoryCommitCount (bytes "org") (GetName repo)
               (firstCommitPage repo) (commitListing repo) = (row.2, None))
        (filter
           (λ repo,
              GetName repo ≠ []
              ∧ (GetRepositoryCommitCount (bytes "org") (GetName repo)
                   (firstCommitPage repo) (commitListing repo)).2 = None)
           countedRepositories)
        (table.rows report)
    ∧ table.totalCommits report = sumZ (snd <$> table.rows report)
    ∧ ∃ avg,
        table.avgCommits report = Some avg
        ∧ avg = (float64_of_int (table.totalCommits report)
                 / float64_of_int (Z.of_nat (length countedRepositories)))%float
        ∧ is_nan avg = false.
Proof.
  eexists. split; [vm_compute; reflexivity|].
  split; [vm_compute; reflexivity|].
  apply (table_report_figures (bytes "org") countedRepositories).
  - vm_compute. reflexivity.
  - vm_compute. reflexivity.
Defined.

(** ** The overall score over the valid scores (lines 548-558) *)

Lemma float_leb_trans (x y z : float) :
  (x <=? y)%float = true → (y <=? z)%float = true → (x <=? z)%float = true.
Proof.
  rewrite !FloatAxioms.leb_spec. unfold SFleb.
  destruct (SFcompare (Prim2SF x) (Prim2SF y)) as [[]|] eqn:Hxy; try done;
    destruct (SFcompare (Prim2SF y) (Prim2SF z)) as [[]|] eqn:Hyz; try done;
    intros _ _.
  - by rewrite (SFcompare_Eq_trans _ _ _ _ Hxy Hyz).
  - by rewrite (SFcompare_Eq_trans _ _ _ _ Hxy Hyz).
  - apply SFcompare_flip in Hxy, Hyz. simpl in *.
    pose proof (SFcompare_Eq_trans _ _ _ _ Hyz Hxy) as Hzx.
    apply SFcompare_flip in Hzx. by rewrite Hzx.
  - by rewrite (SFcompare_Lt_trans _ _ _ Hxy Hyz).
Qed.

(** The three terms of the score. *)
Lemma specOverallScore_terms c t m :
  specOverallScore c t m
  = (float64_of_int (Z.min c 1000) / 1000 * 10 * 0.2
     + float64_of_int t * 0.4 + float64_of_int m * 0.4)%float.
Proof. reflexivity. Qed.

(** Over the grid of the capped commit counts and the valid evaluator
    scores, a step up in one of the three never lowers the score. *)
Lemma specOverallScore_steps_grid :
  let countTerms :=
    map (λ n, let c := Z.of_nat n in
              ((float64_of_int (Z.min c 1000) / 1000 * 10 * 0.2)%float,
               (float64_of_int (Z.min (c + 1) 1000) / 1000 * 10 * 0.2)%float))
      (seq 0 1001) in
  let scoreTerms :=
    map (λ n, let t := Z.of_nat n in
              ((float64_of_int t * 0.4)%float,
               (float64_of_int (t + 1) * 0.4)%float))
      (seq 0 11) in
  forallb (λ '(a, a'),
    forallb (λ '(b, b'),
      forallb (λ '(d, d'),
        let s := (a + b + d)%float in
        (s <=? a' + b + d)%float && (s <=? a + b' + d)%float
        && (s <=? a + b + d')%float)
        scoreTerms) scoreTerms) countTerms = true.
Proof. vm_compute. reflexivity. Qed.

Lemma specOverallScore_steps c t m :
  0 ≤ c ≤ 1000 → 0 ≤ t ≤ 10 → 0 ≤ m ≤ 10 →
  (specOverallScore c t m <=? specOverallScore (c + 1) t m)%float = true
  ∧ (specOverallScore c t m <=? specOverallScore c (t + 1) m)%float = true
  ∧ (specOverallScore c t m <=? specOverallScore c t (m + 1))%float = true.
Proof.
  intros Hc Ht Hm.
  assert (In (Z.to_nat c) (seq 0 1001)) as Hinc by (apply in_seq; lia).
  assert (In (Z.to_nat t) (seq 0 11)) as Hint by (apply in_seq; lia).
  assert (In (Z.to_nat m) (seq 0 11)) as Hinm by (apply in_seq; lia).
  pose proof specOverallScore_steps_grid as Hgrid. cbv zeta in Hgrid.
  rewrite forallb_forall in Hgrid.
  specialize (Hgrid _ (in_map _ _ _ Hinc)).
  cbv beta zeta in Hgrid. rewrite forallb_forall in Hgrid.
  specialize (Hgrid _ (in_map _ _ _ Hint)).
  cbv beta zeta in Hgrid. rewrite forallb_forall in Hgrid.
  specialize (Hgrid _ (in_map _ _ _ Hinm)).
  cbv beta zeta in Hgrid.
  rewrite !Z2Nat.id in Hgrid by lia.
  apply andb_true_iff in Hgrid as [Hgrid H3].
  apply andb_true_iff in Hgrid as [H1 H2].
  rewrite !specOverallScore_terms. done.
Qed.

Lemma specOverallScore_capped c t m :
  1000 ≤ c → specOverallScore c t m = specOverallScore 1000 t m.
Proof.
  intros Hc. rewrite !specOverallScore_terms.
  by rewrite (Z.min_r c), (Z.min_r 1000) by lia.
Qed.

Lemma float_leb_refl (x : float) : is_nan x = false → (x <=? x)%float = true.
Proof.
  rewrite float_is_nan_spec, FloatAxioms.leb_spec. unfold SFleb. intros Hx.
  destruct (SFcompare_total _ _ Hx Hx) as [k Hk].
  pose proof (SFcompare_flip _ _ _ Hk) as Hk'. rewrite Hk in Hk' |- *.
  by destruct k.
Qed.

Lemma specOverallScore_not_nan c t m :
  0 ≤ c < 2 ^ 63 → is_nan (specOverallScore c t m) = false.
Proof.
  intros Hc.
  pose proof (overallScore_spec c {| TechnicalSophistication := t;
                                     MessageAppropriateness := m |} Hc) as H.
  simpl in H. rewrite <- H. apply overallScore_not_nan.
Qed.

(** The score does not decrease when the commit count or one of the two
    valid evaluator scores increases. *)
Lemma specOverallScore_monotone c c' t t' m m' :
  0 ≤ c ≤ c' → c' < 2 ^ 63 → 0 ≤ t ≤ t' → t' ≤ 10 → 0 ≤ m ≤ m' → m' ≤ 10 →
  (specOverallScore c t m <=? specOverallScore c' t' m')%float = true.
Proof.
  intros Hc Hc' Ht Ht' Hm Hm'.
  assert (∀ n a, 0 ≤ a → a + Z.of_nat n ≤ 1000 →
            (specOverallScore a t m
             <=? specOverallScore (a + Z.of_nat n) t m)%float = true)
    as Hcount.
  { induction n as [|n IH]; intros a Ha Hn.
    - rewrite Z.add_0_r. apply float_leb_refl, specOverallScore_not_nan. lia.
    - eapply float_leb_trans; [apply (IH a); lia|].
      replace (a + Z.of_nat (S n)) with (a + Z.of_nat n + 1) by lia.
      apply specOverallScore_steps; lia. }
  assert (∀ a d, 0 ≤ a ≤ 1000 → 0 ≤ d ≤ 10 → ∀ n b,
            0 ≤ b → b + Z.of_nat n ≤ 10 →
            (specOverallScore a b d
             <=? specOverallScore a (b + Z.of_nat n) d)%float = true)
    as Htech.
  { intros a d Ha Hd. induction n as [|n IH]; intros b Hb Hn.
    - rewrite Z.add_0_r. apply float_leb_refl, specOverallScore_not_nan. lia.
    - eapply float_leb_trans; [apply (IH b); lia|].
      replace (b + Z.of_nat (S n)) with (b + Z.of_nat n + 1) by lia.
      apply specOverallScore_steps; lia. }
  assert (∀ a b, 0 ≤ a ≤ 1000 → 0 ≤ b ≤ 10 → ∀ n d,
            0 ≤ d → d + Z.of_nat n ≤ 10 →
            (specOverallScore a b d
             <=? specOverallScore a b (d + Z.of_nat n))%float = true)
    as Hmsg.
  { intros a b Ha Hb. induction n as [|n IH]; intros d Hd Hn.
    - rewrite Z.add_0_r. apply float_leb_refl, specOverallScore_not_nan. lia.
    - eapply float_leb_trans; [apply (IH d); lia|].
      replace (d + Z.of_nat (S n)) with (d + Z.of_nat n + 1) by lia.
      apply specOverallScore_steps; lia. }
  assert (∃ k k', 0 ≤ k ≤ k' ∧ k' ≤ 1000
                  ∧ specOverallScore c t m = specOverallScore k t m
                  ∧ specOverallScore c' t' m' = specOverallScore k' t' m')
    as (k & k' & Hk & Hk' & -> & ->).
  { exists (Z.min c 1000), (Z.min c' 1000). split_and!; [lia..| |].
    - destruct (Z.le_gt_cases 1000 c).
      + rewrite Z.min_r by lia. by apply specOverallScore_capped.
      + by rewrite Z.min_l by lia.
    - destruct (Z.le_gt_cases 1000 c').
      + rewrite Z.min_r by lia. by apply specOverallScore_capped.
      + by rewrite Z.min_l by lia. }
  eapply float_leb_trans.
  { specialize (Hcount (Z.to_nat (k' - k)) k).
    rewrite Z2Nat.id in Hcount by lia.
    replace (k + (k' - k)) with k' in Hcount by lia. apply Hcount; lia. }
  eapply float_leb_trans.
  { specialize (Htech k' m ltac:(lia) ltac:(lia) (Z.to_nat (t' - t)) t).
    rewrite Z2Nat.id in Htech by lia.
    replace (t + (t' - t)) with t' in Htech by lia. apply Htech; lia. }
  specialize (Hmsg k' t' ltac:(lia) ltac:(lia) (Z.to_nat (m' - m)) m).
  rewrite Z2Nat.id in Hmsg by lia.
  replace (m + (m' - m)) with m' in Hmsg by lia. apply Hmsg; lia.
Qed.

(** X19.  For evaluator scores between 0 and 10 the overall score, as
    computed in binary64, is a number between 0 and 10: the roundings of
    the weighted sum never carry it out of the scale. *)
Theorem overallScore_within_scale c t m :
  0 ≤ c < 2 ^ 63 → 0 ≤ t ≤ 10 → 0 ≤ m ≤ 10 →
  let score :=
    overallScore c {| TechnicalSophistication := t;
                      MessageAppropriateness := m |} in
  (0 <=? score)%float = true ∧ (score <=? 10)%float = true.
Proof.
  intros Hc Ht Hm. simpl.
  pose proof (overallScore_spec c {| TechnicalSophistication := t;
                                     MessageAppropriateness := m |} Hc) as ->.
  simpl. split.
  - change 0%float with (specOverallScore 0 0 0).
    apply specOverallScore_monotone; lia.
  - change 10%float with (specOverallScore 1000 10 10).
    destruct (Z.le_gt_cases 1000 c).
    + rewrite specOverallScore_capped by done.
      apply specOverallScore_monotone; lia.
    + apply specOverallScore_monotone; lia.
Qed.

Lemma overallScore_within_scale_witness :
  let score :=
    overallScore 250 {| TechnicalSophistication := 7;
                        MessageAppropriateness := 9 |} in
  (0 <=? score)%float = true ∧ (score <=? 10)%float = true.
Proof. apply (overallScore_within_scale 250 7 9); lia. Defined.

(** X20.  For evaluator scores between 0 and 10 the overall score, as
    computed in binary64, never decreases when the commit count or one
    of the two scores increases: a repository that is at least as good
    on the three never gets a lower overall score. *)
Theorem overallScore_monotone c c' t t' m m' :
  0 ≤ c ≤ c' → c' < 2 ^ 63 → 0 ≤ t ≤ t' → t' ≤ 10 → 0 ≤ m ≤ m' → m' ≤ 10 →
  (overallScore c {| TechnicalSophistication := t;
                     MessageAppropriateness := m |}
   <=? overallScore c' {| TechnicalSophistication := t';
                          MessageAppropriateness := m' |})%float = true.
Proof.
  intros Hc Hc' Ht Ht' Hm Hm'.
  rewrite !overallScore_spec by lia. simpl.
  by apply specOverallScore_monotone.
Qed.

Lemma overallScore_monotone_witness :
  (overallScore 250 {| TechnicalSophistication := 7;
                       MessageAppropriateness := 9 |}
   <=? overallScore 4000 {| TechnicalSophistication := 8;
                            MessageAppropriateness := 9 |})%float = true.
Proof. apply (overallScore_monotone 250 4000 7 8 9 9); lia. Defined.

(** ** The prompt (lines 137-176) *)

Lemma imap_ext_Forall2 {A B} (f g : nat → A → B) (l1 l2 : list A) :
  Forall2 (λ a b, ∀ i, f i a = g i b) l1 l2 → imap f l1 = imap g l2.
Proof.
  intros H. revert f g H.
  induction l1 as [|a l1 IH] in l2 |- *; intros f g H;
    inversion H as [|? b ? l2' Hab Hrest]; subst; [done|].
  simpl. f_equal; [apply Hab|]. apply IH.
  eapply Forall2_impl; [done|]. intros ?? Hi i. apply Hi.
Qed.

(** Two samples whose commits are written the same give the same
    prompt. *)
Lemma prompt_ext repoName totalCommitCount sampled1 sampled2 :
  Forall2 (λ a b, ∀ i, sampledCommitSection i a = sampledCommitSection i b)
    sampled1 sampled2 →
  prompt repoName totalCommitCount sampled1
  = prompt repoName totalCommitCount sampled2.
Proof.
  intros H. unfold prompt, analysisContent.
  rewrite (Forall2_length _ _ _ H).
  by rewrite (imap_ext_Forall2 _ _ _ _ H).
Qed.

(** X21.  The prompt is written from the messages and the diffs of the
    sampled commits as they are, with nothing that marks where one ends:
    the SHA of a commit is not in the prompt, and a text that holds the
    heading of the diff can be moved between the message and the diff of
    a commit without changing the prompt; two calls made with different
    samples can hand the same text to the evaluator. *)
Theorem prompt_does_not_mark_its_parts repoName totalCommitCount
    (before after : list CommitInfo) sha sha' message text diff :
  let heading :=
    [nl; nl] ++ bytes "Commit Diff (first 100 lines or less):" ++ [nl] in
  promptOf
    (GenerateContent repoName totalCommitCount
       (before
        ++ {| SHA := sha; Message := message ++ heading ++ text;
              Diff := diff |}
        :: after))
  = promptOf
      (GenerateContent repoName totalCommitCount
         (before
          ++ {| SHA := sha'; Message := message;
                Diff := text ++ heading ++ diff |}
          :: after)).
Proof.
  intros heading. unfold promptOf. apply prompt_ext.
  apply Forall2_app; [by apply Forall_Forall2_diag, Forall_true|].
  constructor; [|by apply Forall_Forall2_diag, Forall_true].
  intros i. unfold sampledCommitSection, heading. simpl.
  by rewrite <- !app_assoc.
Qed.

(** ** Small populations and the rows of the ranking *)

Lemma mapM_cons_Some {A B} (f : A → option B) x l k :
  mapM f (x :: l) = Some k ↔
  ∃ y k', f x = Some y ∧ mapM f l = Some k' ∧ k = y :: k'.
Proof.
  rewrite mapM_Some. split.
  - intros H. inversion H as [|? y ? k' Hy Hk]; subst.
    exists y, k'. by rewrite mapM_Some.
  - intros (y & k' & Hy & Hk & ->). constructor; [done|].
    by apply mapM_Some.
Qed.

Lemma mapM_Permutation {A B} (f : A → option B) l l' k :
  l ≡ₚ l' → mapM f l = Some k → ∃ k', mapM f l' = Some k' ∧ k ≡ₚ k'.
Proof.
  intros Hp. revert k.
  induction Hp as [|x l l' Hp IH|x y l|l l' l'' Hp1 IH1 Hp2 IH2]; intros k.
  - intros H. by exists k.
  - rewrite mapM_cons_Some. intros (y & k1 & Hy & Hk & ->).
    destruct (IH _ Hk) as (k' & Hk' & Hperm).
    exists (y :: k'). split; [|by constructor].
    apply mapM_cons_Some. by eexists _, _.
  - rewrite mapM_cons_Some. intros (b & k1 & Hb & Hk & ->).
    apply mapM_cons_Some in Hk as (a & k2 & Ha & Hk & ->).
    exists (a :: b :: k2). split; [|by constructor].
    apply mapM_cons_Some. eexists _, _. split_and!; [done| |done].
    apply mapM_cons_Some. by eexists _, _.
  - intros H. destruct (IH1 _ H) as (k' & Hk' & Hperm).
    destruct (IH2 _ Hk') as (k'' & Hk'' & Hperm').
    exists k''. split; [done|]. by etrans.
Qed.

(** Reading a list at every position, in any order, gives the list up to
    the order. *)
Lemma mapM_lookup_Permutation {A} (l : list A) indices :
  indices ≡ₚ seq 0 (length l) →
  ∃ k, mapM (λ i, l !! i) indices = Some k ∧ k ≡ₚ l.
Proof.
  intros Hperm.
  pose proof (mapM_lookup_seq l (length l) ltac:(lia)) as Hall.
  rewrite firstn_all in Hall. symmetry in Hperm.
  destruct (mapM_Permutation _ _ _ _ Hperm Hall) as (k & Hk & Hp).
  exists k. split; [done|]. by symmetry.
Qed.

(** X22.  Under the contract of [rand.Int], a population that is not
    larger than the sample size is selected whole: the sample is a
    permutation of the population. *)
Theorem small_population_selected_whole (randInt : Z → Z)
    (allCommitSHAs : list str) (k : Z) :
  (∀ max, 0 < max → 0 ≤ randInt max < max) →
  Z.of_nat (length allCommitSHAs) ≤ k →
  ∃ sel, selectSHAs randInt allCommitSHAs k = Some sel
         ∧ sel ≡ₚ allCommitSHAs.
Proof.
  intros Hrand Hk.
  destruct (selectedIndices_spec randInt Hrand allCommitSHAs k ltac:(lia))
    as (indices & _ & Hperm & Hidx).
  unfold selectSHAs. rewrite Hidx. simpl.
  rewrite Nat.min_r by lia.
  rewrite take_ge by (rewrite Hperm, length_seq; lia).
  by apply mapM_lookup_Permutation.
Qed.

Lemma small_population_selected_whole_witness :
  let population := [bytes "a1"; bytes "b2"; bytes "c3"] in
  ∃ sel, selectSHAs (λ max, 0) population 5 = Some sel ∧ sel ≡ₚ population.
Proof.
  intros population.
  apply (small_population_selected_whole (λ max, 0) population 5).
  - intros. lia.
  - simpl. lia.
Defined.

Lemma processRepo_rowInvariant organization repo rs calls :
  processRepo organization repo = Some (Some rs, calls) → rowInvariant rs.
Proof.
  intros Hrepo.
  destruct (processRepo_inv _ _ _ _ Hrepo)
    as (Hname & total & sampled & err & Hdata & Hrs).
  pose proof (analysis_count_nonneg _ _ _ _ _ _ _ _ Hdata) as Htotal.
  assert (0 ≤ numRandomCommitsToAnalyze) as Hfive by done.
  destruct (analysis_sample_size _ _ _ _ _ _ _ _ Hfive Hdata) as [Hsize _].
  destruct err as [e|].
  { destruct Hrs as [-> ->]. by split_and!. }
  destruct (Z.eqb_spec total 0) as [->|Hne].
  { destruct Hrs as [-> ->]. by split_and!. }
  destruct Hrs as (geminiEval & Hev & Hn & Hc & Ha & Hs & Hscore).
  unfold rowInvariant. rewrite Hn, Hc, Ha, Hs.
  split_and!; [done|lia|done|lia|lia| |lia].
  destruct geminiEval as [score|e].
  - destruct Hscore as (_ & _ & ->). apply overallScore_not_nan.
  - by destruct Hscore as (_ & _ & ->).
Qed.

(** X23.  Every row of the ranking has a name, a commit count that is
    -1 or more, as many sampled commits as its count of analysed commits
    says, at most five of them, and an overall score that is a number;
    a row whose commit count is 0 or -1 has both scores and the overall
    score at zero and no sampled commit. *)
Theorem ranking_row_invariants organization repos ranking calls :
  main organization repos = Some (ranking, calls) →
  Forall rowInvariant ranking.
Proof.
  unfold main.
  destruct (processRepos organization repos) as [[repoScores calls']|] eqn:Hrun;
    [|done].
  simpl. intros [= <- <-].
  rewrite SliceStable_perm.
  revert repoScores calls' Hrun.
  induction repos as [|repo repos IH]; intros repoScores calls'; simpl.
  { by intros [= <- <-]. }
  destruct (processRepo organization repo) as [[score calls1]|] eqn:Hrepo;
    [|done].
  destruct (processRepos organization repos) as [[scores calls2]|]; [|done].
  simpl. intros [= <- <-].
  specialize (IH _ _ eq_refl).
  destruct score as [rs|]; [|done].
  constructor; [|done]. by eapply processRepo_rowInvariant.
Qed.

Lemma ranking_row_invariants_witness :
  ∃ ranking calls,
    main (bytes "org") rankedRepositories = Some (ranking, calls)
    ∧ Forall rowInvariant ranking.
Proof.
  eexists _, _. split; [vm_compute; reflexivity|].
  eapply (ranking_row_invariants (bytes "org") rankedRepositories).
  vm_compute. reflexivity.
Defined.

(** ** The two counting programs together *)

(** X24.  When [sort.Slice] keeps its contract, the ranking of the
    bar-chart program is a permutation of the recorded entries that
    lists the counted repositories by decreasing count and, after them,
    the repositories whose count failed. *)
Theorem chart_ranking_order Slice plotFails organization repos report :
  (∀ l, Slice l ≡ₚ l) →
  (∀ l, Sorted (λ a b, chart.less b a = false) (Slice l)) →
  chart.main Slice plotFails organization repos = chart.Finished report →
  chart.ranking report ≡ₚ (chart.countRepos organization repos [] 0).1
  ∧ ∃ counted failed,
      chart.ranking report = counted ++ failed
      ∧ Forall (λ rc, 0 ≤ chart.CommitCount rc) counted
      ∧ Forall (λ rc, chart.CommitCount rc = -1) failed
      ∧ StronglySorted (λ a b, chart.CommitCount b ≤ chart.CommitCount a)
          counted.
Proof.
  intros Hperm Hsorted. unfold chart.main.
  case_bool_decide; [done|].
  destruct (chart_countRepos_spec organization repos [] 0 ltac:(lia))
    as (repoCommits & -> & Hrec).
  rewrite app_nil_l. cbn [fst].
  set (chartResult := if _ && _ then _ else _).
  destruct chartResult as [chartResult|]; [|done].
  destruct (chart.totals (Slice repoCommits) 0 0). intros [= <-]. simpl.
  split; [done|].
  destruct (chart_sorted_shape (Slice repoCommits))
    as (counted & failed & Hsplit & Hcounted & Hfailed & Hdesc).
  { apply Sorted_StronglySorted; [|done].
    intros a b c. rewrite !chart_less_false. lia. }
  exists counted, failed. split_and!; [done| |done..].
  assert (Forall (λ rc, -1 ≤ chart.CommitCount rc) repoCommits) as Hlow.
  { clear -Hrec. induction Hrec as [|repo rc ?? [_ Hrc] _ IH]; [done|].
    constructor; [|done].
    pose proof (GetRepositoryCommitCount_nonneg organization (GetName repo)
                  (firstCommitPage repo) (commitListing repo)) as Hn.
    destruct (GetRepositoryCommitCount _ _ _ _) as [n err] eqn:Hres.
    destruct (Hrc n err eq_refl) as [Hiff Hok]. simpl in Hn.
    destruct err as [e|]; [|rewrite Hok by done; lia].
    assert (chart.CommitCount rc = -1) as -> by (apply Hiff; by eexists).
    done. }
  rewrite <- (Hperm repoCommits), Hsplit in Hlow.
  apply Forall_app in Hlow as [Hlow _].
  rewrite Forall_forall in Hlow, Hcounted |- *. intros rc Hrc.
  specialize (Hlow rc Hrc). specialize (Hcounted rc Hrc). lia.
Qed.

Lemma chart_ranking_order_witness :
  ∃ report,
    chart.main (sort.SliceStable chart.less) false (bytes "org")
      countedRepositories = chart.Finished report
    ∧ chart.CommitCount <$> chart.ranking report = [7; 5; 0; -1]
    ∧ chart.ranking report
      ≡ₚ (chart.countRepos (bytes "org") countedRepositories [] 0).1
    ∧ ∃ counted failed,
        chart.ranking report = counted ++ failed
        ∧ Forall (λ rc, 0 ≤ chart.CommitCount rc) counted
        ∧ Forall (λ rc, chart.CommitCount rc = -1) failed
        ∧ StronglySorted (λ a b, chart.CommitCount b ≤ chart.CommitCount a)
            counted.
Proof.
  eexists. split; [vm_compute; reflexivity|].
  split; [vm_compute; reflexivity|].
  apply (chart_ranking_order (sort.SliceStable chart.less) false
           (bytes "org") countedRepositories).
  - apply SliceStable_perm.
  - intros l. apply SliceStable_sorted.
    intros a b. rewrite chart_less_spec, chart_less_false. lia.
  - vm_compute. reflexivity.
Defined.

(** The rows of the table program are the entries of the bar-chart
    program whose count did not fail. *)
Lemma table_rows_of_chart_entries organization repos repoCommits mx rows total :
  rows = (λ rc, (chart.Name rc, chart.CommitCount rc))
         <$> filter (λ rc, chart.CommitCount rc ≠ -1) repoCommits →
  (table.countRepos organization repos rows total).1
  = (λ rc, (chart.Name rc, chart.CommitCount rc))
    <$> filter (λ rc, chart.CommitCount rc ≠ -1)
          (chart.countRepos organization repos repoCommits mx).1.
Proof.
  revert repoCommits mx rows total.
  induction repos as [|repo repos IH]; intros acc mx rows total Hrows; simpl.
  { done. }
  case_bool_decide as Hname; [by apply IH|].
  pose proof (GetRepositoryCommitCount_nonneg organization (GetName repo)
                (firstCommitPage repo) (commitListing repo)) as Hn.
  destruct (GetRepositoryCommitCount _ _ _ _) as [n [e|]]; simpl in Hn;
    apply IH; rewrite filter_app, fmap_app, <- Hrows, filter_cons.
  - rewrite decide_False by (intros H; by apply H). by rewrite app_nil_r.
  - by rewrite decide_True by (simpl; lia).
Qed.

(** X25.  Run on the same repositories, the table program and the
    bar-chart program agree: the rows of the first are the entries of the
    second whose count did not fail, the two totals are equal, and the
    number of rows is the number of valid repositories; the first divides
    its total by the number of all the listed repositories, the second by
    the number of valid ones. *)
Theorem counting_programs_agree Slice plotFails organization repos chartReport
    tableReport :
  (∀ l, Slice l ≡ₚ l) →
  chart.main Slice plotFails organization repos = chart.Finished chartReport →
  table.main organization repos = Some tableReport →
  table.rows tableReport
  ≡ₚ (λ rc, (chart.Name rc, chart.CommitCount rc))
     <$> filter (λ rc, chart.CommitCount rc ≠ -1) (chart.ranking chartReport)
  ∧ table.totalCommits tableReport = chart.totalOrgCommits chartReport
  ∧ Z.of_nat (length (table.rows tableReport))
    = chart.validRepoCount chartReport
  ∧ table.avgCommits tableReport
    = Some (float64_of_int (chart.totalOrgCommits chartReport)
            / float64_of_int (Z.of_nat (length repos)))%float.
Proof.
  intros Hperm. unfold chart.main, table.main.
  case_bool_decide as Hrepos; [done|].
  pose proof (table_rows_of_chart_entries organization repos [] 0 [] 0 eq_refl)
    as Hrows.
  destruct (table_countRepos_spec organization repos [] 0)
    as (rows & Htable & _).
  rewrite Htable in Hrows |- *. rewrite app_nil_l in *. cbn [fst] in Hrows.
  destruct (chart.countRepos organization repos [] 0)
    as [repoCommits maxCommitsValue]. cbn [fst] in Hrows.
  set (chartResult := if _ && _ then _ else _).
  destruct chartResult as [chartResult|]; [|done].
  rewrite chart_totals_spec, !Z.add_0_l. intros [= <-] [= <-]. simpl.
  assert (filter (λ rc, chart.CommitCount rc ≠ -1) (Slice repoCommits)
          ≡ₚ filter (λ rc, chart.CommitCount rc ≠ -1) repoCommits) as Hfilter
    by (by rewrite Hperm).
  assert (snd <$> rows
          = chart.CommitCount
            <$> filter (λ rc, chart.CommitCount rc ≠ -1) repoCommits) as Hsnd.
  { rewrite Hrows, <- list_fmap_compose. done. }
  split_and!.
  - rewrite Hrows. by rewrite Hfilter.
  - rewrite Hsnd. apply sumZ_Permutation. by rewrite Hfilter.
  - rewrite (Permutation_length Hfilter), Hrows, length_fmap. done.
  - destruct (Nat.ltb_spec 0 (length repos)); [|lia].
    do 3 f_equal. rewrite Hsnd. apply sumZ_Permutation. by rewrite Hfilter.
Qed.

Lemma counting_programs_agree_witness :
  ∃ chartReport tableReport,
    chart.main (sort.SliceStable chart.less) false (bytes "org")
      countedRepositories = chart.Finished chartReport
    ∧ table.main (bytes "org") countedRepositories = Some tableReport
    ∧ table.rows tableReport
      ≡ₚ (λ rc, (chart.Name rc, chart.CommitCount rc))
         <$> filter (λ rc, chart.CommitCount rc ≠ -1)
               (chart.ranking chartReport)
    ∧ table.totalCommits tableReport = chart.totalOrgCommits chartReport
    ∧ Z.of_nat (length (table.rows tableReport))
      = chart.validRepoCount chartReport
    ∧ table.avgCommits tableReport
      = Some (float64_of_int (chart.totalOrgCommits chartReport)
              / float64_of_int (Z.of_nat (length countedRepositories)))%float.
Proof.
  eexists _, _. split; [vm_compute; reflexivity|].
  split; [vm_compute; reflexivity|].
  apply (counting_programs_agree (sort.SliceStable chart.less) false
           (bytes "org") countedRepositories).
  - apply SliceStable_perm.
  - vm_compute. reflexivity.
  - vm_compute. reflexivity.
Defined.

(** ** The sample as a whole *)

Lemma shuffle_Some_perm rnd i indices indices' :
  shuffle rnd i indices = Some indices' → indices' ≡ₚ indices.
Proof.
  revert indices. induction i as [|i IH]; intros indices; simpl.
  { by intros [= <-]. }
  destruct (_ <? 0); [done|].
  destruct (swap indices (S i) _) as [ind1|] eqn:Hsw; [|done]. simpl.
  intros H. rewrite (IH _ H). by eapply swap_perm.
Qed.

Lemma mapM_lookup_sublist {A} (l : list A) m k :
  mapM (λ i, l !! i) (seq 0 m) = Some k → k = take m l.
Proof.
  intros H. apply mapM_Some in H.
  assert (m ≤ length l)%nat as Hm.
  { destruct m as [|m]; [lia|].
    assert (seq 0 (S m) !! m = Some m) as Hlast
      by (apply lookup_seq; lia).
    destruct (Forall2_lookup_l _ _ _ _ _ H Hlast) as (y & _ & Hy).
    apply lookup_lt_Some in Hy. lia. }
  apply mapM_Some_2 in H.
  rewrite mapM_lookup_seq in H by done. by injection H.
Qed.

(** The SHAs the sampler returns are read at pairwise distinct
    positions. *)
Lemma selectSHAs_NoDup rnd allCommitSHAs k sel :
  selectSHAs rnd allCommitSHAs k = Some sel → NoDup allCommitSHAs → NoDup sel.
Proof.
  unfold selectSHAs, selectedIndices. intros H Hnd.
  destruct (shuffle _ _ _) as [indices|] eqn:Hsh; [|done]. simpl in H.
  destruct (mapM _ (seq _ _)) as [idx|] eqn:Hidx; [|done]. simpl in H.
  apply mapM_lookup_sublist in Hidx. subst idx.
  apply shuffle_Some_perm in Hsh.
  assert (NoDup (take (Z.to_nat (numToSelect allCommitSHAs k)) indices))
    as Hidx.
  { eapply sublist_NoDup; [|apply sublist_take].
    rewrite Hsh. apply NoDup_seq. }
  apply mapM_Some in H.
  apply NoDup_alt. intros a b sha Ha Hb.
  destruct (Forall2_lookup_r _ _ _ _ _ H Ha) as (i & Hi & Hia).
  destruct (Forall2_lookup_r _ _ _ _ _ H Hb) as (j & Hj & Hjb).
  assert (i = j) as -> by exact (NoDup_lookup _ _ _ _ Hnd Hia Hjb).
  exact (NoDup_lookup _ _ _ _ Hidx Hi Hj).
Qed.

Lemma fetchDetails_sublist w limit sel :
  SHA <$> fetchDetails w limit sel `sublist_of` sel.
Proof.
  rewrite fetchDetails_SHAs. unfold fetchSuccesses.
  assert (∀ (P : nat * str → Prop) `{!∀ x, Decision (P x)} n,
            snd <$> filter P (imap (λ i, pair (n + i)%nat) sel)
            `sublist_of` sel) as Hgen.
  { intros P HP. induction sel as [|sha sel IH]; intros n; [done|].
    simpl. rewrite filter_cons.
    assert (snd <$> filter P (imap ((λ i, pair (n + i)%nat) ∘ S) sel)
            `sublist_of` sel) as Hrest.
    { erewrite imap_ext; [apply (IH (S n))|].
      intros i x _. simpl. f_equal. lia. }
    destruct (decide (P _)).
    - rewrite fmap_cons. by apply sublist_skip.
    - by apply sublist_cons. }
  apply (Hgen _ _ O).
Qed.

(** X26.  Whenever [GetRepositoryCommitAnalysisData] returns, no commit
    is packaged twice, provided the SHAs of the listing are pairwise
    distinct: the sample is drawn without repetition, whatever the random
    source drew. *)
Theorem sampled_commits_distinct w owner repoName n limit total sampled err :
  NoDup (pageSHAs (listedCommits (shaListing w))) →
  GetRepositoryCommitAnalysisData w owner repoName n limit
  = Some (total, sampled, err) →
  NoDup (SHA <$> sampled).
Proof.
  intros Hnd Hres.
  pose proof (GetRepositoryCommitAnalysisData_outcome w owner repoName n limit)
    as Hout.
  rewrite Hres in Hout.
  inversion Hout as [| | | |tot allCommitSHAs sel Hc Hne Hs Hnil Hsel|];
    subst; try by constructor.
  destruct (listCommitSHAs_from_prefix _ _ _ _ _ Hs) as [k Hk].
  simpl in Hk.
  eapply sublist_NoDup; [|apply fetchDetails_sublist].
  eapply selectSHAs_NoDup; [done|].
  rewrite Hk. eapply sublist_NoDup; [done|apply sublist_take].
Qed.

Lemma sampled_commits_distinct_witness :
  NoDup (SHA <$> fetchDetails worldOneFetchFails 100
                   [bytes "a1"; bytes "b2"; bytes "c3"; bytes "d4";
                    bytes "e5"]).
Proof.
  apply (sampled_commits_distinct worldOneFetchFails (bytes "org")
           (bytes "repo") 5 100 5 _ None).
  - apply (bool_decide_unpack _). vm_compute. exact I.
  - vm_compute. reflexivity.
Defined.

(** A listing without failure whose commits all carry a SHA and are as
    many as were counted is enumerated whole when it is short. *)
Lemma length_pageSHAs_all commits :
  allHaveSHA commits → length (pageSHAs commits) = length commits.
Proof.
  induction 1 as [|c l [sha Hc] _ IH]; [done|].
  unfold pageSHAs in *.
  change (omap CommitSHA (c :: l))
    with (match CommitSHA c with
          | Some y => y :: omap CommitSHA l
          | None => omap CommitSHA l
          end).
  rewrite Hc. simpl. by rewrite IH.
Qed.

Lemma listCommitSHAs_from_whole total n acc listing :
  listingError listing = None → allHaveSHA (listedCommits listing) →
  total = Z.of_nat (length acc + length (listedCommits listing)) →
  total ≤ 500 →
  listCommitSHAs_from total n acc listing
  = Some (acc ++ pageSHAs (listedCommits listing)).
Proof.
  revert acc. induction listing as [commits|commits next IH|status err];
    intros acc Herr Hsha Htotal Hsmall; [done| |done].
  simpl in Herr, Hsha, Htotal. apply Forall_app in Hsha as [Hpage Hnext].
  rewrite length_app in Htotal.
  simpl listCommitSHAs_from. cbv zeta.
  rewrite length_app, (length_pageSHAs_all commits Hpage).
  simpl listedCommits. rewrite pageSHAs_app.
  destruct (Z.leb_spec total (Z.of_nat (length acc + length commits)))
    as [Hdone|Hmore].
  - assert (listedCommits next = []) as ->.
    { destruct (listedCommits next); [done|]. simpl in Htotal. lia. }
    by rewrite app_nil_r.
  - destruct (Z.ltb_spec 500 (Z.of_nat (length acc + length commits)));
      [lia|].
    cbn [andb].
    rewrite IH; [by rewrite <- app_assoc|done..| |done].
    rewrite length_app, (length_pageSHAs_all commits Hpage). lia.
Qed.

Lemma fetchDetails_all_succeed w limit sel :
  (∀ i sha, is_Some (GetCommit w i sha)) →
  SHA <$> fetchDetails w limit sel = sel.
Proof.
  intros Hok. rewrite fetchDetails_SHAs. unfold fetchSuccesses.
  assert (∀ n, snd <$> filter (λ p, is_Some (GetCommit w p.1 p.2))
                         (imap (λ i, pair (n + i)%nat) sel) = sel) as Hgen.
  { induction sel as [|sha sel IH]; intros n; [done|].
    simpl. rewrite filter_cons, decide_True by apply Hok.
    rewrite fmap_cons. simpl. f_equal.
    erewrite imap_ext; [apply (IH (S n))|].
    intros i x _. simpl. f_equal. lia. }
  apply (Hgen O).
Qed.

(** X27.  A repository that is listed the same when its commits are
    counted and when their SHAs are enumerated, without failure, whose
    commits all carry a SHA and are no more than the sample size, and
    whose detail requests are all answered, is analysed whole: under the
    contract of [rand.Int] the packaged commits are those of the
    listing, each once, in some order. *)
Theorem small_repository_analysed_whole w owner repoName limit :
  (∀ max, 0 < max → 0 ≤ randInt w max < max) →
  shaListing w = countListing w →
  listingError (countListing w) = None →
  allHaveSHA (listedCommits (countListing w)) →
  Z.of_nat (length (listedCommits (countListing w)))
  ≤ numRandomCommitsToAnalyze →
  (∀ i sha, is_Some (GetCommit w i sha)) →
  ∃ sampled,
    GetRepositoryCommitAnalysisData w owner repoName
      numRandomCommitsToAnalyze limit
    = Some (Z.of_nat (length (listedCommits (countListing w))), sampled, None)
    ∧ SHA <$> sampled ≡ₚ pageSHAs (listedCommits (countListing w)).
Proof.
  intros Hrand Hstable Herr Hsha Hsmall Hok.
  unfold numRandomCommitsToAnalyze in Hsmall.
  unfold GetRepositoryCommitAnalysisData.
  unfold countAllCommits. rewrite countAllCommits_from_result, Herr.
  rewrite Z.add_0_l.
  set (commits := listedCommits (countListing w)) in *.
  destruct (Z.eqb_spec (Z.of_nat (length commits)) 0) as [Hzero|Hne].
  { exists []. split; [by rewrite Hzero|].
    destruct commits; [done|simpl in Hzero; lia]. }
  rewrite Hstable.
  rewrite (listCommitSHAs_from_whole _ _ [] (countListing w));
    [|done|done|simpl; by fold commits|lia].
  rewrite app_nil_l. fold commits.
  case_bool_decide as Hlen.
  { exists []. split; [done|]. by destruct (pageSHAs commits). }
  pose proof (length_pageSHAs commits) as Hshort.
  destruct (selectedIndices_spec (randInt w) Hrand (pageSHAs commits)
              numRandomCommitsToAnalyze ltac:(done))
    as (indices & _ & Hperm & Hidx).
  unfold selectSHAs. rewrite Hidx. cbn [mbind option_bind].
  rewrite Nat.min_r by (unfold numRandomCommitsToAnalyze; lia).
  rewrite take_ge by (rewrite Hperm, length_seq; lia).
  destruct (mapM_lookup_Permutation (pageSHAs commits) indices Hperm)
    as (sel & -> & Hsel).
  cbn [mbind option_bind]. eexists. split; [done|].
  by rewrite fetchDetails_all_succeed.
Qed.

Lemma small_repository_analysed_whole_witness :
  ∃ sampled,
    GetRepositoryCommitAnalysisData worldSmall (bytes "org") (bytes "tool")
      numRandomCommitsToAnalyze 100
    = Some (Z.of_nat (length (listedCommits (countListing worldSmall))),
            sampled, None)
    ∧ SHA <$> sampled ≡ₚ pageSHAs (listedCommits (countListing worldSmall)).
Proof.
  apply (small_repository_analysed_whole worldSmall (bytes "org")
           (bytes "tool") 100).
  - simpl. intros. lia.
  - reflexivity.
  - reflexivity.
  - repeat constructor; by eexists.
  - vm_compute. discriminate.
  - intros. simpl. by eexists.
Defined.
